(** * A first-fit pool allocator: shallow embedding of
      [custom_memory_allocator.c] and the properties of its specification.

    The C file manages one [malloc]ed region.  The region starts with a
    [struct memory_block]; the rest is the data area, in which every live
    allocation is a [struct memory_node] header followed by its bytes.  The
    headers form a doubly linked list in address order; free space is whatever
    lies between them.

    The functions are embedded twice.

    Over the headers ([pool_alloc], [pool_free], ...): memory is a finite map
    from the address of a header to the [memory_node] stored there, next to
    the one [memory_block] of the pool.  A write to one header leaves every
    other entry as it is, so this is the code as long as the headers that
    are written lie apart, which a pool in good order ([pool_wf]) ensures;
    it says nothing true of a pointer whose header another header has been
    written over.  The payload bytes are not part of the state.

    Over the bytes ([Bytes.pool_alloc], [Bytes.pool_free], ...): memory is
    the bytes of the region by address, and every access of the source is a
    load or a store of its own, in the order of the source.  This is the code
    also where headers overlap, at a pointer that was freed or never
    allocated, and after arithmetic has wrapped.  On a pool in good order
    the two agree ([create_bytes], [pool_alloc_bytes], [pool_free_bytes]).

    Modelling choices, all explicit in the definitions below:
    - [size_t] values are integers with the wrap-around [wrap] written at every
      arithmetic operation of the source, pointers are integers ([0] is
      [NULL]);  over the headers pointer arithmetic is exact and a pointer
      difference stored in a [size_t] is wrapped, over the bytes every
      pointer is wrapped;
    - [sizeof (struct memory_block)], [sizeof (struct memory_node)] and the
      width of [size_t] depend on the C target, so they are the fields of a
      [target]; [LP64] and [ILP32] are the two usual ones;
    - over the bytes, a word is stored least significant byte first, the
      fields lie one word apart in the order of their declaration
      ([Bytes.natural_layout]), [true] is stored as the byte 1 and any byte
      but 0 is read as [true];
    - a C call either returns, fails an [assert], touches memory that holds no
      header (over the bytes: that lies outside the region), or loops for
      ever: [outcome], [Bytes.result]. *)

From Stdlib Require Import ZArith Lia.
From stdpp Require Import base option list gmap strings pretty.

Local Open Scope Z_scope.

(** ** Targets *)

Record target := Target {
  size_bits : Z;             (* width of [size_t] and of a pointer *)
  sizeof_memory_block : Z;   (* [sizeof (struct memory_block)] *)
  sizeof_memory_node : Z     (* [sizeof (struct memory_node)] *)
}.

(** Two pointers and three [size_t] in the pool header; a [size_t], a padded
    [bool], and three pointers in a node header. *)
Definition LP64 : target := Target 64 40 40.
Definition ILP32 : target := Target 32 20 20.

Record target_ok (T : target) : Prop := {
  bits_ok : 8 <= size_bits T;
  block_pos : 0 < sizeof_memory_block T;
  node_pos : 0 < sizeof_memory_node T;
  node_small : sizeof_memory_node T + 8 < 2 ^ size_bits T;
  block_small : sizeof_memory_block T <= sizeof_memory_node T + 8
}.

(** Headers whose sizes are multiples of the alignment unit. *)
Definition target_aligned (T : target) : Prop :=
  (8 | sizeof_memory_block T) /\ (8 | sizeof_memory_node T).

(** ** The two structures *)

Record memory_block := Block {
  first : Z;             (* first allocated block, [0] when none *)
  upper_limit : Z;       (* end of the memory pool *)
  total_size : Z;        (* total size of the memory pool *)
  used_memory : Z;       (* currently used memory *)
  num_allocations : Z    (* number of active allocations *)
}.

Record memory_node := Node {
  size : Z;              (* size of the allocated memory *)
  is_used : bool;        (* whether this block is in use *)
  prev : Z;              (* previous node, [0] when none *)
  next : Z;              (* next node, [0] when none *)
  pool : Z               (* the pool the node belongs to *)
}.

(** The pool pointer, the structure it points to, and the node headers that
    have been written so far, by address. *)
Record arena := Arena {
  pool_addr : Z;
  header : memory_block;
  nodes : gmap Z memory_node
}.

Inductive outcome (A : Type) : Type :=
| Ret (v : A) (st : arena)   (* the call returns [v] and leaves [st] *)
| Abort                      (* an [assert] fails *)
| Fault                      (* access to memory that holds no header *)
| Diverge.                   (* the loop never exits *)
Arguments Ret {A} v st.
Arguments Abort {A}.
Arguments Fault {A}.
Arguments Diverge {A}.

(** What [visualize_pool] and [destroy_pool] print, one constructor for each
    [printf] of the source; [render] is the text. *)
Inductive line :=
| Title                          (* "\nMemory Pool Visualization:\n" *)
| TotalSize (n : Z)              (* "Total Size: %zu bytes\n" *)
| UsedMemory (n : Z)             (* "Used Memory: %zu bytes\n" *)
| ActiveAllocations (n : Z)      (* "Active Allocations: %zu\n" *)
| LayoutTitle                    (* "Memory Layout:\n" *)
| GapLine (n : Z)                (* "[GAP: %zu bytes]\n" *)
| NodeLine (used : bool) (n : Z) (* "[%s: %zu bytes]\n", USED or FREE *)
| Blank                          (* "\n" *)
| LeakWarning (n : Z).
    (* "Warning: Destroying pool with %zu active allocations!\n" *)

Definition newline : string := String (Ascii.ascii_of_nat 10) EmptyString.

Definition render (l : line) : string :=
  match l with
  | Title => newline +:+ "Memory Pool Visualization:" +:+ newline
  | TotalSize n => "Total Size: " +:+ pretty n +:+ " bytes" +:+ newline
  | UsedMemory n => "Used Memory: " +:+ pretty n +:+ " bytes" +:+ newline
  | ActiveAllocations n => "Active Allocations: " +:+ pretty n +:+ newline
  | LayoutTitle => "Memory Layout:" +:+ newline
  | GapLine n => "[GAP: " +:+ pretty n +:+ " bytes]" +:+ newline
  | NodeLine used n =>
    "[" +:+ (if used then "USED" else "FREE") +:+ ": " +:+ pretty n
        +:+ " bytes]" +:+ newline
  | Blank => newline
  | LeakWarning n =>
    "Warning: Destroying pool with " +:+ pretty n +:+ " active allocations!"
      +:+ newline
  end.

(** The sizes on the gap lines and on the node lines of a report, and the
    tags on the node lines. *)
Definition gap_sizes (ls : list line) : list Z :=
  omap (fun l => match l with GapLine n => Some n | _ => None end) ls.
Definition block_sizes (ls : list line) : list Z :=
  omap (fun l => match l with NodeLine _ n => Some n | _ => None end) ls.
Definition block_tags (ls : list line) : list bool :=
  omap (fun l => match l with NodeLine u _ => Some u | _ => None end) ls.
Definition sum_of (l : list Z) : Z := foldr Z.add 0 l.

Definition set_prev (v : Z) (n : memory_node) : memory_node :=
  Node (size n) (is_used n) v (next n) (pool n).
Definition set_next (v : Z) (n : memory_node) : memory_node :=
  Node (size n) (is_used n) (prev n) v (pool n).
Definition set_is_used (v : bool) (n : memory_node) : memory_node :=
  Node (size n) v (prev n) (next n) (pool n).

(** [p->field = v] for a node pointer [p]: nothing to write to when no header
    lives at [p]. *)
Definition store (p : Z) (f : memory_node -> memory_node)
    (m : gmap Z memory_node) : option (gmap Z memory_node) :=
  match m !! p with
  | Some n => Some (<[p := f n]> m)
  | None => None
  end.

Section Allocator.

Context (T : target).

Abbreviation hb := (sizeof_memory_block T).
Abbreviation hn := (sizeof_memory_node T).

(** Arithmetic of [size_t]. *)
Definition wrap (x : Z) : Z := x mod 2 ^ size_bits T.

Definition MIN_ALIGNMENT : Z := 8.
Definition MIN_BLOCK_SIZE : Z := wrap (hn + MIN_ALIGNMENT).

(** [(size + (MIN_ALIGNMENT - 1)) & ~(MIN_ALIGNMENT - 1)]: the mask is the
    [int] value [~7], converted to [size_t]. *)
Definition align_size (sz : Z) : Z :=
  Z.land (wrap (sz + (MIN_ALIGNMENT - 1))) (wrap (Z.lnot (MIN_ALIGNMENT - 1))).

(** [malloc] is the environment's: [p] is the pointer it returns, [0] when it
    fails.  [None] is the [NULL] result. *)
Definition create_memory_pool (p : Z) (sz : Z) : option arena :=
  if sz <? MIN_BLOCK_SIZE then None
  else if p =? 0 then None
  else Some (Arena p (Block 0 (p + sz) sz 0 0) ∅).

(** [pool->used_memory += aligned_size + sizeof (struct memory_node);
    pool->num_allocations++;], with the new list head [fst]. *)
Definition charge (b : memory_block) (aligned_size : Z) (fst : Z) : memory_block :=
  Block fst (upper_limit b) (total_size b)
        (wrap (used_memory b + wrap (aligned_size + hn)))
        (wrap (num_allocations b + 1)).

(** The [while (current)] loop of [pool_alloc].  The fuel is only spent by a
    walk that visits more headers than the store holds.  The new header is
    written before the neighbours are relinked, as in the source; [cur] is
    the header at [current] as it was read at the top of the iteration (the
    new header lies at least one header size further, so writing it does not
    change [current->next]). *)
Fixpoint scan_gaps (fuel : nat) (st : arena) (aligned_size : Z) (current : Z)
    : outcome Z :=
  match fuel with
  | O => Diverge
  | S fuel' =>
    if current =? 0 then Ret 0 st
    else
      match nodes st !! current with
      | None => Fault
      | Some cur =>
        let current_end := current + hn + size cur in
        let gap_size :=
          if next cur =? 0
          then wrap (upper_limit (header st) - current_end)
          else wrap (next cur - current_end) in
        if wrap (aligned_size + hn) <=? gap_size then
          let m1 := <[current_end :=
                        Node aligned_size true current (next cur) (pool_addr st)]>
                      (nodes st) in
          match (if next cur =? 0 then Some m1
                 else store (next cur) (set_prev current_end) m1) with
          | None => Fault
          | Some m2 =>
            match store current (set_next current_end) m2 with
            | None => Fault
            | Some m3 =>
              Ret (current_end + hn)
                  (Arena (pool_addr st)
                         (charge (header st) aligned_size (first (header st)))
                         m3)
            end
          end
        else scan_gaps fuel' st aligned_size (next cur)
      end
  end.

Definition pool_alloc (st : arena) (sz : Z) : outcome Z :=
  if pool_addr st =? 0 then Abort
  else
    let aligned_size := align_size sz in
    if aligned_size =? 0 then Ret 0 st
    else if wrap (total_size (header st) - used_memory (header st))
              <? wrap (aligned_size + hn) then Ret 0 st
    else
      let pool_start := pool_addr st + hb in
      if first (header st) =? 0 then
        Ret (pool_start + hn)
            (Arena (pool_addr st)
                   (charge (header st) aligned_size pool_start)
                   (<[pool_start := Node aligned_size true 0 0 (pool_addr st)]>
                      (nodes st)))
      else
        let initial_gap := wrap (first (header st) - pool_start) in
        if wrap (aligned_size + hn) <=? initial_gap then
          let m1 := <[pool_start :=
                        Node aligned_size true 0 (first (header st)) (pool_addr st)]>
                      (nodes st) in
          match store (first (header st)) (set_prev pool_start) m1 with
          | None => Fault
          | Some m2 =>
            Ret (pool_start + hn)
                (Arena (pool_addr st)
                       (charge (header st) aligned_size pool_start)
                       m2)
          end
        else
          scan_gaps (S (stdpp.base.size (nodes st))) st aligned_size
                    (first (header st)).

(** The last block of [pool_free], "update linked list": the store and list
    head [fst0] after the header [n] has been taken out of the list. *)
Definition unlink (m1 : gmap Z memory_node) (fst0 : Z) (n : memory_node)
    : option (Z * gmap Z memory_node) :=
  match (if prev n =? 0 then Some (next n, m1)
         else option_map (pair fst0)
                         (store (prev n) (set_next (next n)) m1)) with
  | None => None
  | Some (fst, m2) =>
    match (if next n =? 0 then Some m2
           else store (next n) (set_prev (prev n)) m2) with
    | None => None
    | Some m3 => Some (fst, m3)
    end
  end.

(** [pool_free].  The node names its pool; the arena models one pool, so a
    node of another pool is memory outside the model. *)
Definition pool_free (st : arena) (ptr : Z) : outcome unit :=
  if ptr =? 0 then Ret tt st
  else
    let node := ptr - hn in
    match nodes st !! node with
    | None => Fault
    | Some n =>
      if negb (is_used n) then Abort
      else if negb (pool n =? pool_addr st) then Fault
      else
        let b := header st in
        let used := wrap (used_memory b - wrap (size n + hn)) in
        let count := wrap (num_allocations b - 1) in
        let m1 := <[node := set_is_used false n]> (nodes st) in
        match unlink m1 (first b) n with
        | None => Fault
        | Some (fst, m3) =>
          Ret tt (Arena (pool_addr st)
                        (Block fst (upper_limit b) (total_size b) used count)
                        m3)
        end
    end.

(** [get_pool_stats]: total size, used memory, number of allocations. *)
Definition get_pool_stats (st : arena) : Z * Z * Z :=
  (total_size (header st), used_memory (header st), num_allocations (header st)).

(** The [while (node)] loop of [visualize_pool] and the lines printed after
    it; [current] is the end of the last header met.  The lines printed
    before a stray access or by a walk that never ends are not kept. *)
Fixpoint layout_lines (fuel : nat) (st : arena) (node current : Z)
    : outcome (list line) :=
  match fuel with
  | O => Diverge
  | S fuel' =>
    if node =? 0 then
      Ret ((if current <? upper_limit (header st)
            then [GapLine (wrap (upper_limit (header st) - current))]
            else [])
             ++ [Blank]) st
    else
      match nodes st !! node with
      | None => Fault
      | Some n =>
        match layout_lines fuel' st (next n) (node + hn + size n) with
        | Ret ls st' =>
          Ret ((if current <? node then [GapLine (wrap (node - current))]
                else [])
                 ++ NodeLine (is_used n) (wrap (size n + hn)) :: ls) st'
        | Abort => Abort
        | Fault => Fault
        | Diverge => Diverge
        end
      end
  end.

Definition visualize_pool (st : arena) : outcome (list line) :=
  if pool_addr st =? 0 then Abort
  else
    match layout_lines (S (stdpp.base.size (nodes st))) st
                       (first (header st)) (pool_addr st + hb) with
    | Ret ls st' =>
      Ret (Title :: TotalSize (total_size (header st))
                 :: UsedMemory (used_memory (header st))
                 :: ActiveAllocations (num_allocations (header st))
                 :: LayoutTitle :: ls) st'
    | Abort => Abort
    | Fault => Fault
    | Diverge => Diverge
    end.

(** [destroy_pool]: what is printed before the region is given back to
    [free]; [None] when the [assert] fails.  No pool is left. *)
Definition destroy_pool (st : arena) : option (list line) :=
  if pool_addr st =? 0 then None
  else Some (if 0 <? num_allocations (header st)
             then [LeakWarning (num_allocations (header st))] else []).

(** ** Sequences of calls *)

(** One call that returns. *)
Inductive step : arena -> arena -> Prop :=
| step_alloc st sz q st' : pool_alloc st sz = Ret q st' -> step st st'
| step_free st ptr st' : pool_free st ptr = Ret tt st' -> step st st'.

(** The states a program can bring a pool to: [create_memory_pool], then any
    number of [pool_alloc] and [pool_free] calls. *)
Definition reachable (st : arena) : Prop :=
  exists p sz st0,
    0 <= p /\ create_memory_pool p sz = Some st0 /\ rtc step st0 st.

(** A program that only calls the allocator: [run] is the pool it leaves, if
    every call returns. *)
Inductive call := Alloc (sz : Z) | Free (ptr : Z).

Fixpoint run (st : arena) (cs : list call) : option arena :=
  match cs with
  | [] => Some st
  | Alloc sz :: cs' =>
    match pool_alloc st sz with
    | Ret _ st' => run st' cs'
    | _ => None
    end
  | Free ptr :: cs' =>
    match pool_free st ptr with
    | Ret _ st' => run st' cs'
    | _ => None
    end
  end.

(** ** Vocabulary of the specification *)

(** The headers met from [p] along [next], at most [fuel] of them. *)
Fixpoint records_from (fuel : nat) (m : gmap Z memory_node) (p : Z)
    : list memory_node :=
  match fuel with
  | O => []
  | S fuel' =>
    if p =? 0 then []
    else match m !! p with
         | None => []
         | Some n => n :: records_from fuel' m (next n)
         end
  end.

(** Sum of record size plus header size. *)
Definition footprint_sum (l : list memory_node) : Z :=
  foldr (fun n acc => size n + hn + acc) 0 l.

(** A live record, seen from outside: the address of its header and its
    aligned size. *)
Definition end_of (r : Z * Z) : Z := fst r + hn + snd r.

Definition footprints (l : list (Z * Z)) : Z :=
  foldr (fun r acc => snd r + hn + acc) 0 l.

(** The store holds the records [l] as a doubly linked segment that is
    entered at [p], whose first header has [pv] as [prev] and whose last header
    has [nx] as [next]. *)
Fixpoint dllseg (m : gmap Z memory_node) (pl pv p : Z) (l : list (Z * Z))
    (nx : Z) : Prop :=
  match l with
  | [] => p = nx
  | r :: l' =>
    p = fst r /\ fst r <> 0 /\
    exists n', m !! fst r = Some (Node (snd r) true pv n' pl) /\
               dllseg m pl (fst r) n' l' nx
  end.

(** The [prev] seen by the header after the records [l], and the [next] seen
    by the header before them. *)
Fixpoint last_addr (pv : Z) (l : list (Z * Z)) : Z :=
  match l with
  | [] => pv
  | r :: l' => last_addr (fst r) l'
  end.

Definition head_addr (l : list (Z * Z)) (nx : Z) : Z :=
  match l with
  | [] => nx
  | r :: _ => fst r
  end.

(** The records [l] lie in address order between [lo] and [hi], none
    overlapping the next, each of a positive size that is a multiple of 8. *)
Fixpoint chain (lo : Z) (l : list (Z * Z)) (hi : Z) : Prop :=
  match l with
  | [] => lo <= hi
  | r :: l' => lo <= fst r /\ 0 < snd r /\ (8 | snd r) /\ chain (end_of r) l' hi
  end.

(** Where the free space after the records [l] starts. *)
Fixpoint last_end (lo : Z) (l : list (Z * Z)) : Z :=
  match l with
  | [] => lo
  | r :: l' => last_end (end_of r) l'
  end.

(** The gaps of the data area, in address order, as start and length: before
    the first record, between two records, and after the last one. *)
Fixpoint gaps (lo : Z) (l : list (Z * Z)) (hi : Z) : list (Z * Z) :=
  match l with
  | [] => [(lo, hi - lo)]
  | r :: l' => (lo, fst r - lo) :: gaps (end_of r) l' hi
  end.

(** First fit over the gaps: the start of the first gap of at least [need]
    bytes, and the records with one of [sz] bytes added there. *)
Fixpoint place (lo : Z) (l : list (Z * Z)) (hi need sz : Z)
    : option (Z * list (Z * Z)) :=
  match l with
  | [] => if need <=? hi - lo then Some (lo, [(lo, sz)]) else None
  | r :: l' =>
    if need <=? fst r - lo then Some (lo, (lo, sz) :: l)
    else match place (end_of r) l' hi need sz with
         | Some (q, l'') => Some (q, r :: l'')
         | None => None
         end
  end.

(** The layout lines of a pool whose live records are [l]. *)
Fixpoint layout_of (lo : Z) (l : list (Z * Z)) (hi : Z) : list line :=
  match l with
  | [] => (if lo <? hi then [GapLine (hi - lo)] else []) ++ [Blank]
  | r :: l' =>
    (if lo <? fst r then [GapLine (fst r - lo)] else [])
      ++ NodeLine true (snd r + hn) :: layout_of (end_of r) l' hi
  end.

(** The pointers [pool_alloc] returned for the records [l]. *)
Definition pointers (l : list (Z * Z)) : list Z :=
  (fun r => fst r + hn) <$> l.

(** Records of the requested sizes laid out back to back from [lo]. *)
Fixpoint stacked (lo : Z) (sizes : list Z) : list (Z * Z) :=
  match sizes with
  | [] => []
  | s :: sizes' =>
    (lo, align_size s) :: stacked (lo + hn + align_size s) sizes'
  end.

(** A pool in good order, with live records [l]. *)
Record pool_wf (st : arena) (l : list (Z * Z)) : Prop := {
  wf_pool : 0 < pool_addr st;
  wf_upper : upper_limit (header st) = pool_addr st + total_size (header st);
  wf_space : pool_addr st + total_size (header st) < 2 ^ size_bits T;
  wf_list : dllseg (nodes st) (pool_addr st) 0 (first (header st)) l 0;
  wf_chain : chain (pool_addr st + hb) l (upper_limit (header st));
  wf_used : used_memory (header st) = footprints l;
  wf_count : num_allocations (header st) = Z.of_nat (length l);
  wf_live : forall a n, nodes st !! a = Some n -> is_used n = true ->
                        a ∈ l.*1
}.

(** An invariant of every store the calls build: [P] of the pool pointer and
    a non-null node pointer, [Q] of a size. *)
Definition ptr_inv (P : Z -> Z -> Prop) (b p : Z) : Prop := p = 0 \/ P b p.

Definition nodes_ok (P : Z -> Z -> Prop) (Q : Z -> Prop) (b : Z)
    (m : gmap Z memory_node) : Prop :=
  forall a n, m !! a = Some n -> Q (size n) /\ ptr_inv P b (next n).

Record store_inv (P : Z -> Z -> Prop) (Q : Z -> Prop) (st : arena) : Prop := {
  inv_pool : 0 < pool_addr st;
  inv_first : ptr_inv P (pool_addr st) (first (header st));
  inv_nodes : nodes_ok P Q (pool_addr st) (nodes st)
}.

(** What a call of [pool_alloc] that returns [q] has done: nothing when [q]
    is [NULL]; otherwise [q] lies one header after a node pointer. *)
Definition alloc_post (P : Z -> Z -> Prop) (Q : Z -> Prop)
    (st : arena) (q : Z) (st' : arena) : Prop :=
  store_inv P Q st' /\ pool_addr st' = pool_addr st /\
  ((q = 0 /\ st' = st) \/ exists a, q = a + hn /\ P (pool_addr st) a).

(** Pointers are positive and sizes are not negative. *)
Definition positive_ptr (b a : Z) : Prop := 0 < a.
Definition nonneg_size (sz : Z) : Prop := 0 <= sz.

End Allocator.

(** ** Sample pools, on [LP64] with [malloc] returning [4096] *)

(** [create_memory_pool (150)]. *)
Definition pool_empty : arena :=
  Arena 4096 (Block 0 4246 150 0 0) ∅.

(** ... after [pool_alloc (pool, 12)]. *)
Definition pool_one : arena :=
  Arena 4096 (Block 4136 4246 150 56 1) (<[4136 := Node 16 true 0 0 4096]> ∅).

(** [create_memory_pool (200)] and [create_memory_pool (1000)]. *)
Definition pool_200 : arena := Arena 4096 (Block 0 4296 200 0 0) ∅.
Definition pool_1000 : arena := Arena 4096 (Block 0 5096 1000 0 0) ∅.

(** What [pool_alloc (pool, 8)] and then [pool_alloc (pool, (size_t) -40)]
    make of the empty pool of 150 bytes: one header, linked to itself. *)
Definition pool_cyclic : arena :=
  Arena 4096 (Block 4136 4246 150 48 2)
        (<[4136 := Node (2 ^ 64 - 40) true 4136 4136 4096]> ∅).

(** A pool of 200 bytes with two records of 8 bytes and a hole of 48 bytes
    between them, left by a third one that was freed. *)
Definition pool_holed : arena :=
  Arena 4096 (Block 4136 4296 200 96 2)
        (<[4136 := Node 8 true 0 4232 4096]>
           (<[4184 := Node 8 false 4136 4232 4096]>
              (<[4232 := Node 8 true 4136 0 4096]> ∅))).


(** ** The functions over the bytes of the region *)

Module Bytes.

(** The bytes of the region that [malloc] returned, by address.  An address
    outside the region holds no byte. *)
Abbreviation memory := (gmap Z Z).

Inductive result (A : Type) : Type :=
| Done (v : A) (m : memory)   (* the call returns [v] and leaves [m] *)
| Aborted                     (* an [assert] fails *)
| Undefined                   (* access outside the region *)
| Looping.                    (* the loop never exits *)
Arguments Done {A} v m.
Arguments Aborted {A}.
Arguments Undefined {A}.
Arguments Looping {A}.

(** [n] bytes at [a], least significant first. *)
Fixpoint load_bytes (n : nat) (m : memory) (a : Z) : option Z :=
  match n with
  | O => Some 0
  | S n' =>
    match m !! a, load_bytes n' m (a + 1) with
    | Some b, Some v => Some (b + 256 * v)
    | _, _ => None
    end
  end.

Fixpoint store_bytes (n : nat) (m : memory) (a v : Z) : option memory :=
  match n with
  | O => Some m
  | S n' =>
    match m !! a with
    | Some _ => store_bytes n' (<[a := v mod 256]> m) (a + 1) (v / 256)
    | None => None
    end
  end.

(** C statements: a function of the memory. *)
Definition M (A : Type) : Type := memory -> result A.

#[global] Instance M_ret : MRet M := fun A v m => Done v m.
#[global] Instance M_bind : MBind M := fun A B f c m =>
  match c m with
  | Done v m' => f v m'
  | Aborted => Aborted
  | Undefined => Undefined
  | Looping => Looping
  end.

Definition read (n : nat) (a : Z) : M Z := fun m =>
  match load_bytes n m a with
  | Some v => Done v m
  | None => Undefined
  end.

Definition write (n : nat) (a v : Z) : M unit := fun m =>
  match store_bytes n m a v with
  | Some m' => Done tt m'
  | None => Undefined
  end.

Definition assert (b : bool) : M unit := fun m =>
  if b then Done tt m else Aborted.

(** What a call returned, if it did, and the memory it left. *)
Definition returned {A} (r : result A) : option A :=
  match r with
  | Done v _ => Some v
  | _ => None
  end.

Definition memory_of {A} (r : result A) : memory :=
  match r with
  | Done _ m => m
  | _ => ∅
  end.

Section Functions.

Context (T : target).

Abbreviation hb := (sizeof_memory_block T).
Abbreviation hn := (sizeof_memory_node T).

(** A [size_t] and a pointer take [word] bytes; the fields of both structures
    lie one word apart, in the order of their declaration; the [bool] takes
    the first byte of its word. *)
Definition word : nat := Z.to_nat (size_bits T / 8).

Definition field (p k : Z) : Z := wrap T (p + k * Z.of_nat word).

Definition pool_first (p : Z) : Z := field p 0.
Definition pool_upper_limit (p : Z) : Z := field p 1.
Definition pool_total_size (p : Z) : Z := field p 2.
Definition pool_used_memory (p : Z) : Z := field p 3.
Definition pool_num_allocations (p : Z) : Z := field p 4.

Definition node_size (p : Z) : Z := field p 0.
Definition node_is_used (p : Z) : Z := field p 1.
Definition node_prev (p : Z) : Z := field p 2.
Definition node_next (p : Z) : Z := field p 3.
Definition node_pool (p : Z) : Z := field p 4.

Definition read_word : Z -> M Z := read word.
Definition write_word : Z -> Z -> M unit := write word.
Definition read_bool (a : Z) : M bool := b ← read 1 a; mret (negb (b =? 0)).
Definition write_bool (a : Z) (b : bool) : M unit :=
  write 1 a (if b then 1 else 0).

(** [memset (a, c, n)]. *)
Fixpoint memset (n : nat) (a c : Z) : M unit :=
  match n with
  | O => mret tt
  | S n' => write 1 a c;; memset n' (wrap T (a + 1)) c
  end.

(** The region of [size] bytes at [p], as [malloc] leaves it: the byte at
    [a] is [junk a], whatever that is. *)
Definition malloc (junk : Z -> Z) (p size : Z) : memory :=
  list_to_map ((fun a => (a, junk a)) <$> seqZ p size).

(** [p] is the pointer that [malloc] returns, [0] when it fails; before the
    call there is no region. *)
Definition create_memory_pool (junk : Z -> Z) (p size : Z) : result Z :=
  if size <? MIN_BLOCK_SIZE T then Done 0 ∅
  else if p =? 0 then Done 0 ∅
  else
    (write_word (pool_first p) 0;;
     write_word (pool_upper_limit p) (wrap T (p + size));;
     write_word (pool_total_size p) size;;
     write_word (pool_used_memory p) 0;;
     write_word (pool_num_allocations p) 0;;
     memset (Z.to_nat (wrap T (size - hb))) (wrap T (p + hb)) 204;;
     mret p) (malloc junk p size).

(** [pool->used_memory += aligned_size + sizeof (struct memory_node);
    pool->num_allocations++;] *)
Definition charge (pool aligned_size : Z) : M unit :=
  used ← read_word (pool_used_memory pool);
  write_word (pool_used_memory pool) (wrap T (used + wrap T (aligned_size + hn)));;
  count ← read_word (pool_num_allocations pool);
  write_word (pool_num_allocations pool) (wrap T (count + 1)).

(** The [while (current)] loop of [pool_alloc]; every [current->next] of the
    source is a read of its own. *)
Fixpoint scan_gaps (fuel : nat) (pool aligned_size current : Z) : M Z :=
  match fuel with
  | O => fun _ => Looping
  | S fuel' =>
    if current =? 0 then mret 0
    else
      sz ← read_word (node_size current);
      let current_end := wrap T (current + hn + sz) in
      nx ← read_word (node_next current);
      gap_size ←
        (if nx =? 0
         then upper ← read_word (pool_upper_limit pool);
              mret (wrap T (upper - current_end))
         else nx ← read_word (node_next current);
              mret (wrap T (nx - current_end)));
      if wrap T (aligned_size + hn) <=? gap_size then
        let node := current_end in
        write_word (node_size node) aligned_size;;
        write_bool (node_is_used node) true;;
        write_word (node_prev node) current;;
        nx ← read_word (node_next current);
        write_word (node_next node) nx;;
        write_word (node_pool node) pool;;
        nx ← read_word (node_next current);
        (if nx =? 0 then mret tt
         else nx ← read_word (node_next current);
              write_word (node_prev nx) node);;
        write_word (node_next current) node;;
        charge pool aligned_size;;
        mret (wrap T (node + hn))
      else
        nx ← read_word (node_next current);
        scan_gaps fuel' pool aligned_size nx
  end.

(** A walk that has not ended after one step for each byte of the region
    has been at some header twice, and goes on for ever. *)
Definition walk (pool aligned_size current : Z) : M Z := fun m =>
  scan_gaps (S (stdpp.base.size m)) pool aligned_size current m.

Definition pool_alloc (pool size : Z) : M Z :=
  assert (negb (pool =? 0));;
  let aligned_size := align_size T size in
  if aligned_size =? 0 then mret 0
  else
    total ← read_word (pool_total_size pool);
    used ← read_word (pool_used_memory pool);
    if wrap T (total - used) <? wrap T (aligned_size + hn) then mret 0
    else
      let pool_start := wrap T (pool + hb) in
      fst ← read_word (pool_first pool);
      if fst =? 0 then
        let node := pool_start in
        write_word (node_size node) aligned_size;;
        write_bool (node_is_used node) true;;
        write_word (node_prev node) 0;;
        write_word (node_next node) 0;;
        write_word (node_pool node) pool;;
        write_word (pool_first pool) node;;
        charge pool aligned_size;;
        mret (wrap T (node + hn))
      else
        fst ← read_word (pool_first pool);
        let initial_gap := wrap T (fst - pool_start) in
        if wrap T (aligned_size + hn) <=? initial_gap then
          let node := pool_start in
          write_word (node_size node) aligned_size;;
          write_bool (node_is_used node) true;;
          write_word (node_prev node) 0;;
          fst ← read_word (pool_first pool);
          write_word (node_next node) fst;;
          write_word (node_pool node) pool;;
          fst ← read_word (pool_first pool);
          write_word (node_prev fst) node;;
          write_word (pool_first pool) node;;
          charge pool aligned_size;;
          mret (wrap T (node + hn))
        else
          current ← read_word (pool_first pool);
          walk pool aligned_size current.

Definition pool_free (ptr : Z) : M unit :=
  if ptr =? 0 then mret tt
  else
    let node := wrap T (ptr - hn) in
    used ← read_bool (node_is_used node);
    assert used;;
    (* update pool statistics *)
    pl ← read_word (node_pool node);
    used ← read_word (pool_used_memory pl);
    sz ← read_word (node_size node);
    write_word (pool_used_memory pl) (wrap T (used - wrap T (sz + hn)));;
    pl ← read_word (node_pool node);
    count ← read_word (pool_num_allocations pl);
    write_word (pool_num_allocations pl) (wrap T (count - 1));;
    (* mark as free *)
    write_bool (node_is_used node) false;;
    (* update linked list *)
    pv ← read_word (node_prev node);
    (if negb (pv =? 0) then
       pv ← read_word (node_prev node);
       nx ← read_word (node_next node);
       write_word (node_next pv) nx
     else
       pl ← read_word (node_pool node);
       nx ← read_word (node_next node);
       write_word (pool_first pl) nx);;
    nx ← read_word (node_next node);
    if negb (nx =? 0) then
      nx ← read_word (node_next node);
      pv ← read_word (node_prev node);
      write_word (node_prev nx) pv
    else mret tt.

(** [get_pool_stats], with the three out-pointers given. *)
Definition get_pool_stats (pool : Z) : M (Z * Z * Z) :=
  assert (negb (pool =? 0));;
  total ← read_word (pool_total_size pool);
  used ← read_word (pool_used_memory pool);
  count ← read_word (pool_num_allocations pool);
  mret (total, used, count).

(** *** What the bytes hold *)

(** The two structures have no padding but the one after the [bool]. *)
Definition natural_layout : Prop :=
  size_bits T = 8 * Z.of_nat word /\
  hb = 5 * Z.of_nat word /\ hn = 5 * Z.of_nat word.

(** The pool header [b] is stored at [p]; the node header [n] at [a]. *)
Definition block_at (m : memory) (p : Z) (b : memory_block) : Prop :=
  load_bytes word m (pool_first p) = Some (first b) /\
  load_bytes word m (pool_upper_limit p) = Some (upper_limit b) /\
  load_bytes word m (pool_total_size p) = Some (total_size b) /\
  load_bytes word m (pool_used_memory p) = Some (used_memory b) /\
  load_bytes word m (pool_num_allocations p) = Some (num_allocations b).

Definition node_at (m : memory) (a : Z) (n : memory_node) : Prop :=
  load_bytes word m (node_size a) = Some (size n) /\
  load_bytes 1 m (node_is_used a) = Some (if is_used n then 1 else 0) /\
  load_bytes word m (node_prev a) = Some (prev n) /\
  load_bytes word m (node_next a) = Some (next n) /\
  load_bytes word m (node_pool a) = Some (pool n).

(** The region of the pool at [p] is in [m], with the pool header [b] at
    its start and, at each address of [L], the header that [M] has there. *)
Record stored (m : memory) (p : Z) (b : memory_block)
    (M : gmap Z memory_node) (L : list Z) : Prop := {
  stored_region :
    Forall (fun a => is_Some (m !! a)) (seqZ p (total_size b));
  stored_block : block_at m p b;
  stored_nodes :
    Forall (fun a => exists n, M !! a = Some n /\ node_at m a n) L
}.

(** [m] holds the pool [st], whose live records are [l]. *)
Definition holds (m : memory) (st : arena) (l : list (Z * Z)) : Prop :=
  stored m (pool_addr st) (header st) (nodes st) l.*1.

End Functions.

End Bytes.

(** ** Sample memories and programs, on [LP64] with [malloc] returning
    [4096] *)

(** The bytes after [create_memory_pool (150)] and after
    [create_memory_pool (1000)]; [malloc] left zeros. *)
Definition bytes_empty : gmap Z Z :=
  Bytes.memory_of (Bytes.create_memory_pool LP64 (fun _ => 0) 4096 150).
Definition bytes_1000 : gmap Z Z :=
  Bytes.memory_of (Bytes.create_memory_pool LP64 (fun _ => 0) 4096 1000).

(** ... and after [pool_alloc (pool, 12)]. *)
Definition bytes_one : gmap Z Z :=
  Bytes.memory_of (Bytes.pool_alloc LP64 4096 12 bytes_empty).

(** A program that frees two blocks and allocates two smaller ones in
    their place, and the pointers it gets. *)
Definition reuse_program (pool : Z) : Bytes.M (list Z) :=
  a ← Bytes.pool_alloc LP64 pool 16;
  b ← Bytes.pool_alloc LP64 pool 8;
  Bytes.pool_free LP64 a;;
  Bytes.pool_free LP64 b;;
  c ← Bytes.pool_alloc LP64 pool 8;
  d ← Bytes.pool_alloc LP64 pool 8;
  mret [a; b; c; d].

Definition bytes_reused : gmap Z Z :=
  Bytes.memory_of (reuse_program 4096 bytes_empty).

(** A program with two requests whose aligned size plus header wraps, and
    the pointers it gets. *)
Definition wrapping_program (pool : Z) : Bytes.M (list Z) :=
  p1 ← Bytes.pool_alloc LP64 pool (2 ^ 64 - 32);
  p2 ← Bytes.pool_alloc LP64 pool 48;
  p3 ← Bytes.pool_alloc LP64 pool (2 ^ 64 - 9);
  p4 ← Bytes.pool_alloc LP64 pool 32;
  Bytes.pool_free LP64 p1;;
  p5 ← Bytes.pool_alloc LP64 pool 100;
  mret [p1; p2; p3; p4; p5].


(** * Properties *)

Section Arithmetic.

Context (T : target) (HT : target_ok T).

Abbreviation w := (size_bits T).
Abbreviation hn := (sizeof_memory_node T).
Abbreviation hb := (sizeof_memory_block T).

Lemma word_pos : 256 <= 2 ^ w.
Proof.
  destruct HT as [Hb _ _ _ _].
  change 256 with (2 ^ 8). apply Z.pow_le_mono_r; lia.
Qed.

Lemma wrap_small x : 0 <= x < 2 ^ w -> wrap T x = x.
Proof. intros H. unfold wrap. apply Z.mod_small. exact H. Qed.

Lemma wrap_range x : 0 <= wrap T x < 2 ^ w.
Proof. unfold wrap. apply Z.mod_pos_bound. pose proof word_pos. lia. Qed.

(** The mask clears the three low bits of a [size_t]. *)
Lemma land_mask x :
  0 <= x < 2 ^ w -> Z.land x (wrap T (Z.lnot 7)) = 8 * (x / 8).
Proof.
  intros Hx. destruct HT as [Hb _ _ _ _].
  apply Z.bits_inj'. intros n Hn.
  rewrite Z.land_spec. unfold wrap.
  replace (8 * (x / 8)) with (Z.shiftl (Z.shiftr x 3) 3)
    by (rewrite Z.shiftl_mul_pow2, Z.shiftr_div_pow2 by lia;
        change (2 ^ 3) with 8; lia).
  rewrite Z.shiftl_spec by lia.
  destruct (Z.lt_ge_cases n w) as [Hlt | Hge].
  - rewrite Z.mod_pow2_bits_low by lia.
    rewrite Z.lnot_spec by lia.
    change 7 with (Z.ones 3).
    destruct (Z.lt_ge_cases n 3) as [H3 | H3].
    + rewrite Z.ones_spec_low by lia.
      rewrite (Z.testbit_neg_r _ (n - 3)) by lia. apply andb_false_r.
    + rewrite Z.ones_spec_high by lia.
      rewrite Z.shiftr_spec by lia.
      replace (n - 3 + 3) with n by lia. apply andb_true_r.
  - rewrite Z.mod_pow2_bits_high by lia. rewrite andb_false_r.
    destruct (Z.lt_ge_cases n 3) as [H3 | H3]; [lia |].
    rewrite Z.shiftr_spec by lia.
    replace (n - 3 + 3) with n by lia.
    rewrite <- (Z.mod_small x (2 ^ w)) by lia.
    rewrite Z.mod_pow2_bits_high by lia. reflexivity.
Qed.

Lemma align_size_eq sz :
  align_size T sz = 8 * (wrap T (sz + 7) / 8).
Proof.
  unfold align_size, MIN_ALIGNMENT. change (8 - 1) with 7.
  apply land_mask, wrap_range.
Qed.

Lemma align_size_range sz : 0 <= align_size T sz < 2 ^ w.
Proof.
  rewrite align_size_eq. pose proof (wrap_range (sz + 7)) as H.
  pose proof (Z.mul_div_le (wrap T (sz + 7)) 8 ltac:(lia)). split; [|lia].
  apply Z.mul_nonneg_nonneg; [lia|]. apply Z.div_pos; lia.
Qed.

Lemma align_size_divide sz : (8 | align_size T sz).
Proof. rewrite align_size_eq. apply Z.divide_factor_l. Qed.

Lemma align_size_bounds sz :
  0 <= sz -> sz + 7 < 2 ^ w -> sz <= align_size T sz < sz + 8.
Proof.
  intros H0 H1. rewrite align_size_eq, wrap_small by lia.
  pose proof (Z.mul_div_le (sz + 7) 8 ltac:(lia)).
  pose proof (Z.mul_succ_div_gt (sz + 7) 8 ltac:(lia)). lia.
Qed.

Lemma align_size_zero : align_size T 0 = 0.
Proof.
  pose proof word_pos. rewrite align_size_eq, wrap_small by lia.
  reflexivity.
Qed.

End Arithmetic.

(** ** Linked segments in the store *)

Section Segments.

Context (T : target).

Implicit Types (m : gmap Z memory_node) (l : list (Z * Z)).

Lemma dllseg_frame m m' pl l : forall pv p nx,
  (forall a, a ∈ l.*1 -> m' !! a = m !! a) ->
  dllseg m pl pv p l nx -> dllseg m' pl pv p l nx.
Proof.
  induction l as [|r l IH]; intros pv p nx Hfr; simpl; [tauto|].
  intros (-> & Hnz & n' & Hlk & Hrest).
  split; [reflexivity|]. split; [exact Hnz|].
  exists n'. split.
  - rewrite Hfr; [exact Hlk|]. simpl. apply list_elem_of_here.
  - apply IH; [|exact Hrest].
    intros a Ha. apply Hfr. simpl. apply list_elem_of_further, Ha.
Qed.

Lemma dllseg_head m pl l : forall pv p nx,
  dllseg m pl pv p l nx -> p = head_addr l nx.
Proof. destruct l; simpl; intros; tauto. Qed.

Lemma dllseg_app m pl l1 l2 : forall pv p nx,
  dllseg m pl pv p (l1 ++ l2) nx <->
  dllseg m pl pv p l1 (head_addr l2 nx) /\
  dllseg m pl (last_addr pv l1) (head_addr l2 nx) l2 nx.
Proof.
  induction l1 as [|r l1 IH]; intros pv p nx; simpl.
  - split.
    + intros H. pose proof (dllseg_head _ _ _ _ _ _ H) as ->. tauto.
    + intros [-> H]. exact H.
  - split.
    + intros (-> & Hnz & n' & Hlk & Hrest).
      apply IH in Hrest as [H1 H2].
      split; [|exact H2]. repeat split; try assumption. eauto.
    + intros ((-> & Hnz & n' & Hlk & H1) & H2).
      repeat split; try assumption. exists n'. split; [exact Hlk|].
      apply IH. tauto.
Qed.

(** What the store holds for a record in the middle of a segment. *)
Lemma dllseg_lookup m pl l1 r l2 pv p nx :
  dllseg m pl pv p (l1 ++ r :: l2) nx ->
  fst r <> 0 /\
  m !! fst r = Some (Node (snd r) true (last_addr pv l1) (head_addr l2 nx) pl).
Proof.
  intros H. apply dllseg_app in H as [_ H]. simpl in H.
  destruct H as (_ & Hnz & n' & Hlk & Hrest).
  apply dllseg_head in Hrest. subst n'. tauto.
Qed.

End Segments.

(** ** Records in address order, gaps, first fit *)

Section Layout.

Context (T : target) (HT : target_ok T).

Abbreviation hn := (sizeof_memory_node T).

Implicit Types (l : list (Z * Z)) (r : Z * Z).

Lemma node_size_pos : 0 < hn.
Proof. destruct HT; assumption. Qed.

Lemma end_of_gt r : 0 < snd r -> fst r < end_of T r.
Proof. pose proof node_size_pos. unfold end_of. lia. Qed.

Lemma chain_le l : forall lo hi, chain T lo l hi -> lo <= hi.
Proof.
  induction l as [|r l IH]; simpl; intros lo hi H; [exact H|].
  destruct H as (H1 & H2 & _ & H3). apply IH in H3.
  pose proof (end_of_gt r H2). lia.
Qed.

Lemma chain_weaken l lo lo' hi :
  lo' <= lo -> chain T lo l hi -> chain T lo' l hi.
Proof. destruct l; simpl; intros; [lia|]. intuition lia. Qed.

Lemma chain_lb l : forall lo hi,
  chain T lo l hi -> forall a, a ∈ l.*1 -> lo <= a.
Proof.
  induction l as [|r l IH]; simpl; intros lo hi H a Ha.
  - inversion Ha.
  - destruct H as (H1 & H2 & _ & H3).
    apply elem_of_cons in Ha as [-> | Ha]; [exact H1|].
    pose proof (IH _ _ H3 a Ha). pose proof (end_of_gt r H2). lia.
Qed.

Lemma chain_NoDup l : forall lo hi, chain T lo l hi -> NoDup l.*1.
Proof.
  induction l as [|r l IH]; simpl; intros lo hi H; [constructor|].
  destruct H as (H1 & H2 & _ & H3).
  apply NoDup_cons. split; [|eapply IH; eassumption].
  intros Hin. pose proof (chain_lb _ _ _ H3 _ Hin).
  pose proof (end_of_gt r H2). lia.
Qed.

Lemma chain_app l1 l2 : forall lo hi,
  chain T lo (l1 ++ l2) hi <->
  chain T lo l1 (last_end T lo l1) /\ chain T (last_end T lo l1) l2 hi.
Proof.
  induction l1 as [|r l1 IH]; simpl; intros lo hi.
  - split; [intros H; split; [lia|exact H] | tauto].
  - rewrite IH. tauto.
Qed.

Lemma chain_footprints l : forall lo hi,
  chain T lo l hi -> lo + footprints T l <= hi.
Proof.
  induction l as [|r l IH]; simpl; intros lo hi H; [lia|].
  destruct H as (H1 & H2 & _ & H3). apply IH in H3.
  unfold end_of in H3. lia.
Qed.

Lemma footprints_app l1 l2 :
  footprints T (l1 ++ l2) = footprints T l1 + footprints T l2.
Proof. induction l1 as [|r l1 IH]; simpl; [reflexivity|]. rewrite IH. lia. Qed.

Lemma footprints_nonneg l lo hi : chain T lo l hi -> 0 <= footprints T l.
Proof.
  revert lo. induction l as [|r l IH]; simpl; intros lo H; [lia|].
  destruct H as (H1 & H2 & _ & H3). apply IH in H3.
  pose proof node_size_pos. lia.
Qed.

(** *** Gaps *)

Lemma gaps_lb l : forall lo hi g,
  chain T lo l hi -> g ∈ gaps T lo l hi -> lo <= fst g /\ 0 <= snd g.
Proof.
  induction l as [|r l IH]; simpl; intros lo hi g H Hg.
  - apply list_elem_of_singleton in Hg as ->. simpl. lia.
  - destruct H as (H1 & H2 & _ & H3).
    apply elem_of_cons in Hg as [-> | Hg]; [simpl; lia|].
    destruct (IH _ _ _ H3 Hg). pose proof (end_of_gt r H2). lia.
Qed.

(** *** First fit *)

Lemma place_lb l : forall lo hi need sz q l',
  chain T lo l hi -> place T lo l hi need sz = Some (q, l') -> lo <= q.
Proof.
  induction l as [|r l IH]; simpl; intros lo hi need sz q l' H Hp.
  - destruct (need <=? hi - lo); inversion Hp; lia.
  - destruct H as (H1 & H2 & _ & H3).
    destruct (need <=? fst r - lo); [inversion Hp; lia|].
    destruct (place T (end_of T r) l hi need sz) as [[q0 l0]|] eqn:E;
      inversion Hp; subst.
    apply IH in E; [|exact H3]. pose proof (end_of_gt r H2). lia.
Qed.

Lemma place_chain l : forall lo hi sz q l',
  0 < sz -> (8 | sz) -> chain T lo l hi ->
  place T lo l hi (sz + hn) sz = Some (q, l') -> chain T lo l' hi.
Proof.
  induction l as [|r l IH]; simpl; intros lo hi sz q l' Hsz Hdiv H Hp.
  - destruct (Z.leb_spec (sz + hn) (hi - lo)); inversion Hp; subst.
    simpl. unfold end_of. simpl. repeat split; try assumption; lia.
  - destruct H as (H1 & H2 & H2' & H3).
    destruct (Z.leb_spec (sz + hn) (fst r - lo)).
    + inversion Hp; subst. simpl. unfold end_of at 1. simpl.
      repeat split; try assumption; lia.
    + destruct (place T (end_of T r) l hi (sz + hn) sz) as [[q0 l0]|] eqn:E;
        inversion Hp; subst.
      simpl. repeat split; try assumption.
      eapply (IH _ _ sz); eassumption.
Qed.

Lemma place_footprints l : forall lo hi need sz q l',
  place T lo l hi need sz = Some (q, l') ->
  footprints T l' = footprints T l + (sz + hn) /\
  length l' = S (length l).
Proof.
  induction l as [|r l IH]; simpl; intros lo hi need sz q l' Hp.
  - destruct (need <=? hi - lo); inversion Hp; subst. simpl. lia.
  - destruct (need <=? fst r - lo).
    + inversion Hp; subst. simpl. lia.
    + destruct (place T (end_of T r) l hi need sz) as [[q0 l0]|] eqn:E;
        inversion Hp; subst.
      apply IH in E as [E1 E2]. simpl. lia.
Qed.

Lemma place_addrs l : forall lo hi need sz q l' a,
  place T lo l hi need sz = Some (q, l') ->
  a ∈ l'.*1 <-> a = q \/ a ∈ l.*1.
Proof.
  induction l as [|r l IH]; simpl; intros lo hi need sz q l' a Hp.
  - destruct (need <=? hi - lo); inversion Hp; subst. simpl.
    rewrite elem_of_cons. tauto.
  - destruct (need <=? fst r - lo).
    + inversion Hp; subst. simpl. rewrite !elem_of_cons. tauto.
    + destruct (place T (end_of T r) l hi need sz) as [[q0 l0]|] eqn:E;
        inversion Hp; subst.
      simpl. rewrite !elem_of_cons, (IH _ _ _ _ _ _ a E). tauto.
Qed.

Lemma place_record l : forall lo hi need sz q l',
  place T lo l hi need sz = Some (q, l') -> (q, sz) ∈ l'.
Proof.
  induction l as [|r l IH]; simpl; intros lo hi need sz q l' Hp.
  - destruct (need <=? hi - lo); inversion Hp; subst. apply list_elem_of_here.
  - destruct (need <=? fst r - lo).
    + inversion Hp; subst. apply list_elem_of_here.
    + destruct (place T (end_of T r) l hi need sz) as [[q0 l0]|] eqn:E;
        inversion Hp; subst.
      apply list_elem_of_further. eapply IH; eassumption.
Qed.

(** [place] answers with the lowest gap that is large enough. *)
Lemma place_first_fit l : forall lo hi need sz q l',
  chain T lo l hi -> place T lo l hi need sz = Some (q, l') ->
  (exists g, (q, g) ∈ gaps T lo l hi /\ need <= g) /\
  (forall g', g' ∈ gaps T lo l hi -> need <= snd g' -> q <= fst g').
Proof.
  induction l as [|r l IH]; simpl; intros lo hi need sz q l' H Hp.
  - destruct (Z.leb_spec need (hi - lo)); inversion Hp; subst. split.
    + exists (hi - q). split; [apply list_elem_of_here | assumption].
    + intros g' Hg _. apply list_elem_of_singleton in Hg as ->. simpl. lia.
  - destruct H as (H1 & H2 & _ & H3).
    destruct (Z.leb_spec need (fst r - lo)).
    + inversion Hp; subst. split.
      * exists (fst r - q). split; [apply list_elem_of_here | assumption].
      * intros g' Hg _. apply elem_of_cons in Hg as [-> | Hg]; [simpl; lia|].
        destruct (gaps_lb _ _ _ _ H3 Hg). pose proof (end_of_gt r H2). lia.
    + destruct (place T (end_of T r) l hi need sz) as [[q0 l0]|] eqn:E;
        inversion Hp; subst.
      destruct (IH _ _ _ _ _ _ H3 E) as [(g & Hg & Hn) Hmin]. split.
      * exists g. split; [apply list_elem_of_further, Hg | exact Hn].
      * intros g' Hg' Hn'. apply elem_of_cons in Hg' as [-> | Hg'].
        -- simpl in Hn'. lia.
        -- apply Hmin; assumption.
Qed.

Lemma place_none l : forall lo hi need sz,
  place T lo l hi need sz = None <->
  forall g, g ∈ gaps T lo l hi -> snd g < need.
Proof.
  induction l as [|r l IH]; simpl; intros lo hi need sz.
  - destruct (Z.leb_spec need (hi - lo)); split; try discriminate.
    + intros H'. specialize (H' _ (list_elem_of_here _ _)). simpl in H'. lia.
    + intros _ g Hg. apply list_elem_of_singleton in Hg as ->. simpl. lia.
    + reflexivity.
  - destruct (Z.leb_spec need (fst r - lo)); split; try discriminate.
    + intros H'. specialize (H' _ (list_elem_of_here _ _)). simpl in H'. lia.
    + destruct (place T (end_of T r) l hi need sz) as [[q0 l0]|] eqn:E;
        [discriminate|].
      intros _ g Hg. apply elem_of_cons in Hg as [-> | Hg]; [simpl; lia|].
      eapply IH; eassumption.
    + intros H'.
      destruct (place T (end_of T r) l hi need sz) as [[q0 l0]|] eqn:E;
        [|reflexivity].
      exfalso.
      assert (place T (end_of T r) l hi need sz = None) as E'.
      { apply IH. intros g Hg. apply H'. apply list_elem_of_further, Hg. }
      congruence.
Qed.

Lemma place_some l lo hi need sz g :
  g ∈ gaps T lo l hi -> need <= snd g ->
  exists q l', place T lo l hi need sz = Some (q, l').
Proof.
  intros Hg Hn.
  destruct (place T lo l hi need sz) as [[q l']|] eqn:E; [eauto|].
  exfalso. pose proof (proj1 (place_none _ _ _ _ _) E g Hg). lia.
Qed.

End Layout.

(** ** [pool_alloc] on a pool in good order *)

Section Alloc.

Context (T : target) (HT : target_ok T).

Abbreviation w := (size_bits T).
Abbreviation hn := (sizeof_memory_node T).
Abbreviation hb := (sizeof_memory_block T).

Implicit Types (m : gmap Z memory_node) (l : list (Z * Z)) (r : Z * Z).

Local Ltac lookups :=
  repeat first
    [ rewrite lookup_insert_eq
    | rewrite lookup_insert_ne by lia ].

Lemma gap_footprints l : forall lo hi g,
  chain T lo l hi -> g ∈ gaps T lo l hi ->
  snd g + footprints T l <= hi - lo.
Proof.
  induction l as [|r l IH]; simpl; intros lo hi g H Hg.
  - apply list_elem_of_singleton in Hg as ->. simpl. lia.
  - destruct H as (H1 & H2 & _ & H3).
    apply elem_of_cons in Hg as [-> | Hg].
    + apply (chain_footprints T) in H3. unfold end_of in H3. simpl. lia.
    + pose proof (IH _ _ _ H3 Hg) as IH'. unfold end_of in IH'. lia.
Qed.

Lemma length_footprints l lo hi :
  chain T lo l hi -> Z.of_nat (length l) <= footprints T l.
Proof.
  revert lo. induction l as [|r l IH]; simpl; intros lo H; [lia|].
  destruct H as (H1 & H2 & _ & H3). apply IH in H3.
  pose proof (node_size_pos T HT). lia.
Qed.

(** The loop visits no more headers than the store holds. *)
Lemma segment_length m pl l pv p nx :
  dllseg m pl pv p l nx -> NoDup l.*1 ->
  (length l <= stdpp.base.size m)%nat.
Proof.
  intros Hseg Hnd.
  rewrite <- (length_fmap fst l).
  rewrite <- (size_list_to_set (C := gset Z) (l.*1)) by exact Hnd.
  rewrite <- (size_dom (D := gset Z) m).
  apply subseteq_size. intros a Ha.
  apply elem_of_list_to_set in Ha. apply elem_of_dom.
  apply list_elem_of_fmap in Ha as (r & -> & Hr).
  apply list_elem_of_split in Hr as (l1 & l2 & ->).
  apply dllseg_lookup in Hseg as [_ Hlk]. rewrite Hlk. eauto.
Qed.

Lemma scan_gaps_place st sz :
  0 < sz -> sz + hn < 2 ^ w ->
  upper_limit (header st) < 2 ^ w ->
  forall l2 r pv fuel,
    0 < fst r ->
    dllseg (nodes st) (pool_addr st) pv (fst r) (r :: l2) 0 ->
    chain T (fst r) (r :: l2) (upper_limit (header st)) ->
    (length (r :: l2) < fuel)%nat ->
    match place T (end_of T r) l2 (upper_limit (header st)) (sz + hn) sz with
    | Some (q, l2') =>
      exists m',
        scan_gaps T fuel st sz (fst r)
        = Ret (q + hn)
              (Arena (pool_addr st)
                     (charge T (header st) sz (first (header st))) m') /\
        dllseg m' (pool_addr st) pv (fst r) (r :: l2') 0 /\
        (forall a, a <> q -> a ∉ (r :: l2).*1 -> m' !! a = nodes st !! a)
    | None => scan_gaps T fuel st sz (fst r) = Ret 0 st
    end.
Proof.
  intros Hsz0 Hneed Hhi.
  pose proof (node_size_pos T HT) as Hhn.
  induction l2 as [|r2 l3 IH]; intros r pv fuel Hpos Hseg Hch Hfuel.
  - destruct fuel as [|fuel]; [simpl in Hfuel; lia|].
    destruct fuel as [|fuel]; [simpl in Hfuel; lia|].
    simpl in Hseg. destruct Hseg as (_ & Hnz & n' & Hlk & ->).
    simpl in Hch. destruct Hch as (_ & Hsz & _ & Hend).
    unfold end_of in *.
    cbn [place scan_gaps].
    destruct (Z.eqb_spec (fst r) 0) as [|_]; [lia|].
    rewrite Hlk. cbn [size next]. rewrite Z.eqb_refl.
    rewrite !(wrap_small T) by lia.
    destruct (Z.leb_spec (sz + hn) (upper_limit (header st) - (fst r + hn + snd r)))
      as [Hfit | Hno].
    + unfold store. lookups. rewrite Hlk.
      eexists. split; [reflexivity|]. split.
      * cbn [dllseg fst snd]. split; [reflexivity|]. split; [lia|].
        eexists. split; [lookups; reflexivity|].
        split; [reflexivity|]. split; [lia|].
        eexists. split; [lookups; reflexivity | reflexivity].
      * intros a Ha Hnot. cbn in Hnot.
        apply not_elem_of_cons in Hnot as [Hne _].
        rewrite !lookup_insert_ne by congruence. reflexivity.
    + reflexivity.
  - destruct fuel as [|fuel]; [simpl in Hfuel; lia|].
    simpl in Hseg.
    destruct Hseg as (_ & Hnz & n' & Hlk & -> & Hnz2 & n'' & Hlk2 & Hrest).
    simpl in Hch.
    destruct Hch as (_ & Hsz & _ & Hgap & Hsz2 & Hdv2 & Hch3).
    assert (Hch2 : chain T (fst r2) (r2 :: l3) (upper_limit (header st)))
      by (simpl; repeat split; try assumption; lia).
    pose proof (chain_le T HT _ _ _ Hch2) as Hle.
    unfold end_of in Hgap.
    cbn [place scan_gaps].
    destruct (Z.eqb_spec (fst r) 0) as [|_]; [lia|].
    rewrite Hlk. cbn [size next].
    destruct (Z.eqb_spec (fst r2) 0) as [|_]; [lia|].
    rewrite !(wrap_small T) by lia.
    unfold end_of at 1 2 3.
    destruct (Z.leb_spec (sz + hn) (fst r2 - (fst r + hn + snd r)))
      as [Hfit | Hno].
    + unfold store. lookups. rewrite Hlk2. lookups. rewrite Hlk.
      eexists. split; [reflexivity|]. split.
      * cbn [dllseg fst snd]. split; [reflexivity|]. split; [lia|].
        eexists. split; [lookups; reflexivity|].
        split; [reflexivity|]. split; [lia|].
        eexists. split; [lookups; reflexivity|].
        split; [reflexivity|]. split; [lia|].
        eexists. split; [lookups; reflexivity|].
        eapply dllseg_frame; [|exact Hrest].
        intros a Ha. pose proof (chain_lb T HT _ _ _ Hch3 _ Ha) as Hlb.
        unfold end_of in Hlb. lookups. reflexivity.
      * intros a Ha Hnot. cbn in Hnot.
        apply not_elem_of_cons in Hnot as [Hne Hnot].
        apply not_elem_of_cons in Hnot as [Hne2 _].
        rewrite !lookup_insert_ne by congruence. reflexivity.
    + assert (Hf : (length (r2 :: l3) < fuel)%nat) by (simpl in *; lia).
      specialize (IH r2 (fst r) fuel ltac:(lia)
                     ltac:(simpl; eauto 10) Hch2 Hf).
      destruct (place T (end_of T r2) l3 (upper_limit (header st)) (sz + hn) sz)
        as [[q l3']|] eqn:E; [|exact IH].
      destruct IH as (m' & Hscan & Hseg' & Hframe).
      pose proof (place_lb T HT _ _ _ _ _ _ _ Hch3 E) as Hq.
      unfold end_of in Hq.
      exists m'. split; [exact Hscan|]. split.
      * cbn [dllseg]. split; [reflexivity|]. split; [lia|].
        exists (fst r2). split; [|exact Hseg'].
        rewrite Hframe; [exact Hlk | lia |].
        intros Hin. pose proof (chain_lb T HT _ _ _ Hch2 _ Hin). lia.
      * intros a Ha Hnot. apply Hframe; [exact Ha|].
        cbn in Hnot. apply not_elem_of_cons in Hnot as [_ Hnot]. exact Hnot.
Qed.

(** The state after a record has been linked in at the place first fit
    chose is in good order again. *)
Lemma wf_insert st l sz q l' m' fst' :
  pool_wf T st l -> 0 < sz -> (8 | sz) ->
  place T (pool_addr st + hb) l (upper_limit (header st)) (sz + hn) sz
    = Some (q, l') ->
  dllseg m' (pool_addr st) 0 fst' l' 0 ->
  (forall a, a <> q -> a ∉ l.*1 -> m' !! a = nodes st !! a) ->
  pool_wf T (Arena (pool_addr st) (charge T (header st) sz fst') m') l'.
Proof.
  intros [Hp Hup Hsp Hl Hc Hu Hcnt Hlive] Hsz Hdv Hpl Hseg Hfr.
  pose proof (node_size_pos T HT) as Hhn.
  pose proof (place_chain T _ _ _ _ _ _ Hsz Hdv Hc Hpl) as Hc'.
  pose proof (place_footprints T _ _ _ _ _ _ _ Hpl) as [Hf Hlen].
  pose proof (chain_footprints T _ _ _ Hc') as Hfp.
  pose proof (footprints_nonneg T HT _ _ _ Hc) as Hnn.
  pose proof (length_footprints _ _ _ Hc') as Hlf.
  destruct HT as [_ Hbpos _ _ _].
  constructor; cbn [pool_addr header nodes charge first upper_limit total_size
                    used_memory num_allocations]; try assumption.
  - rewrite Hu. rewrite (wrap_small T (sz + hn)) by lia.
    rewrite wrap_small by lia. lia.
  - rewrite Hcnt, wrap_small by lia. lia.
  - intros a n Ha Hused.
    apply (place_addrs T _ _ _ _ _ _ _ a Hpl).
    destruct (decide (a = q)) as [|Hne]; [left; assumption|].
    right. destruct (decide (a ∈ l.*1)) as [|Hnin]; [assumption|].
    rewrite (Hfr a Hne Hnin) in Ha. eapply Hlive; eassumption.
Qed.

(** [pool_alloc] on a pool in good order does what first fit over the gaps
    says. *)
Lemma pool_alloc_place st l s :
  pool_wf T st l ->
  align_size T s <> 0 ->
  match place T (pool_addr st + hb) l (upper_limit (header st))
              (align_size T s + hn) (align_size T s) with
  | Some (q, l') =>
    exists st', pool_alloc T st s = Ret (q + hn) st' /\ pool_wf T st' l' /\
                pool_addr st' = pool_addr st /\
                total_size (header st') = total_size (header st)
  | None =>
    l <> [] -> align_size T s + hn < 2 ^ w -> pool_alloc T st s = Ret 0 st
  end.
Proof.
  intros Hwf Hnz.
  pose proof (align_size_range T HT s) as Hrange.
  pose proof (align_size_divide T HT s) as Hdv.
  pose proof (node_size_pos T HT) as Hhn.
  set (sz := align_size T s) in *.
  assert (Hsz : 0 < sz) by lia.
  pose proof Hwf as [Hp Hup Hsp Hl Hc Hu Hcnt Hlive].
  pose proof (chain_footprints T _ _ _ Hc) as Hfp.
  pose proof (footprints_nonneg T HT _ _ _ Hc) as Hnn.
  pose proof (chain_NoDup T HT _ _ _ Hc) as Hnd.
  pose proof (segment_length _ _ _ _ _ _ Hl Hnd) as Hlen.
  assert (Hb : 0 < hb) by (destruct HT; assumption).
  destruct (place T (pool_addr st + hb) l (upper_limit (header st))
                  (sz + hn) sz) as [[q l']|] eqn:E.
  - destruct (place_first_fit T HT _ _ _ _ _ _ _ Hc E) as [(g & Hg & Hn) _].
    pose proof (gap_footprints _ _ _ _ Hc Hg) as Hgf. simpl in Hgf.
    unfold pool_alloc. fold sz.
    destruct (Z.eqb_spec (pool_addr st) 0) as [|_]; [lia|].
    destruct (Z.eqb_spec sz 0) as [|_]; [lia|].
    rewrite !(wrap_small T) by lia.
    destruct (Z.ltb_spec (total_size (header st) - used_memory (header st))
                         (sz + hn)) as [|_]; [lia|].
    destruct l as [|r l2].
    + simpl in Hl. rewrite Hl. rewrite Z.eqb_refl.
      pose proof E as E0. simpl in E.
      destruct (sz + hn <=? upper_limit (header st) - (pool_addr st + hb));
        inversion E; subst q l'.
      eexists. split; [reflexivity|]. split; [|split; reflexivity].
      eapply wf_insert; try eassumption.
      * cbn [dllseg fst snd]. split; [reflexivity|]. split; [lia|].
        eexists. split; [apply lookup_insert_eq | reflexivity].
      * intros a Ha _. apply lookup_insert_ne. congruence.
    + simpl in Hl. destruct Hl as (Hf & Hnz1 & n' & Hlk & Hrest).
      simpl in Hc. destruct Hc as (Hlo & Hsz1 & Hdv1 & Hc2).
      pose proof (chain_le T HT _ _ _ Hc2) as Hle.
      pose proof (end_of_gt T HT r Hsz1) as Hgt.
      rewrite Hf.
      destruct (Z.eqb_spec (fst r) 0) as [|_]; [lia|].
      rewrite (wrap_small T (fst r - _)) by lia.
      pose proof E as E0. simpl in E.
      destruct (Z.leb_spec (sz + hn) (fst r - (pool_addr st + hb)))
        as [Hfit | Hno].
      * inversion E; subst q l'.
        unfold store. rewrite lookup_insert_ne by lia. rewrite Hlk.
        eexists. split; [reflexivity|]. split; [|split; reflexivity].
        eapply wf_insert; try eassumption.
        -- cbn [dllseg fst snd]. split; [reflexivity|]. split; [lia|].
           eexists. split; [lookups; reflexivity|].
           split; [reflexivity|]. split; [lia|].
           eexists. split; [lookups; reflexivity|].
           eapply dllseg_frame; [|exact Hrest].
           intros a Ha. pose proof (chain_lb T HT _ _ _ Hc2 _ Ha).
           lookups. reflexivity.
        -- intros a Ha Hnot. cbn in Hnot.
           apply not_elem_of_cons in Hnot as [Hne _].
           rewrite !lookup_insert_ne by congruence. reflexivity.
      * pose proof (scan_gaps_place st sz Hsz ltac:(lia) ltac:(lia) l2 r 0
                      (S (stdpp.base.size (nodes st))) ltac:(lia)) as Hscan.
        specialize (Hscan ltac:(simpl; eauto 10)
                          ltac:(simpl; repeat split; try assumption; lia)
                          ltac:(simpl in *; lia)).
        destruct (place T (end_of T r) l2 (upper_limit (header st)) (sz + hn) sz)
          as [[q0 l0]|] eqn:E'; inversion E; subst q l'.
        destruct Hscan as (m' & Hscan & Hseg' & Hfr).
        rewrite Hscan.
        eexists. split; [reflexivity|]. split; [|split; reflexivity].
        eapply wf_insert; try eassumption.
        -- rewrite Hf. exact Hseg'.
  - intros Hne Hov.
    unfold pool_alloc. fold sz.
    destruct (Z.eqb_spec (pool_addr st) 0) as [|_]; [lia|].
    destruct (Z.eqb_spec sz 0) as [|_]; [lia|].
    destruct (wrap T (total_size (header st) - used_memory (header st))
                <? wrap T (sz + hn)); [reflexivity|].
    destruct l as [|r l2]; [congruence|].
    simpl in Hl. destruct Hl as (Hf & Hnz1 & n' & Hlk & Hrest).
    simpl in Hc. destruct Hc as (Hlo & Hsz1 & Hdv1 & Hc2).
    pose proof (chain_le T HT _ _ _ Hc2) as Hle.
    pose proof (end_of_gt T HT r Hsz1) as Hgt.
    rewrite Hf.
    destruct (Z.eqb_spec (fst r) 0) as [|_]; [lia|].
    rewrite !(wrap_small T) by lia.
    simpl in E.
    destruct (Z.leb_spec (sz + hn) (fst r - (pool_addr st + hb)));
      [discriminate|].
    pose proof (scan_gaps_place st sz Hsz ltac:(lia) ltac:(lia) l2 r 0
                  (S (stdpp.base.size (nodes st))) ltac:(lia)) as Hscan.
    specialize (Hscan ltac:(simpl; eauto 10)
                      ltac:(simpl; repeat split; try assumption; lia)
                      ltac:(simpl in *; lia)).
    destruct (place T (end_of T r) l2 (upper_limit (header st)) (sz + hn) sz)
      as [[q0 l0]|] eqn:E'; [discriminate|].
    exact Hscan.
Qed.

End Alloc.

(** ** [pool_free] on a pool in good order *)

Section Free.

Context (T : target) (HT : target_ok T).

Abbreviation w := (size_bits T).
Abbreviation hn := (sizeof_memory_node T).
Abbreviation hb := (sizeof_memory_block T).

Implicit Types (m : gmap Z memory_node) (l : list (Z * Z)) (r : Z * Z).

Lemma last_addr_app l1 l2 : forall pv,
  last_addr pv (l1 ++ l2) = last_addr (last_addr pv l1) l2.
Proof. induction l1 as [|r l1 IH]; simpl; intros pv; [reflexivity|apply IH]. Qed.

(** The header after the removed one gets a new [prev]. *)
Lemma relink_suffix m pl l2 pv pv' p :
  dllseg m pl pv p l2 0 -> NoDup l2.*1 ->
  exists m',
    (if head_addr l2 0 =? 0 then Some m
     else store (head_addr l2 0) (set_prev pv') m) = Some m' /\
    dllseg m' pl pv' (head_addr l2 0) l2 0 /\
    (forall a, a ∉ l2.*1 -> m' !! a = m !! a).
Proof.
  intros Hseg Hnd. destruct l2 as [|d l3]; simpl in *.
  - exists m. repeat split; reflexivity.
  - destruct Hseg as (_ & Hnz & n' & Hlk & Hrest).
    apply NoDup_cons in Hnd as [Hnin _].
    destruct (Z.eqb_spec (fst d) 0) as [|_]; [contradiction|].
    unfold store. rewrite Hlk. eexists. split; [reflexivity|]. split.
    + split; [reflexivity|]. split; [assumption|].
      exists n'. split; [apply lookup_insert_eq|].
      eapply dllseg_frame; [|exact Hrest].
      intros a Ha. apply lookup_insert_ne. intros <-. contradiction.
    + intros a Ha. apply not_elem_of_cons in Ha as [Hne _].
      apply lookup_insert_ne. congruence.
Qed.

(** The header before the removed one gets a new [next]; the list head
    does when there is none. *)
Lemma relink_prefix m pl l1 nx nx' p :
  dllseg m pl 0 p l1 nx -> NoDup l1.*1 ->
  exists p' m',
    (if last_addr 0 l1 =? 0 then Some (nx', m)
     else option_map (pair p) (store (last_addr 0 l1) (set_next nx') m))
      = Some (p', m') /\
    dllseg m' pl 0 p' l1 nx' /\
    (forall a, a ∉ l1.*1 -> m' !! a = m !! a).
Proof.
  intros Hseg Hnd. destruct l1 as [|b l1 _] using rev_ind.
  - simpl. exists nx', m. repeat split; reflexivity.
  - rewrite last_addr_app. simpl.
    pose proof (dllseg_lookup _ _ _ _ _ _ _ _ Hseg) as [Hnz Hlk].
    apply dllseg_app in Hseg as [Hpre _]. simpl in Hpre.
    rewrite fmap_app in Hnd. apply NoDup_app in Hnd as (_ & Hdisj & _).
    destruct (Z.eqb_spec (fst b) 0) as [|_]; [contradiction|].
    unfold store. rewrite Hlk. simpl.
    eexists _, _. split; [reflexivity|]. split.
    + apply dllseg_app. simpl. split.
      * eapply dllseg_frame; [|exact Hpre].
        intros a Ha. apply lookup_insert_ne. intros <-.
        apply (Hdisj _ Ha). simpl. apply list_elem_of_here.
      * split; [reflexivity|]. split; [assumption|].
        eexists. split; [apply lookup_insert_eq | reflexivity].
    + intros a Ha. rewrite fmap_app in Ha.
      apply not_elem_of_app in Ha as [_ Ha].
      apply not_elem_of_cons in Ha as [Hne _].
      apply lookup_insert_ne. congruence.
Qed.

Lemma unlink_spec m pl l1 r l2 p :
  dllseg m pl 0 p (l1 ++ r :: l2) 0 -> NoDup (l1 ++ r :: l2).*1 ->
  let n := Node (snd r) true (last_addr 0 l1) (head_addr l2 0) pl in
  exists p' m3,
    unlink (<[fst r := set_is_used false n]> m) p n = Some (p', m3) /\
    dllseg m3 pl 0 p' (l1 ++ l2) 0 /\
    m3 !! fst r = Some (set_is_used false n) /\
    (forall a, a ∉ (l1 ++ r :: l2).*1 -> m3 !! a = m !! a).
Proof.
  intros Hseg Hnd n.
  rewrite fmap_app, fmap_cons in Hnd.
  apply NoDup_app in Hnd as (Hnd1 & Hdisj & Hnd2).
  apply NoDup_cons in Hnd2 as [Hr2 Hnd2].
  assert (Hr1 : fst r ∉ l1.*1).
  { intros Hin. apply (Hdisj _ Hin). apply list_elem_of_here. }
  apply dllseg_app in Hseg as [Hpre Hsuf]. simpl in Hpre, Hsuf.
  destruct Hsuf as (_ & Hnz & n' & Hlk & Hsuf).
  set (m1 := <[fst r := set_is_used false n]> m).
  assert (Hpre1 : dllseg m1 pl 0 p l1 (fst r)).
  { eapply dllseg_frame; [|exact Hpre].
    intros a Ha. apply lookup_insert_ne. intros <-. contradiction. }
  assert (Hsuf1 : dllseg m1 pl (fst r) n' l2 0).
  { eapply dllseg_frame; [|exact Hsuf].
    intros a Ha. apply lookup_insert_ne. intros <-. contradiction. }
  destruct (relink_prefix _ _ _ _ (head_addr l2 0) _ Hpre1 Hnd1)
    as (p' & m2 & E2 & Hpre2 & Hfr2).
  assert (Hsuf2 : dllseg m2 pl (fst r) n' l2 0).
  { eapply dllseg_frame; [|exact Hsuf1].
    intros a Ha. apply Hfr2. intros Hin.
    apply (Hdisj _ Hin). apply list_elem_of_further, Ha. }
  destruct (relink_suffix _ _ _ _ (last_addr 0 l1) _ Hsuf2 Hnd2)
    as (m3 & E3 & Hsuf3 & Hfr3).
  exists p', m3. unfold unlink. cbn [prev next n].
  rewrite E2, E3. split; [reflexivity|]. split; [|split].
  - apply dllseg_app. split; [|exact Hsuf3].
    eapply dllseg_frame; [|exact Hpre2].
    intros a Ha. apply Hfr3. intros Hin.
    apply (Hdisj _ Ha). apply list_elem_of_further, Hin.
  - rewrite Hfr3 by assumption. rewrite Hfr2 by assumption.
    apply lookup_insert_eq.
  - intros a Ha. rewrite fmap_app, fmap_cons in Ha.
    apply not_elem_of_app in Ha as [Ha1 Ha].
    apply not_elem_of_cons in Ha as [Hne Ha2].
    rewrite Hfr3 by assumption. rewrite Hfr2 by assumption.
    apply lookup_insert_ne. congruence.
Qed.

(** Freeing a live record takes it out of the list and leaves the pool in good
    order. *)
Lemma pool_free_live st l1 r l2 :
  pool_wf T st (l1 ++ r :: l2) ->
  exists st',
    pool_free T st (fst r + hn) = Ret tt st' /\
    pool_wf T st' (l1 ++ l2) /\
    used_memory (header st') = used_memory (header st) - (snd r + hn) /\
    num_allocations (header st') = num_allocations (header st) - 1 /\
    pool_addr st' = pool_addr st /\
    total_size (header st') = total_size (header st) /\
    upper_limit (header st') = upper_limit (header st) /\
    exists n, nodes st' !! fst r = Some n /\ is_used n = false.
Proof.
  intros [Hp Hup Hsp Hl Hc Hu Hcnt Hlive].
  pose proof (node_size_pos T HT) as Hhn.
  assert (Hb : 0 < hb) by (destruct HT; assumption).
  pose proof (chain_NoDup T HT _ _ _ Hc) as Hnd.
  pose proof (chain_footprints T _ _ _ Hc) as Hfp.
  pose proof (length_footprints T HT _ _ _ Hc) as Hlf.
  pose proof Hc as Hc0.
  apply chain_app in Hc as [Hc1 Hc2].
  pose proof (chain_le T HT _ _ _ Hc1) as Hle1.
  pose proof (footprints_nonneg T HT _ _ _ Hc1) as Hn1.
  simpl in Hc2. destruct Hc2 as (Hlo & Hsz & Hdv & Hc2).
  pose proof (footprints_nonneg T HT _ _ _ Hc2) as Hn2.
  pose proof (end_of_gt T HT r Hsz) as Hgt.
  pose proof (dllseg_lookup _ _ _ _ _ _ _ _ Hl) as [Hnz Hlk].
  destruct (unlink_spec _ _ _ _ _ _ Hl Hnd) as (p' & m3 & E & Hseg3 & Hr & Hfr).
  rewrite footprints_app in Hu, Hfp. simpl in Hu, Hfp.
  rewrite length_app in Hcnt, Hlf. simpl in Hcnt, Hlf.
  rewrite footprints_app in Hlf. simpl in Hlf.
  unfold pool_free.
  destruct (Z.eqb_spec (fst r + hn) 0) as [|_]; [lia|].
  replace (fst r + hn - hn) with (fst r) by lia.
  rewrite Hlk. cbn [is_used negb pool size]. rewrite Z.eqb_refl. cbn [negb].
  rewrite E.
  rewrite (wrap_small T (snd r + hn)) by lia.
  rewrite !(wrap_small T) by lia.
  eexists. split; [reflexivity|].
  cbn [pool_addr header nodes first upper_limit total_size used_memory
       num_allocations].
  split; [|repeat split; try reflexivity; eauto].
  constructor; cbn [pool_addr header nodes first upper_limit total_size
                    used_memory num_allocations]; try assumption.
  - apply chain_app. split; [exact Hc1|].
    eapply chain_weaken; [|exact Hc2]. lia.
  - rewrite footprints_app. lia.
  - rewrite length_app. lia.
  - intros a n Ha Hused.
    destruct (decide (a ∈ (l1 ++ r :: l2).*1)) as [Hin | Hnin].
    + rewrite fmap_app, fmap_cons in Hin. rewrite fmap_app.
      apply elem_of_app in Hin as [Hin | Hin];
        [apply elem_of_app; left; exact Hin|].
      apply elem_of_cons in Hin as [-> | Hin];
        [|apply elem_of_app; right; exact Hin].
      rewrite Hr in Ha. inversion Ha; subst n. discriminate.
    + exfalso. apply Hnin. rewrite (Hfr a Hnin) in Ha.
      eapply Hlive; eassumption.
Qed.

End Free.

(** ** An invariant of every reachable state *)

Section Invariant.

Context (T : target) (HT : target_ok T).
Context (P : Z -> Z -> Prop) (Q : Z -> Prop).

Abbreviation hn := (sizeof_memory_node T).
Abbreviation hb := (sizeof_memory_block T).

Hypothesis P_start : forall b, 0 < b -> P b (b + hb).
Hypothesis P_next : forall b a sz, P b a -> Q sz -> P b (a + hn + sz).
Hypothesis Q_align : forall s, Q (align_size T s).

Implicit Types (m : gmap Z memory_node) (st : arena).

Lemma nodes_ok_insert b m a n :
  nodes_ok P Q b m -> Q (size n) -> ptr_inv P b (next n) ->
  nodes_ok P Q b (<[a := n]> m).
Proof.
  intros Hm Hq Hp a' n'. rewrite lookup_insert.
  case_decide; [|apply Hm]. intros [= <-]. tauto.
Qed.

Lemma nodes_ok_store b m m' p f :
  nodes_ok P Q b m -> store p f m = Some m' ->
  (forall n, Q (size n) -> ptr_inv P b (next n) ->
             Q (size (f n)) /\ ptr_inv P b (next (f n))) ->
  nodes_ok P Q b m'.
Proof.
  unfold store. intros Hm Hs Hf.
  destruct (m !! p) as [n|] eqn:E; [|discriminate].
  injection Hs as <-. destruct (Hm _ _ E) as [Hq Hp].
  destruct (Hf n Hq Hp). apply nodes_ok_insert; assumption.
Qed.

Lemma create_inv p sz st :
  0 <= p -> create_memory_pool T p sz = Some st -> store_inv P Q st.
Proof.
  unfold create_memory_pool. intros Hp H.
  destruct (sz <? MIN_BLOCK_SIZE T); [discriminate|].
  destruct (Z.eqb_spec p 0) as [|Hnz]; [discriminate|]. injection H as <-.
  constructor; simpl; [lia | left; reflexivity |].
  intros a n Ha. rewrite lookup_empty in Ha. discriminate.
Qed.

Lemma scan_gaps_inv st sz : store_inv P Q st -> Q sz ->
  forall fuel current q st',
    ptr_inv P (pool_addr st) current ->
    scan_gaps T fuel st sz current = Ret q st' -> alloc_post T P Q st q st'.
Proof.
  unfold alloc_post.
  intros Hinv Hq. pose proof Hinv as [Hpool Hfirst Hnodes].
  induction fuel as [|fuel IH]; intros current q st' Hcur Hscan;
    [discriminate|].
  cbn [scan_gaps] in Hscan.
  destruct (Z.eqb_spec current 0) as [|Hnz].
  { injection Hscan as <- <-. split; [assumption|]. split; [reflexivity|].
    left. tauto. }
  destruct Hcur as [|Hcur]; [contradiction|].
  destruct (nodes st !! current) as [cur|] eqn:Ecur; [|discriminate].
  destruct (Hnodes _ _ Ecur) as [Hqc Hnx].
  cbv zeta in Hscan.
  destruct (wrap T (sz + hn) <=? _); [|eapply IH; eassumption].
  pose proof (P_next _ _ _ Hcur Hqc) as Hnew.
  set (m1 := <[current + hn + size cur := _]> (nodes st)) in Hscan.
  assert (H1 : nodes_ok P Q (pool_addr st) m1)
    by (apply nodes_ok_insert; assumption).
  destruct (if next cur =? 0 then Some m1 else _) as [m2|] eqn:E2;
    [|discriminate].
  assert (H2 : nodes_ok P Q (pool_addr st) m2).
  { destruct (next cur =? 0); [injection E2 as <-; exact H1|].
    eapply nodes_ok_store; [exact H1 | exact E2 |]. simpl. tauto. }
  destruct (store current _ m2) as [m3|] eqn:E3; [|discriminate].
  injection Hscan as <- <-.
  split; [|split; [reflexivity | right; eauto]].
  constructor; simpl; try assumption.
  - eapply nodes_ok_store; [exact H2 | exact E3 |]. simpl.
    intros n Hn _. split; [exact Hn | right; exact Hnew].
Qed.

Lemma pool_alloc_inv st s q st' :
  store_inv P Q st -> pool_alloc T st s = Ret q st' -> alloc_post T P Q st q st'.
Proof.
  unfold alloc_post.
  intros Hinv Hal. pose proof Hinv as [Hpool Hfirst Hnodes].
  unfold pool_alloc in Hal.
  destruct (pool_addr st =? 0); [discriminate|].
  destruct (align_size T s =? 0).
  { injection Hal as <- <-. split; [assumption|]. split; [reflexivity|].
    left. tauto. }
  destruct (wrap T _ <? wrap T _).
  { injection Hal as <- <-. split; [assumption|]. split; [reflexivity|].
    left. tauto. }
  pose proof (P_start _ Hpool) as Hstart.
  destruct (first (header st) =? 0).
  { injection Hal as <- <-.
    split; [|split; [reflexivity | right; eauto]].
    constructor; simpl; try assumption.
    - right. exact Hstart.
    - apply nodes_ok_insert; [assumption | apply Q_align | left; reflexivity]. }
  destruct (wrap T _ <=? wrap T _);
    [|eapply scan_gaps_inv; try eassumption; apply Q_align].
  destruct (store _ _ _) as [m2|] eqn:E2; [|discriminate].
  injection Hal as <- <-.
  split; [|split; [reflexivity | right; eauto]].
  constructor; simpl; try assumption.
  - right. exact Hstart.
  - eapply nodes_ok_store; [|exact E2|].
    + apply nodes_ok_insert; [assumption | apply Q_align | exact Hfirst].
    + simpl. tauto.
Qed.

Lemma pool_free_inv st ptr st' :
  store_inv P Q st -> pool_free T st ptr = Ret tt st' ->
  store_inv P Q st' /\ pool_addr st' = pool_addr st.
Proof.
  intros Hinv Hfr. pose proof Hinv as [Hpool Hfirst Hnodes].
  unfold pool_free in Hfr.
  destruct (ptr =? 0); [injection Hfr as <-; tauto|].
  destruct (nodes st !! (ptr - hn)) as [n|] eqn:En; [|discriminate].
  destruct (negb (is_used n)); [discriminate|].
  destruct (negb (pool n =? pool_addr st)); [discriminate|].
  destruct (Hnodes _ _ En) as [Hqn Hnx].
  set (m1 := <[ptr - hn := set_is_used false n]> (nodes st)) in Hfr.
  assert (H1 : nodes_ok P Q (pool_addr st) m1)
    by (apply nodes_ok_insert; assumption).
  unfold unlink in Hfr.
  destruct (if prev n =? 0 then Some (next n, m1) else _)
    as [[fst' m2]|] eqn:E2; [|discriminate].
  assert (H2 : ptr_inv P (pool_addr st) fst' /\ nodes_ok P Q (pool_addr st) m2).
  { destruct (prev n =? 0); [injection E2 as <- <-; tauto|].
    destruct (store (prev n) _ m1) as [m2'|] eqn:E2'; [|discriminate].
    injection E2 as <- <-. split; [exact Hfirst|].
    eapply nodes_ok_store; [exact H1 | exact E2' |]. simpl. tauto. }
  destruct H2 as [Hf2 H2].
  destruct (if next n =? 0 then Some m2 else _) as [m3|] eqn:E3;
    [|discriminate].
  injection Hfr as <-. split; [|reflexivity].
  constructor; simpl; try assumption.
  destruct (next n =? 0); [injection E3 as <-; exact H2|].
  eapply nodes_ok_store; [exact H2 | exact E3 |]. simpl. tauto.
Qed.

Lemma step_inv st st' :
  step T st st' -> store_inv P Q st ->
  store_inv P Q st' /\ pool_addr st' = pool_addr st.
Proof.
  intros [st0 sz q st1 Hal | st0 ptr st1 Hfr] Hinv.
  - destruct (pool_alloc_inv _ _ _ _ Hinv Hal) as (H1 & H2 & _). tauto.
  - eapply pool_free_inv; eassumption.
Qed.

Lemma reachable_inv st : reachable T st -> store_inv P Q st.
Proof.
  intros (p & sz & st0 & Hp & Hcreate & Hsteps).
  apply (create_inv _ _ _ Hp) in Hcreate.
  induction Hsteps as [|x y z Hxy _ IH]; [assumption|].
  apply IH. eapply step_inv; eassumption.
Qed.

End Invariant.

(** ** Good order is kept *)

Section GoodOrder.

Context (T : target) (HT : target_ok T).

Abbreviation w := (size_bits T).
Abbreviation hn := (sizeof_memory_node T).
Abbreviation hb := (sizeof_memory_block T).

(** A pool in good order is in good order after every [pool_alloc] that
    returns, as long as the aligned size plus the header size does not wrap
    and, when the pool is empty, the data area has room for them. *)
Lemma pool_alloc_keeps_order st l s q st' :
  pool_wf T st l ->
  align_size T s + hn < 2 ^ w ->
  (l = [] ->
   align_size T s + hn <= upper_limit (header st) - (pool_addr st + hb)) ->
  pool_alloc T st s = Ret q st' ->
  exists l', pool_wf T st' l'.
Proof.
  intros Hwf Hov Hroom Hal.
  destruct (Z.eq_dec (align_size T s) 0) as [Hz | Hnz].
  - unfold pool_alloc in Hal. rewrite Hz in Hal.
    destruct (pool_addr st =? 0); [discriminate|].
    injection Hal as <- <-. eauto.
  - pose proof (pool_alloc_place T HT st l s Hwf Hnz) as Hpl.
    destruct (place T (pool_addr st + hb) l (upper_limit (header st))
                    (align_size T s + hn) (align_size T s))
      as [[q0 l0]|] eqn:E.
    + destruct Hpl as (st0 & Hal0 & Hwf0 & _).
      rewrite Hal0 in Hal. injection Hal as <- <-. eauto.
    + destruct l as [|r l2].
      * simpl in E. specialize (Hroom eq_refl).
        destruct (Z.leb_spec (align_size T s + hn)
                    (upper_limit (header st) - (pool_addr st + hb)));
          [discriminate | lia].
      * rewrite Hpl in Hal by (congruence || assumption).
        injection Hal as <- <-. eauto.
Qed.

(** ... and after every [pool_free] that returns. *)
Lemma pool_free_keeps_order st l ptr st' :
  pool_wf T st l -> pool_free T st ptr = Ret tt st' ->
  exists l', pool_wf T st' l'.
Proof.
  intros Hwf Hfr. pose proof Hfr as Hfr0. unfold pool_free in Hfr.
  destruct (ptr =? 0); [injection Hfr as <-; eauto|].
  destruct (nodes st !! (ptr - hn)) as [n|] eqn:Hlk; [|discriminate].
  destruct (is_used n) eqn:Hused; [|discriminate]. clear Hfr.
  pose proof (wf_live _ _ _ Hwf _ _ Hlk Hused) as Hin.
  apply list_elem_of_fmap in Hin as (r & Hr & Hin).
  apply list_elem_of_split in Hin as (l1 & l2 & ->).
  destruct (pool_free_live T HT st l1 r l2 Hwf) as (st0 & Hfr & Hwf0 & _).
  replace (fst r + hn) with ptr in Hfr by lia.
  rewrite Hfr in Hfr0. injection Hfr0 as <-. eauto.
Qed.

Lemma place_split (l : list (Z * Z)) : forall lo hi need sz q l',
  place T lo l hi need sz = Some (q, l') ->
  exists l1 l2, l = l1 ++ l2 /\ l' = l1 ++ (q, sz) :: l2.
Proof.
  induction l as [|r l IH]; simpl; intros lo hi need sz q l' Hp.
  - destruct (need <=? hi - lo); inversion Hp; subst.
    exists [], []. split; reflexivity.
  - destruct (need <=? fst r - lo).
    + inversion Hp; subst. exists [], (r :: l). split; reflexivity.
    + destruct (place T (end_of T r) l hi need sz) as [[q0 l0]|] eqn:E;
        inversion Hp; subst.
      destruct (IH _ _ _ _ _ _ E) as (l1 & l2 & -> & ->).
      exists (r :: l1), l2. split; reflexivity.
Qed.

(** What a successful [pool_alloc] does to a pool in good order. *)
Lemma pool_alloc_success st l s q st' :
  pool_wf T st l ->
  align_size T s + hn < 2 ^ w ->
  (l = [] ->
   align_size T s + hn <= upper_limit (header st) - (pool_addr st + hb)) ->
  pool_alloc T st s = Ret q st' -> q <> 0 ->
  exists l1 l2,
    l = l1 ++ l2 /\
    pool_wf T st' (l1 ++ (q - hn, align_size T s) :: l2) /\
    pool_addr st' = pool_addr st /\
    total_size (header st') = total_size (header st).
Proof.
  intros Hwf Hov Hroom Hal Hq.
  destruct (Z.eq_dec (align_size T s) 0) as [Hz | Hnz].
  { unfold pool_alloc in Hal. rewrite Hz in Hal.
    destruct (pool_addr st =? 0); [discriminate|].
    injection Hal as <- <-. contradiction. }
  pose proof (pool_alloc_place T HT st l s Hwf Hnz) as Hpl.
  destruct (place T (pool_addr st + hb) l (upper_limit (header st))
                  (align_size T s + hn) (align_size T s))
    as [[q0 l0]|] eqn:E.
  - destruct Hpl as (st0 & Hal0 & Hwf0 & Hp0 & Ht0).
    rewrite Hal0 in Hal. injection Hal as <- <-.
    destruct (place_split _ _ _ _ _ _ _ E) as (l1 & l2 & -> & ->).
    exists l1, l2. replace (q0 + hn - hn) with q0 by lia. tauto.
  - destruct l as [|r l2].
    + simpl in E. specialize (Hroom eq_refl).
      destruct (Z.leb_spec (align_size T s + hn)
                  (upper_limit (header st) - (pool_addr st + hb)));
        [discriminate | lia].
    + rewrite Hpl in Hal by (congruence || assumption).
      injection Hal as <- <-. contradiction.
Qed.

End GoodOrder.

(** ** Pools to start from *)

Lemma LP64_ok : target_ok LP64.
Proof. constructor; simpl; lia. Qed.

Lemma ILP32_ok : target_ok ILP32.
Proof. constructor; simpl; lia. Qed.

Lemma LP64_aligned : target_aligned LP64.
Proof. split; [exists 5 | exists 5]; reflexivity. Qed.

Lemma create_wf T p sz st :
  target_ok T -> 0 < p -> p + sz < 2 ^ size_bits T ->
  create_memory_pool T p sz = Some st -> pool_wf T st [].
Proof.
  intros HT Hp Hsp. unfold create_memory_pool, MIN_BLOCK_SIZE, MIN_ALIGNMENT.
  pose proof HT as [Hb Hbp Hnp Hns Hbs].
  rewrite wrap_small by lia.
  destruct (Z.ltb_spec sz (sizeof_memory_node T + 8)); [discriminate|].
  destruct (p =? 0); [discriminate|]. intros [= <-].
  constructor; simpl; try lia; try reflexivity.
  intros a n Ha. rewrite lookup_empty in Ha. discriminate.
Qed.

Lemma pool_empty_wf : pool_wf LP64 pool_empty [].
Proof.
  apply (create_wf LP64 4096 150); [apply LP64_ok | lia | simpl; lia |].
  reflexivity.
Qed.

Lemma pool_empty_reachable : reachable LP64 pool_empty.
Proof.
  exists 4096, 150, pool_empty. split; [lia|]. split; [reflexivity|].
  apply rtc_refl.
Qed.

Lemma pool_one_wf : pool_wf LP64 pool_one [(4136, 16)].
Proof.
  pose proof (pool_alloc_place LP64 LP64_ok pool_empty [] 12 pool_empty_wf)
    as H.
  assert (E : align_size LP64 12 = 16) by reflexivity. rewrite E in H.
  specialize (H ltac:(lia)). simpl in H.
  destruct H as (st' & Hal & Hwf & _).
  replace pool_one with st'; [exact Hwf|].
  assert (E' : pool_alloc LP64 pool_empty 12 = Ret 4176 pool_one)
    by (vm_compute; reflexivity).
  rewrite E' in Hal. injection Hal as <-. reflexivity.
Qed.

Lemma run_steps T cs : forall st st', run T st cs = Some st' -> rtc (step T) st st'.
Proof.
  induction cs as [|c cs IH]; simpl; intros st st' H.
  - injection H as <-. apply rtc_refl.
  - destruct c as [sz | ptr].
    + destruct (pool_alloc T st sz) as [q st1| | |] eqn:E; try discriminate.
      eapply rtc_l; [eapply step_alloc, E | apply IH, H].
    + destruct (pool_free T st ptr) as [[] st1| | |] eqn:E; try discriminate.
      eapply rtc_l; [eapply step_free, E | apply IH, H].
Qed.

Lemma pool_holed_run :
  run LP64 pool_200 [Alloc 8; Alloc 8; Alloc 8; Free 4224] = Some pool_holed.
Proof. vm_compute. reflexivity. Qed.

Lemma pool_holed_reachable : reachable LP64 pool_holed.
Proof.
  exists 4096, 200, pool_200. split; [lia|]. split; [reflexivity|].
  apply (run_steps LP64 _ _ _ pool_holed_run).
Qed.

Lemma pool_holed_wf : pool_wf LP64 pool_holed [(4136, 8); (4232, 8)].
Proof.
  constructor; simpl; try lia; try reflexivity.
  - split; [reflexivity|]. split; [lia|].
    exists 4232. split; [reflexivity|].
    split; [reflexivity|]. split; [lia|].
    exists 0. split; reflexivity.
  - unfold end_of. simpl. repeat split; try lia; exists 1; reflexivity.
  - intros a n Ha Hu.
    destruct (decide (a = 4136)) as [->|H1]; [apply list_elem_of_here|].
    destruct (decide (a = 4232)) as [->|H2];
      [apply list_elem_of_further, list_elem_of_here|].
    exfalso. rewrite lookup_insert_ne in Ha by congruence.
    destruct (decide (a = 4184)) as [->|H3].
    + rewrite lookup_insert_eq in Ha. injection Ha as <-. discriminate.
    + rewrite !lookup_insert_ne in Ha by congruence.
      rewrite lookup_empty in Ha. discriminate.
Qed.

Lemma records_from_cyclic fuel :
  records_from fuel (nodes pool_cyclic) 4136
  = repeat (Node (2 ^ 64 - 40) true 4136 4136 4096) fuel.
Proof.
  induction fuel as [|fuel IH]; [reflexivity|].
  cbn [records_from repeat]. change (4136 =? 0) with false. cbv iota.
  unfold pool_cyclic at 1. cbn [nodes]. rewrite lookup_insert_eq.
  cbn [next]. f_equal. exact IH.
Qed.

Lemma footprint_sum_repeat T n k :
  footprint_sum T (repeat n k) = Z.of_nat k * (size n + sizeof_memory_node T).
Proof.
  induction k as [|k IH]; [reflexivity|].
  cbn [repeat footprint_sum foldr]. fold (footprint_sum T (repeat n k)).
  rewrite IH. lia.
Qed.

(** * The bytes of the region *)

(** ** Bytes *)

Section ByteLemmas.

Implicit Types (m : Bytes.memory) (n k : nat).

Lemma store_bytes_lookup n : forall m a v m' x,
  Bytes.store_bytes n m a v = Some m' -> x < a \/ a + Z.of_nat n <= x ->
  m' !! x = m !! x.
Proof.
  induction n as [|n IH]; simpl; intros m a v m' x Hst Hx.
  - congruence.
  - destruct (m !! a); [|discriminate].
    rewrite (IH _ _ _ _ x Hst) by lia. apply lookup_insert_ne. lia.
Qed.

Lemma store_bytes_dom n : forall m a v m' x,
  Bytes.store_bytes n m a v = Some m' -> is_Some (m' !! x) <-> is_Some (m !! x).
Proof.
  induction n as [|n IH]; simpl; intros m a v m' x Hst.
  - injection Hst as <-. tauto.
  - destruct (m !! a) as [b|] eqn:E; [|discriminate].
    rewrite (IH _ _ _ _ x Hst), lookup_insert.
    case_decide as Hx; [subst x; rewrite E; split; eauto | tauto].
Qed.

Lemma store_bytes_is_Some n : forall m a v,
  (forall i, 0 <= i < Z.of_nat n -> is_Some (m !! (a + i))) ->
  is_Some (Bytes.store_bytes n m a v).
Proof.
  induction n as [|n IH]; simpl; intros m a v Hin; [eauto|].
  destruct (Hin 0 ltac:(lia)) as [b Hb].
  rewrite Z.add_0_r in Hb. rewrite Hb.
  apply IH. intros i Hi.
  rewrite lookup_insert_ne by lia.
  replace (a + 1 + i) with (a + (1 + i)) by lia. apply Hin. lia.
Qed.

Lemma load_bytes_frame k : forall m m' a,
  (forall i, 0 <= i < Z.of_nat k -> m' !! (a + i) = m !! (a + i)) ->
  Bytes.load_bytes k m' a = Bytes.load_bytes k m a.
Proof.
  induction k as [|k IH]; simpl; intros m m' a Heq; [reflexivity|].
  pose proof (Heq 0 ltac:(lia)) as H0. rewrite Z.add_0_r in H0. rewrite H0.
  rewrite (IH m m' (a + 1)); [reflexivity|].
  intros i Hi. replace (a + 1 + i) with (a + (1 + i)) by lia.
  apply Heq. lia.
Qed.

Lemma load_store_other n k m a v m' a' :
  Bytes.store_bytes n m a v = Some m' ->
  a' + Z.of_nat k <= a \/ a + Z.of_nat n <= a' ->
  Bytes.load_bytes k m' a' = Bytes.load_bytes k m a'.
Proof.
  intros Hst Hd. apply load_bytes_frame. intros i Hi.
  apply (store_bytes_lookup _ _ _ _ _ _ Hst). lia.
Qed.

Lemma load_store_same n : forall m a v m',
  Bytes.store_bytes n m a v = Some m' ->
  Bytes.load_bytes n m' a = Some (v mod 256 ^ Z.of_nat n).
Proof.
  induction n as [|n IH]; intros m a v m' Hst.
  - simpl. rewrite Z.mod_1_r. reflexivity.
  - cbn [Bytes.store_bytes] in Hst. destruct (m !! a); [|discriminate].
    cbn [Bytes.load_bytes].
    rewrite (store_bytes_lookup _ _ _ _ _ a Hst) by lia.
    rewrite lookup_insert_eq, (IH _ _ _ _ Hst).
    f_equal. rewrite Nat2Z.inj_succ, Z.pow_succ_r by lia.
    rewrite Z.rem_mul_r by lia. reflexivity.
Qed.

End ByteLemmas.

(** ** Headers in the bytes *)

Section Fields.

Context (T : target) (HT : target_ok T) (HL : Bytes.natural_layout T).

Abbreviation w := (size_bits T).
Abbreviation hn := (sizeof_memory_node T).
Abbreviation hb := (sizeof_memory_block T).
Abbreviation W := (Z.of_nat (Bytes.word T)).

Implicit Types (m : Bytes.memory) (l : list (Z * Z)) (b : memory_block)
  (n : memory_node) (M : gmap Z memory_node).

Lemma word_facts : 1 <= W /\ hn = 5 * W /\ hb = 5 * W /\ 256 ^ W = 2 ^ w.
Proof.
  destruct HL as (Hw & Hb & Hn). destruct HT as [Hbits _ _ _ _].
  split; [lia|]. split; [exact Hn|]. split; [exact Hb|].
  rewrite Hw. change 256 with (2 ^ 8). rewrite <- Z.pow_mul_r by lia.
  reflexivity.
Qed.

Lemma field_small p k : 0 <= p + k * W < 2 ^ w -> Bytes.field T p k = p + k * W.
Proof. intros H. unfold Bytes.field. apply (wrap_small T). exact H. Qed.

Lemma chain_inside l : forall lo hi r,
  chain T lo l hi -> r ∈ l -> lo <= fst r /\ end_of T r <= hi /\ 0 < snd r.
Proof.
  induction l as [|r0 l IH]; simpl; intros lo hi r Hc Hr; [inversion Hr|].
  destruct Hc as (H1 & H2 & _ & H3).
  pose proof (chain_le T HT _ _ _ H3) as Hle.
  pose proof (end_of_gt T HT r0 H2) as Hgt.
  apply elem_of_cons in Hr as [-> | Hr]; [lia|].
  destruct (IH _ _ _ H3 Hr). lia.
Qed.

Lemma chain_apart l : forall lo hi r r',
  chain T lo l hi -> r ∈ l -> r' ∈ l -> fst r <> fst r' ->
  end_of T r <= fst r' \/ end_of T r' <= fst r.
Proof.
  induction l as [|r0 l IH]; simpl; intros lo hi r r' Hc Hr Hr' Hne;
    [inversion Hr|].
  destruct Hc as (H1 & H2 & _ & H3).
  apply elem_of_cons in Hr as [-> | Hr];
    apply elem_of_cons in Hr' as [-> | Hr'].
  - contradiction.
  - left. apply (chain_inside _ _ _ _ H3 Hr').
  - right. apply (chain_inside _ _ _ _ H3 Hr).
  - eapply IH; eassumption.
Qed.

(** The fields of a header at their addresses. *)
Lemma node_at_fields m a n :
  0 <= a -> a + hn <= 2 ^ w ->
  Bytes.node_at T m a n <->
  Bytes.load_bytes (Bytes.word T) m a = Some (size n) /\
  Bytes.load_bytes 1 m (a + W) = Some (if is_used n then 1 else 0) /\
  Bytes.load_bytes (Bytes.word T) m (a + 2 * W) = Some (prev n) /\
  Bytes.load_bytes (Bytes.word T) m (a + 3 * W) = Some (next n) /\
  Bytes.load_bytes (Bytes.word T) m (a + 4 * W) = Some (pool n).
Proof.
  intros H0 H1. destruct word_facts as (Hw & Hn & _ & _).
  unfold Bytes.node_at, Bytes.node_size, Bytes.node_is_used, Bytes.node_prev, Bytes.node_next, Bytes.node_pool.
  rewrite !field_small by lia.
  rewrite Z.add_0_r. replace (a + 1 * W) with (a + W) by lia. reflexivity.
Qed.

Lemma block_at_fields m p b :
  0 <= p -> p + hb <= 2 ^ w ->
  Bytes.block_at T m p b <->
  Bytes.load_bytes (Bytes.word T) m p = Some (first b) /\
  Bytes.load_bytes (Bytes.word T) m (p + W) = Some (upper_limit b) /\
  Bytes.load_bytes (Bytes.word T) m (p + 2 * W) = Some (total_size b) /\
  Bytes.load_bytes (Bytes.word T) m (p + 3 * W) = Some (used_memory b) /\
  Bytes.load_bytes (Bytes.word T) m (p + 4 * W) = Some (num_allocations b).
Proof.
  intros H0 H1. destruct word_facts as (Hw & _ & Hb & _).
  unfold Bytes.block_at, Bytes.pool_first, Bytes.pool_upper_limit, Bytes.pool_total_size,
    Bytes.pool_used_memory, Bytes.pool_num_allocations.
  rewrite !field_small by lia.
  rewrite Z.add_0_r. replace (p + 1 * W) with (p + W) by lia. reflexivity.
Qed.

(** A store of [k] bytes at [x]: what is read there, and that nothing else
    changes. *)
Lemma store_bytes_spec k m x v m' :
  Bytes.store_bytes k m x v = Some m' ->
  Bytes.load_bytes k m' x = Some (v mod 256 ^ Z.of_nat k) /\
  (forall k' y, y + Z.of_nat k' <= x \/ x + Z.of_nat k <= y ->
                Bytes.load_bytes k' m' y = Bytes.load_bytes k' m y) /\
  (forall y, is_Some (m' !! y) <-> is_Some (m !! y)).
Proof.
  intros Hst. split; [exact (load_store_same _ _ _ _ _ Hst)|]. split.
  - intros k' y Hy. exact (load_store_other _ _ _ _ _ _ _ Hst Hy).
  - intros y. exact (store_bytes_dom _ _ _ _ _ y Hst).
Qed.

Lemma store_word_value k m x v m' :
  Bytes.store_bytes k m x v = Some m' -> k = Bytes.word T -> 0 <= v < 2 ^ w ->
  Bytes.load_bytes (Bytes.word T) m' x = Some v.
Proof.
  intros Hst -> Hv. destruct word_facts as (_ & _ & _ & Hpow).
  rewrite (load_store_same _ _ _ _ _ Hst), Hpow, Z.mod_small by exact Hv.
  reflexivity.
Qed.

(** A header is not changed by a store outside it. *)
Lemma node_at_frame k m x v m' a n :
  Bytes.store_bytes k m x v = Some m' ->
  0 <= a -> a + hn <= 2 ^ w ->
  x + Z.of_nat k <= a \/ a + hn <= x ->
  Bytes.node_at T m a n -> Bytes.node_at T m' a n.
Proof.
  intros Hst H0 H1 Hd. destruct word_facts as (Hw & Hn & _ & _).
  rewrite !node_at_fields by assumption.
  rewrite !(load_store_other _ _ _ _ _ _ _ Hst) by lia. tauto.
Qed.

Lemma block_at_frame k m x v m' p b :
  Bytes.store_bytes k m x v = Some m' ->
  0 <= p -> p + hb <= 2 ^ w ->
  x + Z.of_nat k <= p \/ p + hb <= x ->
  Bytes.block_at T m p b -> Bytes.block_at T m' p b.
Proof.
  intros Hst H0 H1 Hd. destruct word_facts as (Hw & _ & Hb & _).
  rewrite !block_at_fields by assumption.
  rewrite !(load_store_other _ _ _ _ _ _ _ Hst) by lia. tauto.
Qed.

(** Stores to one field of a header. *)
Lemma node_at_set_is_used m (v : bool) m' a n :
  Bytes.store_bytes 1 m (a + W) (if v then 1 else 0) = Some m' ->
  0 <= a -> a + hn <= 2 ^ w ->
  Bytes.node_at T m a n -> Bytes.node_at T m' a (set_is_used v n).
Proof.
  intros Hst H0 H1. destruct word_facts as (Hw & Hn & _ & _).
  rewrite !node_at_fields by assumption. cbn [set_is_used size is_used prev next pool].
  rewrite (load_store_same _ _ _ _ _ Hst).
  rewrite !(load_store_other _ _ _ _ _ _ _ Hst) by lia.
  intros (? & _ & ? & ? & ?). repeat split; try assumption.
  destruct v; reflexivity.
Qed.

Lemma node_at_set_prev m v m' a n :
  Bytes.store_bytes (Bytes.word T) m (a + 2 * W) v = Some m' -> 0 <= v < 2 ^ w ->
  0 <= a -> a + hn <= 2 ^ w ->
  Bytes.node_at T m a n -> Bytes.node_at T m' a (set_prev v n).
Proof.
  intros Hst Hv H0 H1. destruct word_facts as (Hw & Hn & _ & _).
  rewrite !node_at_fields by assumption. cbn [set_prev size is_used prev next pool].
  rewrite (store_word_value _ _ _ _ _ Hst eq_refl Hv).
  rewrite !(load_store_other _ _ _ _ _ _ _ Hst) by lia. tauto.
Qed.

Lemma node_at_set_next m v m' a n :
  Bytes.store_bytes (Bytes.word T) m (a + 3 * W) v = Some m' -> 0 <= v < 2 ^ w ->
  0 <= a -> a + hn <= 2 ^ w ->
  Bytes.node_at T m a n -> Bytes.node_at T m' a (set_next v n).
Proof.
  intros Hst Hv H0 H1. destruct word_facts as (Hw & Hn & _ & _).
  rewrite !node_at_fields by assumption. cbn [set_next size is_used prev next pool].
  rewrite (store_word_value _ _ _ _ _ Hst eq_refl Hv).
  rewrite !(load_store_other _ _ _ _ _ _ _ Hst) by lia. tauto.
Qed.

Lemma block_at_set_first m v m' p b :
  Bytes.store_bytes (Bytes.word T) m p v = Some m' -> 0 <= v < 2 ^ w ->
  0 <= p -> p + hb <= 2 ^ w ->
  Bytes.block_at T m p b ->
  Bytes.block_at T m' p (Block v (upper_limit b) (total_size b) (used_memory b)
                         (num_allocations b)).
Proof.
  intros Hst Hv H0 H1. destruct word_facts as (Hw & _ & Hb & _).
  rewrite !block_at_fields by assumption.
  cbn [first upper_limit total_size used_memory num_allocations].
  rewrite (store_word_value _ _ _ _ _ Hst eq_refl Hv).
  rewrite !(load_store_other _ _ _ _ _ _ _ Hst) by lia. tauto.
Qed.

Lemma block_at_set_used m v m' p b :
  Bytes.store_bytes (Bytes.word T) m (p + 3 * W) v = Some m' -> 0 <= v < 2 ^ w ->
  0 <= p -> p + hb <= 2 ^ w ->
  Bytes.block_at T m p b ->
  Bytes.block_at T m' p (Block (first b) (upper_limit b) (total_size b) v
                         (num_allocations b)).
Proof.
  intros Hst Hv H0 H1. destruct word_facts as (Hw & _ & Hb & _).
  rewrite !block_at_fields by assumption.
  cbn [first upper_limit total_size used_memory num_allocations].
  rewrite (store_word_value _ _ _ _ _ Hst eq_refl Hv).
  rewrite !(load_store_other _ _ _ _ _ _ _ Hst) by lia. tauto.
Qed.

Lemma block_at_set_count m v m' p b :
  Bytes.store_bytes (Bytes.word T) m (p + 4 * W) v = Some m' -> 0 <= v < 2 ^ w ->
  0 <= p -> p + hb <= 2 ^ w ->
  Bytes.block_at T m p b ->
  Bytes.block_at T m' p (Block (first b) (upper_limit b) (total_size b)
                         (used_memory b) v).
Proof.
  intros Hst Hv H0 H1. destruct word_facts as (Hw & _ & Hb & _).
  rewrite !block_at_fields by assumption.
  cbn [first upper_limit total_size used_memory num_allocations].
  rewrite (store_word_value _ _ _ _ _ Hst eq_refl Hv).
  rewrite !(load_store_other _ _ _ _ _ _ _ Hst) by lia. tauto.
Qed.

Lemma read_word_load m x v :
  Bytes.load_bytes (Bytes.word T) m x = Some v -> Bytes.read_word T x m = Bytes.Done v m.
Proof. intros H. unfold Bytes.read_word, Bytes.read. rewrite H. reflexivity. Qed.

Lemma read_bool_load m x (u : bool) :
  Bytes.load_bytes 1 m x = Some (if u then 1 else 0) -> Bytes.read_bool x m = Bytes.Done u m.
Proof.
  intros H. unfold Bytes.read_bool, Bytes.read, mbind, Bytes.M_bind. rewrite H.
  destruct u; reflexivity.
Qed.

Lemma write_store k m x v m' :
  Bytes.store_bytes k m x v = Some m' -> Bytes.write k x v m = Bytes.Done tt m'.
Proof. intros H. unfold Bytes.write. rewrite H. reflexivity. Qed.

Lemma bind_done {A B} (c : Bytes.M A) (f : A -> Bytes.M B) m v m' :
  c m = Bytes.Done v m' -> (c ≫= f) m = f v m'.
Proof. intros H. unfold mbind, Bytes.M_bind. rewrite H. reflexivity. Qed.

Ltac bind_with H := rewrite (bind_done _ _ _ _ _ H); cbv beta.

(** *** Headers that lie apart *)

Section Pool.

(** The region of [total] bytes at [P], and addresses [L] in its data area
    at which headers do not overlap. *)
Variables (P total : Z) (L : list Z).

Hypotheses (HP : 0 < P) (Hsp : P + total < 2 ^ w) (Hfit : hb <= total)
  (Hinside : forall a, a ∈ L -> P + hb <= a /\ a + hn <= P + total)
  (Hapart : forall a a', a ∈ L -> a' ∈ L -> a <> a' ->
                         a + hn <= a' \/ a' + hn <= a).

Implicit Types (K : list Z).

Lemma stored_store k m b M K x v :
  Bytes.stored T m P b M K -> total_size b = total ->
  P <= x -> x + Z.of_nat k <= P + total ->
  exists m', Bytes.store_bytes k m x v = Some m'.
Proof.
  intros [Hreg _ _] Ht Hx Hk.
  apply store_bytes_is_Some. intros i Hi.
  rewrite Forall_forall in Hreg. apply Hreg.
  apply elem_of_seqZ. lia.
Qed.

Lemma stored_node m b M K a :
  Bytes.stored T m P b M K -> a ∈ K ->
  exists n, M !! a = Some n /\ Bytes.node_at T m a n.
Proof.
  intros [_ _ Hnodes] Ha.
  rewrite Forall_forall in Hnodes. exact (Hnodes a Ha).
Qed.

(** The pool after a store to its own header, ... *)
Lemma stored_write_block k m b M K x v m' b' :
  Bytes.stored T m P b M K -> K ⊆ L -> total_size b = total ->
  Bytes.store_bytes k m x v = Some m' ->
  P <= x -> x + Z.of_nat k <= P + hb ->
  Bytes.block_at T m' P b' -> total_size b' = total ->
  Bytes.stored T m' P b' M K.
Proof.
  intros [Hreg Hblk Hnodes] HK Ht Hst Hx Hk Hblk' Ht'.
  constructor.
  - rewrite Ht'. rewrite Ht in Hreg.
    eapply Forall_impl; [exact Hreg|]. intros y Hy.
    apply (store_bytes_dom _ _ _ _ _ y Hst). exact Hy.
  - exact Hblk'.
  - rewrite Forall_forall in *. intros a Ha.
    destruct (Hnodes a Ha) as (n & Hn & Hat). exists n. split; [exact Hn|].
    destruct (Hinside a (HK a Ha)).
    apply (node_at_frame _ _ _ _ _ _ _ Hst); [lia | lia | lia | exact Hat].
Qed.

(** ... to the header at an address of [L] that is not among [K], ... *)
Lemma stored_write_free k m b M K x v m' a :
  Bytes.stored T m P b M K -> K ⊆ L ->
  Bytes.store_bytes k m x v = Some m' ->
  a ∈ L -> a ∉ K -> a <= x -> x + Z.of_nat k <= a + hn ->
  Bytes.stored T m' P b M K.
Proof.
  intros [Hreg Hblk Hnodes] HK Hst Ha Hna Hx Hk.
  destruct (Hinside a Ha).
  destruct word_facts as (Hw & Hn & Hb & _).
  constructor.
  - eapply Forall_impl; [exact Hreg|]. intros y Hy.
    apply (store_bytes_dom _ _ _ _ _ y Hst). exact Hy.
  - apply (block_at_frame _ _ _ _ _ _ _ Hst); [lia | lia | lia | exact Hblk].
  - rewrite Forall_forall in *. intros a' Ha'.
    destruct (Hnodes a' Ha') as (n0 & Hn0 & Hat0).
    exists n0. split; [exact Hn0|].
    assert (Hne : a' <> a) by (intros ->; contradiction).
    destruct (Hinside a' (HK a' Ha')).
    destruct (Hapart a' a (HK a' Ha') Ha Hne).
    + apply (node_at_frame _ _ _ _ _ _ _ Hst); [lia | lia | lia | exact Hat0].
    + apply (node_at_frame _ _ _ _ _ _ _ Hst); [lia | lia | lia | exact Hat0].
Qed.

(** ... and to the header at an address of [K]. *)
Lemma stored_write_node k m b M K x v m' a n' :
  Bytes.stored T m P b M K -> K ⊆ L ->
  Bytes.store_bytes k m x v = Some m' ->
  a ∈ L -> a <= x -> x + Z.of_nat k <= a + hn ->
  Bytes.node_at T m' a n' ->
  Bytes.stored T m' P b (<[a := n']> M) (a :: K).
Proof.
  intros [Hreg Hblk Hnodes] HK Hst Ha Hx Hk Hat'.
  destruct (Hinside a Ha).
  destruct word_facts as (Hw & Hn & Hb & _).
  constructor.
  - eapply Forall_impl; [exact Hreg|]. intros y Hy.
    apply (store_bytes_dom _ _ _ _ _ y Hst). exact Hy.
  - apply (block_at_frame _ _ _ _ _ _ _ Hst); [lia | lia | lia | exact Hblk].
  - rewrite Forall_forall in *. intros a' Ha'.
    destruct (decide (a' = a)) as [-> | Hne].
    + exists n'. split; [apply lookup_insert_eq | exact Hat'].
    + apply elem_of_cons in Ha' as [|Ha']; [contradiction|].
      destruct (Hnodes a' Ha') as (n0 & Hn0 & Hat0).
      exists n0. split; [rewrite lookup_insert_ne by congruence; exact Hn0|].
      destruct (Hinside a' (HK a' Ha')).
      destruct (Hapart a' a (HK a' Ha') Ha Hne).
      * apply (node_at_frame _ _ _ _ _ _ _ Hst); [lia | lia | lia | exact Hat0].
      * apply (node_at_frame _ _ _ _ _ _ _ Hst); [lia | lia | lia | exact Hat0].
Qed.

Lemma stored_weaken m b M K K' :
  Bytes.stored T m P b M K -> K' ⊆ K -> Bytes.stored T m P b M K'.
Proof.
  intros [Hreg Hblk Hnodes] HK. constructor; [assumption | assumption |].
  rewrite Forall_forall in *. intros a Ha. apply Hnodes, HK, Ha.
Qed.

Lemma stored_write_live k m b M x v m' a n' :
  Bytes.stored T m P b M L ->
  Bytes.store_bytes k m x v = Some m' ->
  a ∈ L -> a <= x -> x + Z.of_nat k <= a + hn ->
  Bytes.node_at T m' a n' ->
  Bytes.stored T m' P b (<[a := n']> M) L.
Proof.
  intros Hs Hst Ha Hx Hk Hat'.
  eapply stored_weaken;
    [eapply (stored_write_node k m b M L); try eassumption; reflexivity|].
  intros a' Ha'. apply list_elem_of_further, Ha'.
Qed.

Lemma stored_write_in k m b M K x v m' a n' :
  Bytes.stored T m P b M K -> K ⊆ L ->
  Bytes.store_bytes k m x v = Some m' ->
  a ∈ K -> a <= x -> x + Z.of_nat k <= a + hn ->
  Bytes.node_at T m' a n' ->
  Bytes.stored T m' P b (<[a := n']> M) K.
Proof.
  intros Hs HK Hst Ha Hx Hk Hat'.
  eapply stored_weaken;
    [eapply (stored_write_node k m b M K); try eassumption; apply HK, Ha|].
  intros a' Ha'. apply list_elem_of_further, Ha'.
Qed.

(** The five stores that write a new header at an address of [L] that is
    not among [K]. *)
Lemma init_node m b M K a sz pv nx :
  Bytes.stored T m P b M K -> K ⊆ L -> total_size b = total ->
  a ∈ L -> a ∉ K ->
  0 <= sz < 2 ^ w -> 0 <= pv < 2 ^ w -> 0 <= nx < 2 ^ w ->
  exists m1 m2 m3 m4 m5,
    Bytes.store_bytes (Bytes.word T) m a sz = Some m1 /\
    Bytes.store_bytes 1 m1 (a + W) 1 = Some m2 /\
    Bytes.store_bytes (Bytes.word T) m2 (a + 2 * W) pv = Some m3 /\
    Bytes.store_bytes (Bytes.word T) m3 (a + 3 * W) nx = Some m4 /\
    Bytes.store_bytes (Bytes.word T) m4 (a + 4 * W) P = Some m5 /\
    Bytes.stored T m1 P b M K /\ Bytes.stored T m2 P b M K /\
    Bytes.stored T m3 P b M K /\ Bytes.stored T m4 P b M K /\
    Bytes.stored T m5 P b (<[a := Node sz true pv nx P]> M) (a :: K).
Proof.
  intros Hs HK Ht Ha Hna Hsz Hpv Hnx.
  destruct word_facts as (Hw & Hn & Hb & Hpow).
  destruct (Hinside a Ha) as [Ha1 Ha2].
  destruct (stored_store (Bytes.word T) m b M K a sz Hs Ht)
    as [m1 H1]; [lia | lia |].
  pose proof (stored_write_free _ _ _ _ _ _ _ _ _ Hs HK H1 Ha Hna
                ltac:(lia) ltac:(lia)) as Hs1.
  destruct (stored_store 1%nat m1 b M K (a + W) 1 Hs1 Ht)
    as [m2 H2]; [lia | lia |].
  pose proof (stored_write_free _ _ _ _ _ _ _ _ _ Hs1 HK H2 Ha Hna
                ltac:(lia) ltac:(lia)) as Hs2.
  destruct (stored_store (Bytes.word T) m2 b M K (a + 2 * W) pv Hs2 Ht)
    as [m3 H3]; [lia | lia |].
  pose proof (stored_write_free _ _ _ _ _ _ _ _ _ Hs2 HK H3 Ha Hna
                ltac:(lia) ltac:(lia)) as Hs3.
  destruct (stored_store (Bytes.word T) m3 b M K (a + 3 * W) nx Hs3 Ht)
    as [m4 H4]; [lia | lia |].
  pose proof (stored_write_free _ _ _ _ _ _ _ _ _ Hs3 HK H4 Ha Hna
                ltac:(lia) ltac:(lia)) as Hs4.
  destruct (stored_store (Bytes.word T) m4 b M K (a + 4 * W) P Hs4 Ht)
    as [m5 H5]; [lia | lia |].
  exists m1, m2, m3, m4, m5.
  do 5 (split; [assumption|]). do 4 (split; [assumption|]).
  eapply stored_write_node;
    [exact Hs4 | exact HK | exact H5 | exact Ha | lia | lia |].
  apply node_at_fields; [lia | lia |].
  cbn [size is_used prev next pool].
  rewrite (store_word_value _ _ _ _ _ H5 eq_refl) by lia.
  rewrite !(load_store_other _ _ _ _ _ _ _ H5) by lia.
  rewrite (store_word_value _ _ _ _ _ H4 eq_refl) by lia.
  rewrite !(load_store_other _ _ _ _ _ _ _ H4) by lia.
  rewrite (store_word_value _ _ _ _ _ H3 eq_refl) by lia.
  rewrite !(load_store_other _ _ _ _ _ _ _ H3) by lia.
  rewrite (load_store_same _ _ _ _ _ H2).
  rewrite !(load_store_other _ _ _ _ _ _ _ H2) by lia.
  rewrite (store_word_value _ _ _ _ _ H1 eq_refl) by lia.
  repeat split; reflexivity.
Qed.

(** The statements of the source that write one field. *)
Lemma write_first_sim m b M K v :
  Bytes.stored T m P b M K -> K ⊆ L -> total_size b = total ->
  0 <= v < 2 ^ w ->
  exists m',
    Bytes.write_word T (Bytes.pool_first T P) v m = Bytes.Done tt m' /\
    Bytes.stored T m' P (Block v (upper_limit b) (total_size b)
                               (used_memory b) (num_allocations b)) M K.
Proof.
  intros Hs HK Ht Hv. destruct word_facts as (Hw & Hn & Hb & Hpow).
  destruct (stored_store (Bytes.word T) m b M K P v Hs Ht)
    as [m' Hst]; [lia | lia |].
  exists m'. split.
  - unfold Bytes.write_word, Bytes.pool_first.
    rewrite field_small by lia. replace (P + 0 * W) with P by lia.
    apply write_store, Hst.
  - eapply stored_write_block;
      [exact Hs | exact HK | exact Ht | exact Hst | lia | lia | | exact Ht].
    apply (block_at_set_first _ _ _ _ _ Hst Hv ltac:(lia) ltac:(lia)
             (Bytes.stored_block _ _ _ _ _ _ Hs)).
Qed.

Lemma charge_sim m b M K sz :
  Bytes.stored T m P b M K -> K ⊆ L -> total_size b = total ->
  exists m',
    Bytes.charge T P sz m = Bytes.Done tt m' /\
    Bytes.stored T m' P (charge T b sz (first b)) M K.
Proof.
  intros Hs HK Ht. destruct word_facts as (Hw & Hn & Hb & Hpow).
  pose proof (Bytes.stored_block _ _ _ _ _ _ Hs) as (_ & _ & _ & B4 & _).
  unfold Bytes.charge, charge.
  bind_with (read_word_load m _ _ B4).
  set (used := wrap T (used_memory b + wrap T (sz + hn))).
  destruct (stored_store (Bytes.word T) m b M K (P + 3 * W) used Hs Ht)
    as [m1 Hst1]; [lia | lia |].
  assert (Hs1 : Bytes.stored T m1 P
                  (Block (first b) (upper_limit b) (total_size b) used
                         (num_allocations b)) M K).
  { eapply stored_write_block;
      [exact Hs | exact HK | exact Ht | exact Hst1 | lia | lia | | exact Ht].
    apply (block_at_set_used _ _ _ _ _ Hst1 (wrap_range T HT _)
             ltac:(lia) ltac:(lia) (Bytes.stored_block _ _ _ _ _ _ Hs)). }
  unfold Bytes.write_word, Bytes.pool_used_memory at 1.
  rewrite field_small by lia.
  bind_with (write_store _ _ _ _ _ Hst1).
  pose proof (Bytes.stored_block _ _ _ _ _ _ Hs1) as (_ & _ & _ & _ & B5).
  cbn [num_allocations] in B5.
  bind_with (read_word_load m1 _ _ B5).
  set (count := wrap T (num_allocations b + 1)).
  destruct (stored_store (Bytes.word T) m1 _ M K (P + 4 * W) count Hs1 Ht)
    as [m2 Hst2]; [lia | lia |].
  exists m2. split.
  - unfold Bytes.pool_num_allocations. rewrite field_small by lia.
    apply write_store, Hst2.
  - eapply stored_write_block;
      [exact Hs1 | exact HK | exact Ht | exact Hst2 | lia | lia | | exact Ht].
    apply (block_at_set_count _ _ _ _ _ Hst2 (wrap_range T HT _)
             ltac:(lia) ltac:(lia) (Bytes.stored_block _ _ _ _ _ _ Hs1)).
Qed.

Lemma write_prev_sim m b M K a v :
  Bytes.stored T m P b M K -> K ⊆ L -> total_size b = total ->
  a ∈ K -> 0 <= v < 2 ^ w ->
  exists m' M',
    Bytes.write_word T (Bytes.node_prev T a) v m = Bytes.Done tt m' /\
    store a (set_prev v) M = Some M' /\
    (forall x, x <> a -> M' !! x = M !! x) /\
    Bytes.stored T m' P b M' K.
Proof.
  intros Hs HK Ht Ha Hv. destruct word_facts as (Hw & Hn & Hb & Hpow).
  destruct (Hinside a (HK a Ha)) as [Ha1 Ha2].
  destruct (stored_node m b M K a Hs Ha) as (n & HM & Hat).
  destruct (stored_store (Bytes.word T) m b M K (a + 2 * W) v Hs Ht)
    as [m' Hst]; [lia | lia |].
  exists m', (<[a := set_prev v n]> M). split.
  - unfold Bytes.write_word, Bytes.node_prev. rewrite field_small by lia.
    apply write_store, Hst.
  - split; [unfold store; rewrite HM; reflexivity|].
    split; [intros x Hx; apply lookup_insert_ne; congruence|].
    eapply stored_write_in;
      [exact Hs | exact HK | exact Hst | exact Ha | lia | lia |].
    apply (node_at_set_prev _ _ _ _ _ Hst Hv); [lia | lia | exact Hat].
Qed.

Lemma write_next_sim m b M K a v :
  Bytes.stored T m P b M K -> K ⊆ L -> total_size b = total ->
  a ∈ K -> 0 <= v < 2 ^ w ->
  exists m' M',
    Bytes.write_word T (Bytes.node_next T a) v m = Bytes.Done tt m' /\
    store a (set_next v) M = Some M' /\
    (forall x, x <> a -> M' !! x = M !! x) /\
    Bytes.stored T m' P b M' K.
Proof.
  intros Hs HK Ht Ha Hv. destruct word_facts as (Hw & Hn & Hb & Hpow).
  destruct (Hinside a (HK a Ha)) as [Ha1 Ha2].
  destruct (stored_node m b M K a Hs Ha) as (n & HM & Hat).
  destruct (stored_store (Bytes.word T) m b M K (a + 3 * W) v Hs Ht)
    as [m' Hst]; [lia | lia |].
  exists m', (<[a := set_next v n]> M). split.
  - unfold Bytes.write_word, Bytes.node_next. rewrite field_small by lia.
    apply write_store, Hst.
  - split; [unfold store; rewrite HM; reflexivity|].
    split; [intros x Hx; apply lookup_insert_ne; congruence|].
    eapply stored_write_in;
      [exact Hs | exact HK | exact Hst | exact Ha | lia | lia |].
    apply (node_at_set_next _ _ _ _ _ Hst Hv); [lia | lia | exact Hat].
Qed.

(** The five statements that fill in a new header. *)
Lemma new_node_sim m b M K a sz pv nx :
  Bytes.stored T m P b M K -> K ⊆ L -> total_size b = total ->
  a ∈ L -> a ∉ K ->
  0 <= sz < 2 ^ w -> 0 <= pv < 2 ^ w -> 0 <= nx < 2 ^ w ->
  exists m1 m2 m3 m4 m5,
    Bytes.write_word T (Bytes.node_size T a) sz m = Bytes.Done tt m1 /\
    Bytes.write_bool (Bytes.node_is_used T a) true m1 = Bytes.Done tt m2 /\
    Bytes.write_word T (Bytes.node_prev T a) pv m2 = Bytes.Done tt m3 /\
    Bytes.write_word T (Bytes.node_next T a) nx m3 = Bytes.Done tt m4 /\
    Bytes.write_word T (Bytes.node_pool T a) P m4 = Bytes.Done tt m5 /\
    Bytes.stored T m3 P b M K /\
    Bytes.stored T m5 P b (<[a := Node sz true pv nx P]> M) (a :: K).
Proof.
  intros Hs HK Ht Ha Hna Hsz Hpv Hnx.
  destruct word_facts as (Hw & Hn & Hb & Hpow).
  destruct (Hinside a Ha) as [Ha1 Ha2].
  destruct (init_node m b M K a sz pv nx Hs HK Ht Ha Hna Hsz Hpv Hnx)
    as (m1 & m2 & m3 & m4 & m5 & H1 & H2 & H3 & H4 & H5 & _ & _ & Hs3 & _ & Hs5).
  exists m1, m2, m3, m4, m5.
  unfold Bytes.write_word, Bytes.write_bool, Bytes.node_size,
    Bytes.node_is_used, Bytes.node_prev, Bytes.node_next, Bytes.node_pool.
  rewrite !field_small by lia.
  replace (a + 0 * W) with a by lia. replace (a + 1 * W) with (a + W) by lia.
  rewrite (write_store _ _ _ _ _ H1), (write_store _ _ _ _ _ H2),
    (write_store _ _ _ _ _ H3), (write_store _ _ _ _ _ H4),
    (write_store _ _ _ _ _ H5).
  do 5 (split; [reflexivity|]). split; assumption.
Qed.

(** The loop of [pool_alloc] over the bytes follows the loop over the
    headers along the list. *)
Lemma scan_gaps_sim m b M K sz :
  Bytes.stored T m P b M K -> K ⊆ L -> total_size b = total ->
  upper_limit b = P + total -> 0 <= sz < 2 ^ w ->
  forall l2 pv p fuel fuelB q st',
    dllseg M P pv p l2 0 -> l2.*1 ⊆ K ->
    (forall r, r ∈ l2 -> 0 <= snd r /\ end_of T r <= P + total) ->
    (length l2 < fuelB)%nat ->
    scan_gaps T fuel (Arena P b M) sz p = Ret q st' ->
    (q <> 0 -> q - hn ∈ L /\ q - hn ∉ K) ->
    exists m',
      Bytes.scan_gaps T fuelB P sz p m = Bytes.Done q m' /\
      (q = 0 -> m' = m /\ st' = Arena P b M) /\
      (q <> 0 ->
       pool_addr st' = P /\ total_size (header st') = total /\
       upper_limit (header st') = P + total /\
       Bytes.stored T m' P (header st') (nodes st') ((q - hn) :: K)).
Proof.
  intros Hs HK Ht Hup Hsz.
  destruct word_facts as (Hw & Hn & Hb & Hpow).
  induction l2 as [|r l2 IH]; intros pv p fuel fuelB q st' Hseg Hl2 Hr Hfuel Hscan Hq;
    (destruct fuel as [|fuel]; [discriminate|]);
    (destruct fuelB as [|fuelB]; [simpl in Hfuel; lia|]).
  - simpl in Hseg. subst p. simpl in Hscan. injection Hscan as <- <-.
    exists m. split; [reflexivity|]. split; [tauto | congruence].
  - simpl in Hseg. destruct Hseg as (-> & Hnz & n' & Hlk & Hrest).
    assert (Hcur : fst r ∈ K) by (apply Hl2; simpl; apply list_elem_of_here).
    destruct (Hinside _ (HK _ Hcur)) as [Hc1 Hc2].
    destruct (Hr r ltac:(apply list_elem_of_here)) as [Hr1 Hr2].
    unfold end_of in Hr2.
    cbn [scan_gaps Bytes.scan_gaps] in *. cbn [pool_addr header nodes] in Hscan.
    destruct (Z.eqb_spec (fst r) 0) as [|_]; [contradiction|].
    rewrite Hlk in Hscan. cbn [size next] in Hscan.
    destruct (stored_node m b M K _ Hs Hcur) as (n0 & Hn0 & Hat).
    rewrite Hlk in Hn0. injection Hn0 as <-.
    pose proof Hat as (A1 & _ & _ & A4 & _). cbn [size next] in A1, A4.
    pose proof (Bytes.stored_block _ _ _ _ _ _ Hs) as (_ & B2 & _).
    bind_with (read_word_load m _ _ A1).
    rewrite (wrap_small T (fst r + hn + snd r)) by lia. cbv zeta.
    bind_with (read_word_load m _ _ A4).
    set (ce := fst r + hn + snd r) in *.
    set (gap := if n' =? 0 then wrap T (upper_limit b - ce)
                else wrap T (n' - ce)) in *.
    assert (Hgap :
      (if n' =? 0
       then Bytes.read_word T (Bytes.pool_upper_limit T P) ≫= fun upper =>
            mret (wrap T (upper - ce))
       else Bytes.read_word T (Bytes.node_next T (fst r)) ≫= fun nx =>
            mret (wrap T (nx - ce))) m = Bytes.Done gap m).
    { unfold gap. destruct (n' =? 0).
      - bind_with (read_word_load m _ _ B2). reflexivity.
      - bind_with (read_word_load m _ _ A4). reflexivity. }
    bind_with Hgap.
    assert (Hnext : n' = 0 \/ n' ∈ K).
    { destruct l2 as [|r2 l3]; simpl in Hrest; [left; exact Hrest|].
      right. destruct Hrest as (-> & _). apply Hl2. simpl.
      apply list_elem_of_further, list_elem_of_here. }
    destruct (wrap T (sz + hn) <=? gap).
    + (* the record is linked in after [r] *)
      destruct (if n' =? 0 then _ else _) as [M2|] eqn:E2 in Hscan;
        [|discriminate].
      destruct (store (fst r) _ M2) as [M3|] eqn:E3; [|discriminate].
      injection Hscan as <- <-.
      destruct (Hq ltac:(lia)) as [Hce Hnew].
      replace (ce + hn - hn) with ce in * by lia.
      destruct (Hinside _ Hce) as [He1 He2].
      assert (Hn'r : 0 <= n' < 2 ^ w).
      { destruct Hnext as [-> | Hn']; [lia|].
        destruct (Hinside _ (HK _ Hn')). lia. }
      destruct (new_node_sim m b M K ce sz (fst r) n' Hs HK Ht Hce Hnew)
        as (m1 & m2 & m3 & m4 & m5 & W1 & W2 & W3 & W4 & W5 & Hs3 & Hs5);
        [lia | lia | lia |].
      bind_with W1. bind_with W2. bind_with W3.
      destruct (stored_node m3 b M K _ Hs3 Hcur) as (n3 & Hn3 & Hat3).
      rewrite Hlk in Hn3. injection Hn3 as <-.
      pose proof Hat3 as (_ & _ & _ & A4' & _). cbn [next] in A4'.
      bind_with (read_word_load m3 _ _ A4').
      bind_with W4. bind_with W5.
      set (M5 := <[ce := Node sz true (fst r) n' P]> M) in *.
      assert (HK5 : ce :: K ⊆ L).
      { intros x Hx. apply elem_of_cons in Hx as [-> | Hx]; [exact Hce|].
        apply HK, Hx. }
      assert (Hcur5 : fst r ∈ ce :: K) by (apply list_elem_of_further, Hcur).
      assert (Hne : fst r <> ce) by (intros E; rewrite <- E in Hnew; contradiction).
      destruct (stored_node m5 b M5 _ _ Hs5 Hcur5) as (n5 & Hn5 & Hat5).
      unfold M5 in Hn5. rewrite lookup_insert_ne in Hn5 by congruence.
      rewrite Hlk in Hn5. injection Hn5 as <-.
      pose proof Hat5 as (_ & _ & _ & A4'' & _). cbn [next] in A4''.
      bind_with (read_word_load m5 _ _ A4'').
      assert (Hlink : exists m6,
        (if n' =? 0 then mret tt
         else Bytes.read_word T (Bytes.node_next T (fst r)) ≫= fun nx =>
              Bytes.write_word T (Bytes.node_prev T nx) ce) m5
        = Bytes.Done tt m6 /\
        Bytes.stored T m6 P b M2 (ce :: K)).
      { destruct (Z.eqb_spec n' 0) as [E0 | Hne0].
        - injection E2 as <-. exists m5. split; [reflexivity | exact Hs5].
        - destruct Hnext as [|Hn']; [contradiction|].
          bind_with (read_word_load m5 _ _ A4'').
          destruct (write_prev_sim m5 b M5 (ce :: K) n' ce Hs5 HK5 Ht
                      ltac:(apply list_elem_of_further, Hn') ltac:(lia))
            as (m6 & M6 & W6 & E6 & _ & Hs6).
          rewrite E6 in E2. injection E2 as <-.
          exists m6. split; [exact W6 | exact Hs6]. }
      destruct Hlink as (m6 & W6 & Hs6). bind_with W6.
      destruct (write_next_sim m6 b M2 (ce :: K) (fst r) ce Hs6 HK5 Ht Hcur5
                  ltac:(lia)) as (m7 & M7 & W7 & E7 & _ & Hs7).
      rewrite E7 in E3. injection E3 as <-. bind_with W7.
      destruct (charge_sim m7 b M7 (ce :: K) sz Hs7 HK5 Ht)
        as (m8 & W8 & Hs8).
      bind_with W8.
      rewrite (wrap_small T (ce + hn)) by lia.
      exists m8. split; [reflexivity|]. split; [lia|]. intros _.
      cbn [pool_addr header nodes charge total_size upper_limit].
      split; [reflexivity|]. split; [exact Ht|]. split; [exact Hup|].
      exact Hs8.
    + (* the walk goes on *)
      bind_with (read_word_load m _ _ A4).
      apply (IH (fst r) n' fuel fuelB q st' Hrest); try assumption.
      * intros x Hx. apply Hl2. simpl. apply list_elem_of_further, Hx.
      * intros r0 Hr0. apply Hr. apply list_elem_of_further, Hr0.
      * simpl in Hfuel. lia.
Qed.

(** [pool_alloc] over the bytes does what [pool_alloc] over the headers
    says, when the headers of the list are in the bytes and the new header,
    if any, lies apart from them. *)
Lemma pool_alloc_sim m b M K s l q st' :
  Bytes.stored T m P b M K -> K ⊆ L -> total_size b = total ->
  upper_limit b = P + total ->
  dllseg M P 0 (first b) l 0 -> l.*1 ⊆ K ->
  (forall r, r ∈ l -> 0 <= snd r /\ end_of T r <= P + total) ->
  (length l <= stdpp.base.size m)%nat ->
  pool_alloc T (Arena P b M) s = Ret q st' ->
  (q <> 0 -> q - hn ∈ L /\ q - hn ∉ K) ->
  exists m',
    Bytes.pool_alloc T P s m = Bytes.Done q m' /\
    (q = 0 -> m' = m /\ st' = Arena P b M) /\
    (q <> 0 ->
     pool_addr st' = P /\ total_size (header st') = total /\
     upper_limit (header st') = P + total /\
     Bytes.stored T m' P (header st') (nodes st') ((q - hn) :: K)).
Proof.
  intros Hs HK Ht Hup Hseg Hl Hr Hlen Hal Hq.
  destruct word_facts as (Hw & Hn & Hb & Hpow).
  pose proof (align_size_range T HT s) as Hsz.
  pose proof (Bytes.stored_block _ _ _ _ _ _ Hs) as (B1 & B2 & B3 & B4 & B5).
  unfold pool_alloc in Hal. unfold Bytes.pool_alloc.
  cbn [pool_addr header nodes] in Hal.
  destruct (Z.eqb_spec P 0) as [|_]; [lia|]. cbn [negb].
  bind_with (eq_refl : Bytes.assert true m = Bytes.Done tt m).
  cbv zeta in *. set (sz := align_size T s) in *.
  destruct (sz =? 0).
  { injection Hal as <- <-. exists m. split; [reflexivity|].
    split; [tauto | congruence]. }
  bind_with (read_word_load m _ _ B3).
  bind_with (read_word_load m _ _ B4).
  destruct (wrap T (total_size b - used_memory b) <? wrap T (sz + hn)).
  { injection Hal as <- <-. exists m. split; [reflexivity|].
    split; [tauto | congruence]. }
  bind_with (read_word_load m _ _ B1).
  rewrite (wrap_small T (P + hb)) by lia.
  assert (Hfirst : first b = 0 \/ first b ∈ K).
  { destruct l as [|r0 l0]; simpl in Hseg; [left; exact Hseg|].
    right. destruct Hseg as (-> & _). apply Hl. simpl.
    apply list_elem_of_here. }
  assert (Hfr : 0 <= first b < 2 ^ w).
  { destruct Hfirst as [-> | Hf]; [lia|].
    destruct (Hinside _ (HK _ Hf)). lia. }
  destruct (Z.eqb_spec (first b) 0) as [E0 | Hne0].
  - (* the pool is empty *)
    injection Hal as <- <-.
    destruct (Hq ltac:(lia)) as [Hps Hnew].
    replace (P + hb + hn - hn) with (P + hb) in * by lia.
    destruct (Hinside _ Hps) as [He1 He2].
    destruct (new_node_sim m b M K (P + hb) sz 0 0 Hs HK Ht Hps Hnew)
      as (m1 & m2 & m3 & m4 & m5 & W1 & W2 & W3 & W4 & W5 & Hs3 & Hs5);
      [lia | lia | lia |].
    bind_with W1. bind_with W2. bind_with W3. bind_with W4. bind_with W5.
    assert (HK5 : (P + hb) :: K ⊆ L).
    { intros x Hx. apply elem_of_cons in Hx as [-> | Hx]; [exact Hps|].
      apply HK, Hx. }
    destruct (write_first_sim m5 b _ _ (P + hb) Hs5 HK5 Ht ltac:(lia))
      as (m6 & W6 & Hs6).
    bind_with W6.
    destruct (charge_sim m6 _ _ _ sz Hs6 HK5 Ht) as (m7 & W7 & Hs7).
    bind_with W7.
    rewrite (wrap_small T (P + hb + hn)) by lia.
    exists m7. split; [reflexivity|]. split; [lia|]. intros _.
    cbn [pool_addr header nodes charge total_size upper_limit].
    split; [reflexivity|]. split; [exact Ht|]. split; [exact Hup|].
    exact Hs7.
  - destruct Hfirst as [|Hf]; [contradiction|].
    bind_with (read_word_load m _ _ B1).
    destruct (wrap T (sz + hn) <=? wrap T (first b - (P + hb))).
    + (* before the first record *)
      destruct (store (first b) _ _) as [M2|] eqn:E2 in Hal; [|discriminate].
      injection Hal as <- <-.
      destruct (Hq ltac:(lia)) as [Hps Hnew].
      replace (P + hb + hn - hn) with (P + hb) in * by lia.
      destruct (Hinside _ Hps) as [He1 He2].
      destruct (new_node_sim m b M K (P + hb) sz 0 (first b) Hs HK Ht Hps Hnew)
        as (m1 & m2 & m3 & m4 & m5 & W1 & W2 & W3 & W4 & W5 & Hs3 & Hs5);
        [lia | lia | lia |].
      bind_with W1. bind_with W2. bind_with W3.
      pose proof (Bytes.stored_block _ _ _ _ _ _ Hs3) as (B1' & _).
      bind_with (read_word_load m3 _ _ B1').
      bind_with W4. bind_with W5.
      pose proof (Bytes.stored_block _ _ _ _ _ _ Hs5) as (B1'' & _).
      bind_with (read_word_load m5 _ _ B1'').
      assert (HK5 : (P + hb) :: K ⊆ L).
      { intros x Hx. apply elem_of_cons in Hx as [-> | Hx]; [exact Hps|].
        apply HK, Hx. }
      destruct (write_prev_sim m5 b _ ((P + hb) :: K) (first b) (P + hb)
                  Hs5 HK5 Ht ltac:(apply list_elem_of_further, Hf)
                  ltac:(lia))
        as (m6 & M6 & W6 & E6 & _ & Hs6).
      rewrite E6 in E2. injection E2 as <-. bind_with W6.
      destruct (write_first_sim m6 b _ _ (P + hb) Hs6 HK5 Ht ltac:(lia))
        as (m7 & W7 & Hs7).
      bind_with W7.
      destruct (charge_sim m7 _ _ _ sz Hs7 HK5 Ht) as (m8 & W8 & Hs8).
      bind_with W8.
      rewrite (wrap_small T (P + hb + hn)) by lia.
      exists m8. split; [reflexivity|]. split; [lia|]. intros _.
      cbn [pool_addr header nodes charge total_size upper_limit].
      split; [reflexivity|]. split; [exact Ht|]. split; [exact Hup|].
      exact Hs8.
    + (* after a record *)
      bind_with (read_word_load m _ _ B1). unfold Bytes.walk.
      eapply (scan_gaps_sim m b M K sz Hs HK Ht Hup Hsz l 0 (first b));
        try eassumption. lia.
Qed.

(** [pool_free] over the bytes does what [pool_free] over the headers says,
    for the header [n] of a live record whose neighbours are live records. *)
Lemma pool_free_sim m b M a n :
  Bytes.stored T m P b M L -> total_size b = total ->
  a ∈ L -> M !! a = Some n -> is_used n = true -> pool n = P ->
  0 <= size n < 2 ^ w ->
  (prev n = 0 \/ prev n ∈ L) -> (next n = 0 \/ next n ∈ L) ->
  prev n <> a -> next n <> a ->
  exists m' st',
    Bytes.pool_free T (a + hn) m = Bytes.Done tt m' /\
    pool_free T (Arena P b M) (a + hn) = Ret tt st' /\
    pool_addr st' = P /\ total_size (header st') = total /\
    Bytes.stored T m' P (header st') (nodes st') L /\
    exists n', nodes st' !! a = Some n' /\ is_used n' = false.
Proof.
  intros Hh Ht Ha HM Hused Hpool Hsz Hpv Hnx Hpva Hnxa.
  destruct word_facts as (Hw & Hn & Hb & Hpow).
  destruct (Hinside a Ha) as [Ha1 Ha2].
  assert (Hrange : forall x, x = 0 \/ x ∈ L -> 0 <= x < 2 ^ w).
  { intros x [-> | Hx]; [lia|]. destruct (Hinside x Hx). lia. }
  pose proof (Hrange _ Hpv) as Hpvr. pose proof (Hrange _ Hnx) as Hnxr.
  (* the addresses of the fields *)
  assert (Ef : forall x k, 0 <= k <= 4 -> P <= x -> x + hn <= P + total ->
                           Bytes.field T x k = x + k * W).
  { intros x k Hk Hx1 Hx2. apply field_small. nia. }
  assert (Ea : forall k, 0 <= k <= 4 -> Bytes.field T a k = a + k * W)
    by (intros k Hk; apply Ef; lia).
  assert (EP : forall k, 0 <= k <= 4 -> Bytes.field T P k = P + k * W)
    by (intros k Hk; apply Ef; lia).
  unfold Bytes.pool_free, pool_free. cbn [pool_addr header nodes].
  destruct (Z.eqb_spec (a + hn) 0) as [|_]; [lia|].
  replace (a + hn - hn) with a by lia.
  rewrite (wrap_small T a) by lia. cbv zeta.
  rewrite HM, Hused, Hpool, Z.eqb_refl. cbn [negb].
  (* the assertion *)
  destruct (stored_node m b M L a Hh Ha) as (n0 & Hn0 & Hat).
  rewrite HM in Hn0. injection Hn0 as <-.
  pose proof Hat as (A1 & A2 & A3 & A4 & A5).
  rewrite Hused in A2. rewrite Hpool in A5.
  pose proof (Bytes.stored_block _ _ _ _ _ _ Hh) as (B1 & B2 & B3 & B4 & B5).
  cbn [pool_addr header] in B1, B2, B3, B4, B5.
  bind_with (read_bool_load m _ true A2).
  bind_with (eq_refl : Bytes.assert true m = Bytes.Done tt m).
  (* used memory *)
  bind_with (read_word_load m _ _ A5).
  bind_with (read_word_load m _ _ B4).
  bind_with (read_word_load m _ _ A1).
  set (used := wrap T (used_memory b - wrap T (size n + hn))).
  destruct (stored_store (Bytes.word T) m b M L (P + 3 * W) used Hh Ht)
    as [m1 Hst1]; [lia | lia |].
  assert (Hh1 : Bytes.stored T m1 P
                  (Block (first b) (upper_limit b) (total_size b)
                                  used (num_allocations b)) M L).
  { eapply stored_write_block;
        [exact Hh | reflexivity | exact Ht | exact Hst1 | lia | lia | | exact Ht].
    apply (block_at_set_used _ _ _ _ _ Hst1);
      [apply (wrap_range T HT) | lia | lia |].
    exact (Bytes.stored_block _ _ _ _ _ _ Hh). }
  unfold Bytes.write_word, Bytes.pool_used_memory at 1. rewrite EP by lia.
  bind_with (write_store _ _ _ _ _ Hst1).
  clear A1 A2 A3 A4 A5 B1 B2 B3 B4 B5 Hat.
  (* number of allocations *)
  destruct (stored_node m1 _ M L a Hh1 Ha) as (n1 & Hn1 & Hat).
  rewrite HM in Hn1. injection Hn1 as <-.
  pose proof Hat as (_ & _ & _ & _ & A5). rewrite Hpool in A5.
  pose proof (Bytes.stored_block _ _ _ _ _ _ Hh1) as (_ & _ & _ & _ & B5).
  cbn [pool_addr header num_allocations] in B5.
  bind_with (read_word_load m1 _ _ A5).
  bind_with (read_word_load m1 _ _ B5).
  set (count := wrap T (num_allocations b - 1)).
  destruct (stored_store (Bytes.word T) m1 _ M L (P + 4 * W) count Hh1 Ht)
    as [m2 Hst2]; [lia | lia |].
  assert (Hh2 : Bytes.stored T m2 P
                  (Block (first b) (upper_limit b) (total_size b)
                                  used count) M L).
  { eapply stored_write_block;
        [exact Hh1 | reflexivity | exact Ht | exact Hst2 | lia | lia | | exact Ht].
    apply (block_at_set_count _ _ _ _ _ Hst2 (wrap_range T HT _)
             ltac:(lia) ltac:(lia) (Bytes.stored_block _ _ _ _ _ _ Hh1)). }
  unfold Bytes.pool_num_allocations at 1. rewrite EP by lia.
  bind_with (write_store _ _ _ _ _ Hst2).
  clear A5 B5 Hat.
  (* the record is marked free *)
  destruct (stored_node m2 _ M L a Hh2 Ha) as (n2 & Hn2 & Hat).
  rewrite HM in Hn2. injection Hn2 as <-.
  destruct (stored_store 1%nat m2 _ M L (a + W) 0 Hh2 Ht)
    as [m3 Hst3]; [lia | lia |].
  set (M3 := <[a := set_is_used false n]> M).
  assert (Hh3 : Bytes.stored T m3 P
                  (Block (first b) (upper_limit b) (total_size b)
                                  used count) M3 L).
  { eapply stored_write_live;
        [exact Hh2 | exact Hst3 | exact Ha | lia | lia |].
    apply (node_at_set_is_used m2 false m3 a n Hst3); [lia | lia | exact Hat]. }
  unfold Bytes.write_bool, Bytes.node_is_used.
  rewrite Ea by lia. replace (a + 1 * W) with (a + W) by lia.
  bind_with (write_store _ _ _ _ _ Hst3).
  clear Hat.
  assert (HM3 : M3 !! a = Some (set_is_used false n))
    by apply lookup_insert_eq.
  (* the list *)
  destruct (stored_node m3 _ M3 L a Hh3 Ha) as (n3 & Hn3 & Hat).
  rewrite HM3 in Hn3. injection Hn3 as <-.
  pose proof Hat as (_ & _ & A3 & A4 & A5).
  cbn [set_is_used prev next pool] in A3, A4, A5. rewrite Hpool in A5.
  bind_with (read_word_load m3 _ _ A3).
  set (b3 := fun fst => Block fst (upper_limit b) (total_size b) used count).
  assert (Hphase1 : exists m4 fst4 M4,
    (if negb (prev n =? 0)
     then Bytes.read_word T (Bytes.node_prev T a) ≫= fun pv =>
          Bytes.read_word T (Bytes.node_next T a) ≫= fun nx =>
          Bytes.write (Bytes.word T) (Bytes.node_next T pv) nx
     else Bytes.read_word T (Bytes.node_pool T a) ≫= fun pl =>
          Bytes.read_word T (Bytes.node_next T a) ≫= fun nx =>
          Bytes.write (Bytes.word T) (Bytes.pool_first T pl) nx) m3
    = Bytes.Done tt m4 /\
    (if prev n =? 0 then Some (next n, M3)
     else option_map (pair (first b))
                     (store (prev n) (set_next (next n)) M3))
    = Some (fst4, M4) /\
    Bytes.stored T m4 P (b3 fst4) M4 L /\
    M4 !! a = Some (set_is_used false n)).
  { destruct (Z.eqb_spec (prev n) 0) as [E0 | Hne0]; cbn [negb].
    - bind_with (read_word_load m3 _ _ A5).
      bind_with (read_word_load m3 _ _ A4).
      destruct (stored_store (Bytes.word T) m3 _ M3 L P (next n) Hh3 Ht)
        as [m4 Hst4]; [lia | lia |].
      unfold Bytes.pool_first. rewrite EP by lia.
      replace (P + 0 * W) with P by lia.
      rewrite (write_store _ _ _ _ _ Hst4).
      exists m4, (next n), M3. split; [reflexivity|].
      split; [reflexivity|]. split; [|exact HM3].
      eapply stored_write_block;
        [exact Hh3 | reflexivity | exact Ht | exact Hst4 | lia | lia | | exact Ht].
      apply (block_at_set_first _ _ _ _ _ Hst4 Hnxr
               ltac:(lia) ltac:(lia) (Bytes.stored_block _ _ _ _ _ _ Hh3)).
    - destruct Hpv as [|Hpv]; [contradiction|].
      destruct (Hinside _ Hpv) as [Hp1 Hp2].
      bind_with (read_word_load m3 _ _ A3).
      bind_with (read_word_load m3 _ _ A4).
      destruct (stored_node m3 _ M3 L _ Hh3 Hpv) as (npv & HMpv & Hatpv).
      destruct (stored_store (Bytes.word T) m3 _ M3 L (prev n + 3 * W) (next n)
                  Hh3 Ht) as [m4 Hst4]; [lia | lia |].
      unfold Bytes.node_next at 1. rewrite Ef by lia.
      rewrite (write_store _ _ _ _ _ Hst4).
      exists m4, (first b), (<[prev n := set_next (next n) npv]> M3).
      split; [reflexivity|].
      split; [unfold store; rewrite HMpv; reflexivity|].
      split; [|rewrite lookup_insert_ne by exact Hpva; exact HM3].
      eapply stored_write_live;
        [exact Hh3 | exact Hst4 | exact Hpv | lia | lia |].
      apply (node_at_set_next _ _ _ _ _ Hst4 Hnxr); [lia | lia | exact Hatpv]. }
  destruct Hphase1 as (m4 & fst4 & M4 & Hrun4 & Hun4 & Hh4 & HM4).
  bind_with Hrun4.
  clear A3 A4 A5 Hat.
  destruct (stored_node m4 _ M4 L a Hh4 Ha) as (n4 & Hn4 & Hat).
  rewrite HM4 in Hn4. injection Hn4 as <-.
  pose proof Hat as (_ & _ & A3 & A4 & _).
  cbn [set_is_used prev next pool] in A3, A4.
  bind_with (read_word_load m4 _ _ A4).
  assert (Hphase2 : exists m5 M5,
    (if negb (next n =? 0)
     then Bytes.read_word T (Bytes.node_next T a) ≫= fun nx =>
          Bytes.read_word T (Bytes.node_prev T a) ≫= fun pv =>
          Bytes.write (Bytes.word T) (Bytes.node_prev T nx) pv
     else mret tt) m4
    = Bytes.Done tt m5 /\
    (if next n =? 0 then Some M4
     else store (next n) (set_prev (prev n)) M4) = Some M5 /\
    Bytes.stored T m5 P (b3 fst4) M5 L /\
    M5 !! a = Some (set_is_used false n)).
  { destruct (Z.eqb_spec (next n) 0) as [E0 | Hne0]; cbn [negb].
    - exists m4, M4. split; [reflexivity|]. split; [reflexivity|].
      split; assumption.
    - destruct Hnx as [|Hnx]; [contradiction|].
      destruct (Hinside _ Hnx) as [Hp1 Hp2].
      bind_with (read_word_load m4 _ _ A4).
      bind_with (read_word_load m4 _ _ A3).
      destruct (stored_node m4 _ M4 L _ Hh4 Hnx) as (nnx & HMnx & Hatnx).
      destruct (stored_store (Bytes.word T) m4 _ M4 L (next n + 2 * W) (prev n)
                  Hh4 Ht) as [m5 Hst5]; [lia | lia |].
      unfold Bytes.node_prev at 1. rewrite Ef by lia.
      rewrite (write_store _ _ _ _ _ Hst5).
      exists m5, (<[next n := set_prev (prev n) nnx]> M4).
      split; [reflexivity|].
      split; [unfold store; rewrite HMnx; reflexivity|].
      split; [|rewrite lookup_insert_ne by exact Hnxa; exact HM4].
      eapply stored_write_live;
        [exact Hh4 | exact Hst5 | exact Hnx | lia | lia |].
      apply (node_at_set_prev _ _ _ _ _ Hst5 Hpvr); [lia | lia | exact Hatnx]. }
  destruct Hphase2 as (m5 & M5 & Hrun5 & Hun5 & Hh5 & HM5).
  rewrite Hrun5.
  unfold unlink. cbn [prev next]. rewrite Hun4, Hun5.
  exists m5. eexists. split; [reflexivity|]. split; [reflexivity|].
  cbn [pool_addr header nodes total_size].
  split; [reflexivity|]. split; [exact Ht|]. split; [exact Hh5|].
  exists (set_is_used false n). split; [exact HM5 | reflexivity].
Qed.

End Pool.

Lemma chain_geometry P total l :
  chain T (P + hb) l (P + total) ->
  hb <= total /\
  (forall a, a ∈ l.*1 -> P + hb <= a /\ a + hn <= P + total) /\
  (forall a a', a ∈ l.*1 -> a' ∈ l.*1 -> a <> a' ->
                a + hn <= a' \/ a' + hn <= a).
Proof.
  intros Hc. split; [pose proof (chain_le T HT _ _ _ Hc); lia|]. split.
  - intros a Ha. apply list_elem_of_fmap in Ha as (r & -> & Hr).
    destruct (chain_inside _ _ _ _ Hc Hr) as (H1 & H2 & H3).
    unfold end_of in H2. lia.
  - intros a a' Ha Ha' Hne.
    apply list_elem_of_fmap in Ha as (r & -> & Hr).
    apply list_elem_of_fmap in Ha' as (r' & -> & Hr').
    destruct (chain_inside _ _ _ _ Hc Hr) as (_ & _ & H3).
    destruct (chain_inside _ _ _ _ Hc Hr') as (_ & _ & H3').
    destruct (chain_apart _ _ _ _ _ Hc Hr Hr' Hne) as [H | H];
      unfold end_of in H; lia.
Qed.

Lemma last_addr_in l1 : forall pv,
  last_addr pv l1 = pv \/ last_addr pv l1 ∈ l1.*1.
Proof.
  induction l1 as [|r l1 IH]; simpl; intros pv; [left; reflexivity|].
  right. destruct (IH (fst r)) as [-> | H].
  - apply list_elem_of_here.
  - apply list_elem_of_further, H.
Qed.

Lemma head_addr_in l2 nx : head_addr l2 nx = nx \/ head_addr l2 nx ∈ l2.*1.
Proof. destruct l2; simpl; [left; reflexivity | right; apply list_elem_of_here]. Qed.

(** On a pool in good order that the bytes hold, [pool_free] of a live
    record does over the bytes what it does over the headers. *)
Lemma pool_free_bytes m st l1 r l2 :
  pool_wf T st (l1 ++ r :: l2) ->
  Bytes.holds T m st (l1 ++ r :: l2) ->
  exists m' st',
    Bytes.pool_free T (fst r + hn) m = Bytes.Done tt m' /\
    pool_free T st (fst r + hn) = Ret tt st' /\
    Bytes.holds T m' st' (l1 ++ r :: l2) /\
    exists n', nodes st' !! fst r = Some n' /\ is_used n' = false.
Proof.
  intros Hwf Hh. destruct st as [P b M].
  pose proof Hwf as [Hp Hup Hsp Hl Hc Hu Hcnt Hlive].
  cbn [pool_addr header nodes] in *. rewrite Hup in Hc.
  unfold Bytes.holds in *. cbn [pool_addr header nodes] in *.
  destruct (chain_geometry _ _ _ Hc) as (Hfit & Hinside & Hapart).
  pose proof (chain_NoDup T HT _ _ _ Hc) as Hnd.
  destruct (dllseg_lookup _ _ _ _ _ _ _ _ Hl) as [Hnz Hlk].
  assert (Hr : r ∈ l1 ++ r :: l2)
    by (apply elem_of_app; right; apply list_elem_of_here).
  assert (Ha : fst r ∈ (l1 ++ r :: l2).*1)
    by (apply list_elem_of_fmap; eauto).
  destruct (chain_inside _ _ _ _ Hc Hr) as (Hr1 & Hr2 & Hr3).
  unfold end_of in Hr2. pose proof (node_size_pos T HT) as Hhn.
  assert (Hbp : 0 < hb) by (destruct HT; assumption).
  rewrite fmap_app, fmap_cons in Hnd.
  apply NoDup_app in Hnd as (Hnd1 & Hdisj & Hnd2).
  apply NoDup_cons in Hnd2 as [Hr2' Hnd2].
  destruct (pool_free_sim P (total_size b) _ Hp Hsp Hfit Hinside Hapart
              m b M (fst r) _ Hh eq_refl Ha Hlk eq_refl eq_refl)
    as (m' & st' & H1 & H2 & H3 & H4 & H5 & H6); cbn [size prev next].
  - lia.
  - destruct (last_addr_in l1 0) as [-> | Hin]; [left; reflexivity|].
    right. rewrite fmap_app. apply elem_of_app. left. exact Hin.
  - destruct (head_addr_in l2 0) as [-> | Hin]; [left; reflexivity|].
    right. rewrite fmap_app, fmap_cons. apply elem_of_app. right.
    apply list_elem_of_further, Hin.
  - destruct (last_addr_in l1 0) as [-> | Hin]; [lia|].
    intros E. rewrite E in Hin. apply (Hdisj _ Hin). apply list_elem_of_here.
  - destruct (head_addr_in l2 0) as [-> | Hin]; [lia|].
    intros E. rewrite E in Hin. contradiction.
  - exists m', st'. split; [exact H1|]. split; [exact H2|].
    split; [|exact H6]. rewrite H3. exact H5.
Qed.

(** A header that is marked free stops [pool_free] at its assertion. *)
Lemma pool_free_bytes_abort m a n :
  0 <= a -> a + hn < 2 ^ w ->
  Bytes.node_at T m a n -> is_used n = false ->
  Bytes.pool_free T (a + hn) m = Bytes.Aborted.
Proof.
  intros H0 H1 (_ & A2 & _) Hu. rewrite Hu in A2.
  pose proof (node_size_pos T HT) as Hhn.
  unfold Bytes.pool_free.
  destruct (Z.eqb_spec (a + hn) 0) as [|_]; [lia|].
  replace (a + hn - hn) with a by lia.
  rewrite (wrap_small T a) by lia. cbv zeta.
  bind_with (read_bool_load m _ false A2). reflexivity.
Qed.

(** Apart from its assertion, nothing in [pool_free] stops the program by
    an assertion. *)
Lemma bind_no_abort {A B} (c : Bytes.M A) (f : A -> Bytes.M B) m :
  c m <> Bytes.Aborted -> (forall v m', f v m' <> Bytes.Aborted) ->
  (c ≫= f) m <> Bytes.Aborted.
Proof.
  intros Hc Hf. unfold mbind, Bytes.M_bind.
  destruct (c m); [apply Hf | congruence | discriminate | discriminate].
Qed.

Lemma read_no_abort k a m : Bytes.read k a m <> Bytes.Aborted.
Proof. unfold Bytes.read. destruct (Bytes.load_bytes k m a); discriminate. Qed.

Lemma write_no_abort k a v m : Bytes.write k a v m <> Bytes.Aborted.
Proof.
  unfold Bytes.write. destruct (Bytes.store_bytes k m a v); discriminate.
Qed.

Ltac no_abort :=
  repeat first
    [ apply read_no_abort
    | apply write_no_abort
    | discriminate
    | apply bind_no_abort; [|intros ? ?]
    | match goal with |- (if ?c then _ else _) _ <> _ => destruct c end ].

Lemma pool_free_abort_iff m ptr byte :
  ptr <> 0 ->
  m !! Bytes.node_is_used T (wrap T (ptr - hn)) = Some byte ->
  Bytes.pool_free T ptr m = Bytes.Aborted <-> byte = 0.
Proof.
  intros Hptr Hbyte. unfold Bytes.pool_free.
  destruct (Z.eqb_spec ptr 0) as [|_]; [contradiction|]. cbv zeta.
  assert (Hread : Bytes.read_bool (Bytes.node_is_used T (wrap T (ptr - hn))) m
                  = Bytes.Done (negb (byte =? 0)) m).
  { unfold Bytes.read_bool, Bytes.read, mbind, Bytes.M_bind. simpl.
    rewrite Hbyte. replace (byte + 256 * 0) with byte by lia. reflexivity. }
  bind_with Hread.
  destruct (Z.eqb_spec byte 0) as [E | Hne]; cbn [negb].
  - split; [intros _; exact E | intros _; reflexivity].
  - split; [|contradiction]. intros Habs. exfalso. revert Habs.
    unfold Bytes.read_word, Bytes.write_word, Bytes.write_bool.
    bind_with (eq_refl : Bytes.assert true m = Bytes.Done tt m).
    no_abort.
Qed.

(** [get_pool_stats] reads the three counters of the header. *)
Lemma get_pool_stats_bytes m st l :
  0 < pool_addr st -> Bytes.holds T m st l ->
  Bytes.get_pool_stats T (pool_addr st) m = Bytes.Done (get_pool_stats st) m.
Proof.
  intros Hp [_ (_ & _ & B3 & B4 & B5) _].
  unfold Bytes.get_pool_stats, get_pool_stats.
  destruct (Z.eqb_spec (pool_addr st) 0) as [|_]; [lia|]. cbn [negb].
  bind_with (eq_refl : Bytes.assert true m = Bytes.Done tt m).
  bind_with (read_word_load m _ _ B3).
  bind_with (read_word_load m _ _ B4).
  bind_with (read_word_load m _ _ B5). reflexivity.
Qed.

(** The region has at least as many bytes as the pool is large. *)
Lemma region_size m p len :
  Forall (fun a => is_Some (m !! a)) (seqZ p len) ->
  (Z.to_nat len <= stdpp.base.size m)%nat.
Proof.
  intros Hreg. rewrite <- (length_seqZ p len).
  rewrite <- (size_list_to_set (C := gset Z) (seqZ p len))
    by apply NoDup_seqZ.
  rewrite <- (size_dom (D := gset Z) m).
  apply subseteq_size. intros a Ha.
  apply elem_of_list_to_set in Ha. apply elem_of_dom.
  rewrite Forall_forall in Hreg. apply Hreg, Ha.
Qed.

(** On a pool in good order that the bytes hold, [pool_alloc] does over the
    bytes what it does over the headers. *)
Lemma pool_alloc_bytes m st l s q st' :
  pool_wf T st l -> Bytes.holds T m st l ->
  align_size T s + hn < 2 ^ w ->
  (l = [] ->
   align_size T s + hn <= upper_limit (header st) - (pool_addr st + hb)) ->
  pool_alloc T st s = Ret q st' ->
  exists m' l',
    Bytes.pool_alloc T (pool_addr st) s m = Bytes.Done q m' /\
    pool_wf T st' l' /\ Bytes.holds T m' st' l' /\
    pool_addr st' = pool_addr st /\
    total_size (header st') = total_size (header st) /\
    (q = 0 -> m' = m /\ st' = st /\ l' = l) /\
    (q <> 0 -> exists l1 l2,
       l = l1 ++ l2 /\ l' = l1 ++ (q - hn, align_size T s) :: l2).
Proof.
  intros Hwf Hh Hov Hroom Hal.
  pose proof (node_size_pos T HT) as Hhn.
  assert (Hbp : 0 < hb) by (destruct HT; assumption).
  pose proof Hwf as [Hp Hup Hsp Hl Hc Hu Hcnt Hlive].
  rewrite Hup in Hc.
  assert (Hrec : forall r, r ∈ l ->
            0 <= snd r /\ end_of T r <= pool_addr st + total_size (header st)).
  { intros r Hr. destruct (chain_inside _ _ _ _ Hc Hr) as (_ & H2 & H3). lia. }
  assert (Hlen : (length l <= stdpp.base.size m)%nat).
  { pose proof (region_size _ _ _ (Bytes.stored_region _ _ _ _ _ _ Hh)) as Hrs.
    pose proof (length_footprints T HT _ _ _ Hc) as Hlf.
    pose proof (chain_footprints T _ _ _ Hc) as Hfp. lia. }
  destruct (Z.eq_dec q 0) as [-> | Hq].
  - (* the call fails *)
    destruct (chain_geometry _ _ _ Hc) as (Hfit & Hinside & Hapart).
    destruct st as [P b M]. cbn [pool_addr header nodes] in *.
    destruct (pool_alloc_sim P (total_size b) _ Hp Hsp Hfit Hinside Hapart
                m b M _ s l 0 st' Hh ltac:(reflexivity) eq_refl Hup Hl
                ltac:(reflexivity) Hrec Hlen Hal ltac:(congruence))
      as (m' & Hb & H0 & _).
    destruct (H0 eq_refl) as [-> ->].
    exists m, l. split; [exact Hb|]. split; [exact Hwf|].
    split; [exact Hh|]. split; [reflexivity|]. split; [reflexivity|].
    split; [tauto | congruence].
  - (* the call places a record *)
    destruct (pool_alloc_success T HT st l s q st' Hwf Hov Hroom Hal Hq)
      as (l1 & l2 & -> & Hwf' & Hp' & Ht').
    set (l' := l1 ++ (q - hn, align_size T s) :: l2) in *.
    pose proof (wf_chain _ _ _ Hwf') as Hc'.
    rewrite (wf_upper _ _ _ Hwf'), Hp', Ht' in Hc'.
    destruct (chain_geometry _ _ _ Hc') as (Hfit & Hinside & Hapart).
    pose proof (chain_NoDup T HT _ _ _ Hc') as Hnd.
    unfold l' in Hnd. rewrite fmap_app, fmap_cons in Hnd.
    apply NoDup_app in Hnd as (_ & Hdisj & Hnd2).
    apply NoDup_cons in Hnd2 as [Hq2 _]. cbn [fst] in *.
    assert (HK : (l1 ++ l2).*1 ⊆ l'.*1).
    { unfold l'. intros x. rewrite !fmap_app, fmap_cons, !elem_of_app.
      rewrite elem_of_cons. tauto. }
    assert (Hin : q - hn ∈ l'.*1).
    { unfold l'. rewrite fmap_app, fmap_cons. apply elem_of_app. right.
      apply list_elem_of_here. }
    assert (Hnew : q - hn ∉ (l1 ++ l2).*1).
    { rewrite fmap_app. intros Hx. apply elem_of_app in Hx as [Hx | Hx];
        [apply (Hdisj _ Hx); apply list_elem_of_here | contradiction]. }
    destruct st as [P b M]. cbn [pool_addr header nodes] in *.
    destruct (pool_alloc_sim P (total_size b) _ Hp Hsp Hfit Hinside Hapart
                m b M _ s (l1 ++ l2) q st' Hh HK eq_refl Hup Hl
                ltac:(reflexivity) Hrec Hlen Hal ltac:(tauto))
      as (m' & Hb & _ & H1).
    destruct (H1 Hq) as (_ & _ & _ & Hs').
    exists m', l'. split; [exact Hb|]. split; [exact Hwf'|].
    split.
    { unfold Bytes.holds. rewrite Hp'.
      eapply stored_weaken; [exact Hs'|].
      unfold l'. intros x. rewrite !fmap_app, fmap_cons, !elem_of_app.
      rewrite !elem_of_cons, elem_of_app. cbn [fst]. tauto. }
    split; [exact Hp'|]. split; [exact Ht'|].
    split; [contradiction|]. intros _. exists l1, l2. split; reflexivity.
Qed.

(** *** The fresh pool *)

Lemma malloc_lookup junk p sz a :
  p <= a < p + sz -> Bytes.malloc junk p sz !! a = Some (junk a).
Proof.
  intros Ha. unfold Bytes.malloc.
  apply elem_of_list_to_map_1.
  - replace (((fun a0 : Z => (a0, junk a0)) <$> seqZ p sz).*1)
      with (seqZ p sz); [apply NoDup_seqZ|].
    induction (seqZ p sz) as [|x xs IH]; simpl; [reflexivity|].
    f_equal. exact IH.
  - apply list_elem_of_fmap. exists a. split; [reflexivity|].
    apply elem_of_seqZ. lia.
Qed.

Lemma memset_spec c : forall k a m,
  0 <= a -> a + Z.of_nat k < 2 ^ w ->
  (forall i, 0 <= i < Z.of_nat k -> is_Some (m !! (a + i))) ->
  exists m',
    Bytes.memset T k a c m = Bytes.Done tt m' /\
    (forall y, a <= y < a + Z.of_nat k -> m' !! y = Some (c mod 256)) /\
    (forall y, y < a \/ a + Z.of_nat k <= y -> m' !! y = m !! y).
Proof.
  induction k as [|k IH]; intros a m H0 H1 Hin.
  - exists m. split; [reflexivity|]. split; [intros y Hy; lia | reflexivity].
  - cbn [Bytes.memset].
    destruct (Hin 0 ltac:(lia)) as [b0 Hb0]. rewrite Z.add_0_r in Hb0.
    assert (Hst : Bytes.store_bytes 1 m a c = Some (<[a := c mod 256]> m))
      by (simpl; rewrite Hb0; reflexivity).
    bind_with (write_store _ _ _ _ _ Hst).
    rewrite (wrap_small T (a + 1)) by lia.
    destruct (IH (a + 1) (<[a := c mod 256]> m) ltac:(lia) ltac:(lia))
      as (m' & Hrun & Hset & Hfr).
    { intros i Hi. rewrite lookup_insert_ne by lia.
      replace (a + 1 + i) with (a + (1 + i)) by lia. apply Hin. lia. }
    exists m'. split; [exact Hrun|]. split.
    + intros y Hy. destruct (Z.eq_dec y a) as [-> | Hne].
      * rewrite Hfr by lia. apply lookup_insert_eq.
      * apply Hset. lia.
    + intros y Hy. rewrite Hfr by lia. apply lookup_insert_ne. lia.
Qed.

(** [create_memory_pool] leaves the bytes holding the empty pool, and every
    byte of the data area set to [0xCC]. *)
Lemma create_bytes junk p sz st :
  0 < p -> p + sz < 2 ^ w ->
  create_memory_pool T p sz = Some st ->
  exists m,
    Bytes.create_memory_pool T junk p sz = Bytes.Done p m /\
    Bytes.holds T m st [] /\
    forall a, p + hb <= a < p + sz -> m !! a = Some 204.
Proof.
  intros Hp Hsp Hc. destruct word_facts as (Hw & Hn & Hb & Hpow).
  pose proof (word_pos T HT) as Hword.
  unfold create_memory_pool in Hc. unfold Bytes.create_memory_pool.
  destruct (Z.ltb_spec sz (MIN_BLOCK_SIZE T)) as [|Hmin]; [discriminate|].
  destruct (Z.eqb_spec p 0) as [|_]; [lia|]. injection Hc as <-.
  unfold MIN_BLOCK_SIZE, MIN_ALIGNMENT in Hmin.
  rewrite wrap_small in Hmin by (destruct HT; lia).
  set (m0 := Bytes.malloc junk p sz).
  assert (H0 : forall y, p <= y < p + sz -> is_Some (m0 !! y)).
  { intros y Hy. unfold m0. rewrite malloc_lookup by exact Hy. eauto. }
  unfold Bytes.pool_first, Bytes.pool_upper_limit, Bytes.pool_total_size,
    Bytes.pool_used_memory, Bytes.pool_num_allocations, Bytes.write_word.
  rewrite !field_small by lia.
  rewrite (wrap_small T (p + sz)), (wrap_small T (sz - hb)),
    (wrap_small T (p + hb)) by lia.
  destruct (store_bytes_is_Some (Bytes.word T) m0 (p + 0 * W) 0) as [m1 S1];
    [intros i Hi; apply H0; lia|].
  assert (H1 : forall y, p <= y < p + sz -> is_Some (m1 !! y))
    by (intros y Hy; apply (store_bytes_dom _ _ _ _ _ _ S1), H0, Hy).
  destruct (store_bytes_is_Some (Bytes.word T) m1 (p + 1 * W) (p + sz))
    as [m2 S2]; [intros i Hi; apply H1; lia|].
  assert (H2 : forall y, p <= y < p + sz -> is_Some (m2 !! y))
    by (intros y Hy; apply (store_bytes_dom _ _ _ _ _ _ S2), H1, Hy).
  destruct (store_bytes_is_Some (Bytes.word T) m2 (p + 2 * W) sz)
    as [m3 S3]; [intros i Hi; apply H2; lia|].
  assert (H3 : forall y, p <= y < p + sz -> is_Some (m3 !! y))
    by (intros y Hy; apply (store_bytes_dom _ _ _ _ _ _ S3), H2, Hy).
  destruct (store_bytes_is_Some (Bytes.word T) m3 (p + 3 * W) 0)
    as [m4 S4]; [intros i Hi; apply H3; lia|].
  assert (H4 : forall y, p <= y < p + sz -> is_Some (m4 !! y))
    by (intros y Hy; apply (store_bytes_dom _ _ _ _ _ _ S4), H3, Hy).
  destruct (store_bytes_is_Some (Bytes.word T) m4 (p + 4 * W) 0)
    as [m5 S5]; [intros i Hi; apply H4; lia|].
  assert (H5 : forall y, p <= y < p + sz -> is_Some (m5 !! y))
    by (intros y Hy; apply (store_bytes_dom _ _ _ _ _ _ S5), H4, Hy).
  destruct (memset_spec 204 (Z.to_nat (sz - hb)) (p + hb) m5)
    as (m6 & Hrun & Hset & Hfr); [lia | lia | |].
  { intros i Hi. apply H5. lia. }
  bind_with (write_store _ _ _ _ _ S1). bind_with (write_store _ _ _ _ _ S2).
  bind_with (write_store _ _ _ _ _ S3). bind_with (write_store _ _ _ _ _ S4).
  bind_with (write_store _ _ _ _ _ S5). bind_with Hrun.
  exists m6. split; [reflexivity|]. split.
  - assert (Hload : forall y, y + W <= p + hb ->
              Bytes.load_bytes (Bytes.word T) m6 y
              = Bytes.load_bytes (Bytes.word T) m5 y).
    { intros y Hy. apply load_bytes_frame. intros i Hi. apply Hfr. lia. }
    constructor; cbn [pool_addr header nodes total_size].
    + rewrite Forall_forall. intros y Hy. apply elem_of_seqZ in Hy.
      destruct (Z.lt_ge_cases y (p + hb)) as [Hlt | Hge].
      * rewrite Hfr by lia. apply H5. lia.
      * rewrite Hset by lia. eauto.
    + apply block_at_fields; [lia | lia |].
      cbn [first upper_limit total_size used_memory num_allocations].
      replace (p + 0 * W) with p in S1 by lia.
      replace (p + 1 * W) with (p + W) in S2 by lia.
      rewrite !Hload by lia.
      rewrite (store_word_value _ _ _ _ _ S5 eq_refl) by lia.
      rewrite !(load_store_other _ _ _ _ _ _ _ S5) by lia.
      rewrite (store_word_value _ _ _ _ _ S4 eq_refl) by lia.
      rewrite !(load_store_other _ _ _ _ _ _ _ S4) by lia.
      rewrite (store_word_value _ _ _ _ _ S3 eq_refl) by lia.
      rewrite !(load_store_other _ _ _ _ _ _ _ S3) by lia.
      rewrite (store_word_value _ _ _ _ _ S2 eq_refl) by lia.
      rewrite !(load_store_other _ _ _ _ _ _ _ S2) by lia.
      rewrite (store_word_value _ _ _ _ _ S1 eq_refl) by lia.
      repeat split; reflexivity.
    + constructor.
  - intros y Hy. rewrite Hset by lia. reflexivity.
Qed.

End Fields.

(** ** The sample memories *)

Lemma LP64_layout : Bytes.natural_layout LP64.
Proof. repeat split; reflexivity. Qed.

Lemma bytes_empty_holds : Bytes.holds LP64 bytes_empty pool_empty [].
Proof.
  destruct (create_bytes LP64 LP64_ok LP64_layout (fun _ => 0) 4096 150
              pool_empty ltac:(lia) ltac:(simpl; lia) eq_refl)
    as (m & E & Hh & _).
  unfold bytes_empty. rewrite E. exact Hh.
Qed.

Lemma bytes_one_holds : Bytes.holds LP64 bytes_one pool_one [(4136, 16)].
Proof.
  destruct (pool_alloc_bytes LP64 LP64_ok LP64_layout bytes_empty pool_empty
              [] 12 4176 pool_one pool_empty_wf bytes_empty_holds)
    as (m & l' & E & _ & Hh & _ & _ & _ & Hl').
  - vm_compute. reflexivity.
  - intros _. vm_compute. discriminate.
  - vm_compute. reflexivity.
  - destruct (Hl' ltac:(lia)) as (l1 & l2 & E12 & ->).
    symmetry in E12. apply app_eq_nil in E12 as [-> ->].
    unfold bytes_one. cbn [pool_addr pool_empty] in E. rewrite E. exact Hh.
Qed.

(** * The claims of the specification *)

Section Claims.

Context (T : target) (HT : target_ok T) (HL : Bytes.natural_layout T).

Abbreviation w := (size_bits T).
Abbreviation hn := (sizeof_memory_node T).
Abbreviation hb := (sizeof_memory_block T).

Lemma positive_invariant st : reachable T st -> store_inv positive_ptr nonneg_size st.
Proof.
  pose proof (node_size_pos T HT) as Hhn.
  assert (Hb : 0 < hb) by (destruct HT; assumption).
  apply (reachable_inv T); unfold positive_ptr, nonneg_size.
  - intros b Hbp. lia.
  - intros b a sz Ha Hsz. lia.
  - intros s. apply (align_size_range T HT s).
Qed.

Lemma gaps_middle l1 l2 : forall lo hi,
  (last_end T lo l1, head_addr l2 hi - last_end T lo l1)
    ∈ gaps T lo (l1 ++ l2) hi.
Proof.
  induction l1 as [|r l1 IH]; simpl; intros lo hi.
  - destruct l2; simpl; apply list_elem_of_here.
  - apply list_elem_of_further, IH.
Qed.

Lemma place_at_last_end l1 l2 : forall lo hi need sz l',
  chain T lo (l1 ++ l2) hi ->
  place T lo (l1 ++ l2) hi need sz = Some (last_end T lo l1, l') ->
  l' = l1 ++ (last_end T lo l1, sz) :: l2.
Proof.
  induction l1 as [|r1 l1 IH]; intros lo hi need sz l' Hc E.
  - simpl in *. destruct l2 as [|r2 l2]; simpl in E.
    + destruct (need <=? hi - lo); congruence.
    + destruct (need <=? fst r2 - lo); [congruence|].
      destruct (place T (end_of T r2) l2 hi need sz) as [[q0 l0]|] eqn:E0;
        [|discriminate].
      injection E as Hq _.
      simpl in Hc. destruct Hc as (Hlo & Hsz & _ & Hc2).
      pose proof (place_lb T HT _ _ _ _ _ _ _ Hc2 E0).
      pose proof (end_of_gt T HT r2 Hsz). lia.
  - simpl in E, Hc. destruct Hc as (Hlo & Hsz & _ & Hc2).
    pose proof (end_of_gt T HT r1 Hsz) as Hgt.
    assert (end_of T r1 <= last_end T (end_of T r1) l1).
    { apply chain_app in Hc2 as [Hc2 _]. apply (chain_le T HT _ _ _ Hc2). }
    destruct (need <=? fst r1 - lo).
    + injection E as Hq _. lia.
    + destruct (place T (end_of T r1) (l1 ++ l2) hi need sz)
        as [[q0 l0]|] eqn:E0; [|discriminate].
      injection E as Hq <-. subst q0. simpl.
      f_equal. apply (IH _ _ _ _ _ Hc2 E0).
Qed.

Lemma align_size_small s :
  0 <= s < 200 -> align_size T s = 8 * ((s + 7) / 8).
Proof.
  intros Hs. pose proof (word_pos T HT).
  rewrite (align_size_eq T HT), wrap_small by lia. reflexivity.
Qed.

(** Where a pointer returned by the loop of [pool_alloc] lies: one header
    after the end of a record of the list. *)
Lemma scan_gaps_pointer st sz l : forall pv p fuel q st',
  dllseg (nodes st) (pool_addr st) pv p l 0 ->
  scan_gaps T fuel st sz p = Ret q st' ->
  q = 0 \/ exists r, r ∈ l /\ q = end_of T r + hn.
Proof.
  induction l as [|r l IH]; intros pv p fuel q st' Hseg Hscan;
    (destruct fuel as [|fuel]; [discriminate|]).
  - simpl in Hseg. subst p. simpl in Hscan. injection Hscan as <- _.
    left. reflexivity.
  - simpl in Hseg. destruct Hseg as (-> & Hnz & n' & Hlk & Hrest).
    cbn [scan_gaps] in Hscan.
    destruct (Z.eqb_spec (fst r) 0) as [|_]; [contradiction|].
    rewrite Hlk in Hscan. cbn [size next] in Hscan.
    destruct (wrap T (sz + hn) <=? _).
    + destruct (if n' =? 0 then _ else _) as [m2|]; [|discriminate].
      destruct (store (fst r) _ m2) as [m3|]; [|discriminate].
      injection Hscan as <- _. right. exists r.
      split; [apply list_elem_of_here | reflexivity].
    + destruct (IH _ _ _ _ _ Hrest Hscan) as [-> | (r' & Hr' & ->)];
        [left; reflexivity|].
      right. exists r'. split; [apply list_elem_of_further, Hr' | reflexivity].
Qed.

(** ... and by [pool_alloc]: one header after the start of the data area or
    after the end of a live record, whatever the request. *)
Lemma pool_alloc_pointer st l s q st' :
  pool_wf T st l -> pool_alloc T st s = Ret q st' -> q <> 0 ->
  q = pool_addr st + hb + hn \/ exists r, r ∈ l /\ q = end_of T r + hn.
Proof.
  intros Hwf Hal Hq. unfold pool_alloc in Hal.
  destruct (pool_addr st =? 0); [discriminate|].
  destruct (align_size T s =? 0); [injection Hal as <- _; contradiction|].
  destruct (wrap T _ <? wrap T _); [injection Hal as <- _; contradiction|].
  destruct (first (header st) =? 0); [injection Hal as <- _; tauto|].
  destruct (wrap T _ <=? wrap T _).
  - destruct (store _ _ _); [|discriminate]. injection Hal as <- _. tauto.
  - destruct (scan_gaps_pointer _ _ _ _ _ _ _ _ (wf_list _ _ _ Hwf) Hal)
      as [-> | H]; [contradiction | right; exact H].
Qed.

(** C1, the defect.  After [pool_alloc] of 8 bytes and [pool_alloc] of
    [SIZE_MAX - 39] bytes on a fresh pool of 150 bytes, both of which return
    the same non-null pointer, used memory is 48 and the number of
    allocations is 2, while the head of the list is one header of
    [SIZE_MAX - 39] bytes that is its own successor: however far the list is
    followed, used memory is not the sum of the footprints met, not even
    modulo the word size. *)
Theorem wrapping_request_breaks_counters :
  exists st1,
    create_memory_pool LP64 4096 150 = Some pool_empty /\
    pool_alloc LP64 pool_empty 8 = Ret 4176 st1 /\
    pool_alloc LP64 st1 (2 ^ 64 - 40) = Ret 4176 pool_cyclic /\
    used_memory (header pool_cyclic) = 48 /\
    num_allocations (header pool_cyclic) = 2 /\
    forall fuel,
      let l := records_from fuel (nodes pool_cyclic)
                            (first (header pool_cyclic)) in
      length l = fuel /\
      used_memory (header pool_cyclic) <> footprint_sum LP64 l /\
      used_memory (header pool_cyclic) <> wrap LP64 (footprint_sum LP64 l).
Proof.
  eexists. split; [reflexivity|]. split; [vm_compute; reflexivity|].
  split; [vm_compute; reflexivity|].
  split; [reflexivity|]. split; [reflexivity|].
  intros fuel. cbv zeta. cbn [header first pool_cyclic used_memory].
  rewrite records_from_cyclic, footprint_sum_repeat.
  split; [apply repeat_length|].
  cbn [size sizeof_memory_node LP64].
  replace (2 ^ 64 - 40 + 40) with (2 ^ 64) by lia.
  unfold wrap. cbn [size_bits LP64]. rewrite Z.mod_mul by lia.
  split; [|lia].
  change (2 ^ 64) with 18446744073709551616. lia.
Qed.

(** C2. [pool_alloc] is first fit: in a pool in good order, when some gap
    (before the first record, between two records, or before the upper
    limit) has room for the aligned size and a header, the call succeeds and
    the new record starts exactly at the start of a gap that has room, and no
    gap that has room starts at a lower address; so of two gaps with room at
    [A < B] the record lands at [A]. *)
Theorem first_fit_placement st l s g :
  pool_wf T st l ->
  align_size T s <> 0 ->
  g ∈ gaps T (pool_addr st + hb) l (upper_limit (header st)) ->
  align_size T s + hn <= snd g ->
  exists q gq st' l' n,
    pool_alloc T st s = Ret (q + hn) st' /\ q + hn <> 0 /\
    (q, gq) ∈ gaps T (pool_addr st + hb) l (upper_limit (header st)) /\
    align_size T s + hn <= gq /\
    (forall g', g' ∈ gaps T (pool_addr st + hb) l (upper_limit (header st)) ->
                align_size T s + hn <= snd g' -> q <= fst g') /\
    pool_wf T st' l' /\ (q, align_size T s) ∈ l' /\
    nodes st' !! q = Some n /\ size n = align_size T s /\ is_used n = true.
Proof.
  intros Hwf Hnz Hg Hroom.
  pose proof (node_size_pos T HT) as Hhn.
  assert (Hb : 0 < hb) by (destruct HT; assumption).
  destruct (place_some T l _ _ _ (align_size T s) g Hg Hroom) as (q & l' & E).
  pose proof (pool_alloc_place T HT st l s Hwf Hnz) as Hal.
  rewrite E in Hal. destruct Hal as (st' & Hal & Hwf' & _).
  destruct (place_first_fit T HT _ _ _ _ _ _ _ (wf_chain _ _ _ Hwf) E)
    as [(gq & Hgq & Hn) Hmin].
  pose proof (place_record T _ _ _ _ _ _ _ E) as Hrec.
  pose proof (place_lb T HT _ _ _ _ _ _ _ (wf_chain _ _ _ Hwf) E) as Hlb.
  pose proof (wf_pool _ _ _ Hwf) as Hp.
  destruct (list_elem_of_split _ _ Hrec) as (l1 & l2 & ->).
  destruct (dllseg_lookup _ _ _ _ _ _ _ _ (wf_list _ _ _ Hwf')) as [_ Hlk].
  simpl in Hlk.
  exists q, gq, st', (l1 ++ (q, align_size T s) :: l2). eexists.
  split; [exact Hal|]. split; [lia|].
  split; [exact Hgq|]. split; [exact Hn|]. split; [exact Hmin|].
  split; [exact Hwf'|]. split; [exact Hrec|].
  split; [exact Hlk|]. split; reflexivity.
Qed.

(** C3, the defect.  Whatever the size of the pool, a first request exists
    that [pool_alloc] grants although the record does not fit: the header is
    written at the start of the data area, and the record ends after the
    upper limit. *)
Theorem first_record_can_overrun p sz st0 :
  8 <= hb -> 8 <= hn -> 0 < p -> sz < 2 ^ w ->
  create_memory_pool T p sz = Some st0 ->
  exists st1 n,
    pool_alloc T st0 (8 * ((sz - hn) / 8)) = Ret (p + hb + hn) st1 /\
    first (header st1) = p + hb /\
    nodes st1 !! (p + hb) = Some n /\ is_used n = true /\
    upper_limit (header st1) < p + hb + hn + size n.
Proof.
  intros Hb8 Hn8 Hp Hsz Hc.
  pose proof (word_pos T HT) as Hw.
  unfold create_memory_pool, MIN_BLOCK_SIZE, MIN_ALIGNMENT in Hc.
  rewrite wrap_small in Hc by (destruct HT; lia).
  destruct (Z.ltb_spec sz (hn + 8)); [discriminate|].
  destruct (Z.eqb_spec p 0); [lia|]. injection Hc as <-.
  set (k := (sz - hn) / 8). set (s := 8 * k).
  assert (Hs : 8 <= s /\ s <= sz - hn /\ sz - hn < s + 8).
  { pose proof (Z.div_mod (sz - hn) 8 ltac:(lia)) as Hdm.
    pose proof (Z.mod_pos_bound (sz - hn) 8 ltac:(lia)) as Hmod.
    fold k in Hdm. fold s in Hdm.
    assert (0 < k) by (apply Z.div_str_pos; lia). unfold s. lia. }
  assert (Ea : align_size T s = s).
  { rewrite (align_size_eq T HT), wrap_small by lia.
    replace (s + 7) with (k * 8 + 7) by (unfold s; lia).
    rewrite Z.div_add_l by lia. change (7 / 8) with 0. unfold s. lia. }
  unfold pool_alloc. cbn [pool_addr header first total_size used_memory nodes].
  destruct (Z.eqb_spec p 0); [lia|].
  rewrite Ea. destruct (Z.eqb_spec s 0); [lia|].
  rewrite !wrap_small by lia.
  destruct (Z.ltb_spec (sz - 0) (s + hn)); [lia|].
  rewrite Z.eqb_refl.
  eexists _, _. split; [reflexivity|].
  cbn [header first nodes charge upper_limit].
  split; [reflexivity|]. split; [apply lookup_insert_eq|].
  split; [reflexivity|]. simpl. lia.
Qed.

(** C4 as stated fails: [align_size] of [SIZE_MAX] is 0; on [ILP32],
    whose headers take 20 bytes, the second pointer of a fresh pool lies 76
    bytes after the pool pointer; and on [LP64], after two requests whose
    aligned size plus header wraps have left headers that overlap, a
    [pool_free] takes one from the size of a header, and the next pointer lies
    279 bytes after the pool pointer. *)
Lemma align_size_law_fails :
  align_size LP64 (2 ^ 64 - 1) = 0 /\
  ~ (2 ^ 64 - 1 <= align_size LP64 (2 ^ 64 - 1)) /\
  (exists st0 st1 st2,
    create_memory_pool ILP32 4096 150 = Some st0 /\
    pool_alloc ILP32 st0 12 = Ret 4136 st1 /\
    pool_alloc ILP32 st1 20 = Ret 4172 st2 /\
    ~ (8 | 4172 - pool_addr st1)) /\
  Bytes.returned (Bytes.create_memory_pool LP64 (fun _ => 0) 4096 1000)
  = Some 4096 /\
  Bytes.returned (wrapping_program 4096 bytes_1000)
  = Some [4096 + 80; 4096 + 88; 4096 + 176; 4096 + 208; 4096 + 279] /\
  ~ (8 | 279).
Proof.
  split; [vm_compute; reflexivity|]. split; [vm_compute; tauto|].
  split.
  { eexists _, _, _. split; [vm_compute; reflexivity|].
    split; [vm_compute; reflexivity|]. split; [vm_compute; reflexivity|].
    cbn [pool_addr]. intros [k Hk]. lia. }
  split; [vm_compute; reflexivity|]. split; [vm_compute; reflexivity|].
  intros [k Hk]. lia.
Qed.

(** C4, amended.  [align_size s] is a multiple of 8 for every [s]; for
    every requested size [s] up to [SIZE_MAX - 7] it is at least [s] and
    less than [s + 8], and for the seven sizes above it is 0.  On a target
    whose two header sizes are multiples of 8, in a pool in good order whose
    records all start a multiple of 8 away from the pool pointer, every
    non-null pointer that [pool_alloc] returns is a multiple of 8 away from
    the pool pointer; and when the aligned size plus the header size does
    not wrap and, in an empty pool, fits the data area, the records start at
    such offsets again after the call, the pool being in good order, and
    the call returns the same pointer over the bytes of a region that holds
    the pool, which then holds the new pool. *)
Theorem align_size_law :
  (forall s, (8 | align_size T s)) /\
  (forall s, 0 <= s <= 2 ^ w - 8 -> s <= align_size T s < s + 8) /\
  (forall s, 2 ^ w - 8 < s < 2 ^ w -> align_size T s = 0) /\
  (target_aligned T ->
   forall st l s q st',
     pool_wf T st l ->
     Forall (fun a => (8 | a - pool_addr st)) l.*1 ->
     pool_alloc T st s = Ret q st' -> q <> 0 ->
     (8 | q - pool_addr st) /\
     (align_size T s + hn < 2 ^ w ->
      (l = [] ->
       align_size T s + hn <= upper_limit (header st) - (pool_addr st + hb)) ->
      (exists l', pool_wf T st' l' /\
                  Forall (fun a => (8 | a - pool_addr st')) l'.*1) /\
      (forall m, Bytes.holds T m st l ->
         exists m' l',
           Bytes.pool_alloc T (pool_addr st) s m = Bytes.Done q m' /\
           pool_wf T st' l' /\ Bytes.holds T m' st' l' /\
           Forall (fun a => (8 | a - pool_addr st')) l'.*1))).
Proof.
  split; [apply (align_size_divide T HT)|].
  split; [intros s Hs; apply (align_size_bounds T HT); lia|].
  split.
  - intros s Hs. pose proof (word_pos T HT) as Hw.
    rewrite (align_size_eq T HT). unfold wrap.
    replace (s + 7) with ((s + 7 - 2 ^ w) + 1 * 2 ^ w) by lia.
    rewrite Z.mod_add by lia. rewrite Z.mod_small by lia.
    rewrite Z.div_small by lia. reflexivity.
  - intros [Hab Han] st l s q st' Hwf Hall Hcall Hq.
    assert (Hptr : (8 | q - pool_addr st)).
    { destruct (pool_alloc_pointer st l s q st' Hwf Hcall Hq)
        as [-> | (r & Hr & ->)].
      - replace (pool_addr st + hb + hn - pool_addr st) with (hb + hn) by lia.
        apply Z.divide_add_r; assumption.
      - assert (Hfst : (8 | fst r - pool_addr st)).
        { rewrite Forall_forall in Hall. apply Hall.
          apply list_elem_of_fmap. exists r. split; [reflexivity | exact Hr]. }
        assert (Hsz : (8 | snd r)).
        { apply list_elem_of_split in Hr as (l1 & l2 & ->).
          pose proof (wf_chain _ _ _ Hwf) as Hc.
          apply (chain_app T) in Hc as [_ Hc]. simpl in Hc. tauto. }
        unfold end_of.
        replace (fst r + hn + snd r + hn - pool_addr st)
          with ((fst r - pool_addr st) + hn + snd r + hn) by lia.
        apply Z.divide_add_r; [|exact Han].
        apply Z.divide_add_r; [|exact Hsz].
        apply Z.divide_add_r; [exact Hfst | exact Han]. }
    split; [exact Hptr|]. intros Hov Hroom.
    split; cycle 1.
    { intros m Hh.
      destruct (pool_alloc_bytes T HT HL m st l s q st' Hwf Hh Hov Hroom Hcall)
        as (m' & l' & Hrun & Hwf' & Hh' & Hp' & _ & _ & Hl').
      exists m', l'. split; [exact Hrun|]. split; [exact Hwf'|].
      split; [exact Hh'|].
      destruct (Hl' Hq) as (l1 & l2 & -> & ->). rewrite Hp'.
      rewrite fmap_app, Forall_app in Hall. destruct Hall as [Hall1 Hall2].
      rewrite fmap_app, fmap_cons, Forall_app, Forall_cons. cbn [fst].
      split; [exact Hall1|]. split; [|exact Hall2].
      replace (q - hn - pool_addr st) with ((q - pool_addr st) - hn) by lia.
      apply Z.divide_sub_r; assumption. }
    destruct (Z.eq_dec (align_size T s) 0) as [Hz | Hnz].
    { unfold pool_alloc in Hcall. rewrite Hz in Hcall.
      destruct (pool_addr st =? 0); [discriminate|].
      injection Hcall as <- _. contradiction. }
    pose proof (pool_alloc_place T HT st l s Hwf Hnz) as Hpl.
    destruct (place T (pool_addr st + hb) l (upper_limit (header st))
                    (align_size T s + hn) (align_size T s))
      as [[q0 l0]|] eqn:E.
    + destruct Hpl as (st0 & Hal0 & Hwf0 & Hp0 & _).
      rewrite Hal0 in Hcall. injection Hcall as <- <-.
      exists l0. split; [exact Hwf0|]. rewrite Hp0.
      rewrite Forall_forall. intros a Ha.
      apply (place_addrs T _ _ _ _ _ _ _ a E) in Ha as [-> | Ha].
      * replace (q0 - pool_addr st) with ((q0 + hn - pool_addr st) - hn)
          by lia.
        apply Z.divide_sub_r; assumption.
      * rewrite Forall_forall in Hall. apply Hall, Ha.
    + destruct l as [|r l2].
      * simpl in E. specialize (Hroom eq_refl).
        destruct (Z.leb_spec (align_size T s + hn)
                    (upper_limit (header st) - (pool_addr st + hb)));
          [discriminate | lia].
      * rewrite (Hpl ltac:(discriminate) Hov) in Hcall.
        injection Hcall as <- _. contradiction.
Qed.

(** C5, the defect.  On [LP64], where the two headers take 40 bytes each,
    the scenario stops at its second allocation: in the pool of 150 bytes,
    after the 16 bytes of the first allocation, [pool_alloc] of 20 bytes
    returns [NULL] and leaves the pool as it was, over the headers and over
    the bytes.  The request passes the test on the budget, 64 bytes against
    the 94 that the total size less the used memory leaves, but only 54
    bytes lie between the end of the first record and the upper limit: the
    total size counts the 40 bytes of the pool header. *)
Theorem scenario_fails_on_LP64 :
  create_memory_pool LP64 4096 150 = Some pool_empty /\
  pool_alloc LP64 pool_empty 12 = Ret 4176 pool_one /\
  align_size LP64 20 + 40
    <= total_size (header pool_one) - used_memory (header pool_one) /\
  gaps LP64 4136 [(4136, 16)] 4246 = [(4136, 0); (4192, 54)] /\
  pool_alloc LP64 pool_one 20 = Ret 0 pool_one /\
  Bytes.returned (Bytes.create_memory_pool LP64 (fun _ => 0) 4096 150)
  = Some 4096 /\
  Bytes.pool_alloc LP64 4096 12 bytes_empty = Bytes.Done 4176 bytes_one /\
  Bytes.pool_alloc LP64 4096 20 bytes_one = Bytes.Done 0 bytes_one.
Proof.
  split; [reflexivity|]. split; [vm_compute; reflexivity|].
  split; [vm_compute; discriminate|]. split; [reflexivity|].
  split; [vm_compute; reflexivity|]. split; [vm_compute; reflexivity|].
  split; vm_compute; reflexivity.
Qed.

(** Where the scenario does run: on a target where the pool header and two
    node headers take at most 110 bytes together, [create_memory_pool (150)]
    succeeds; [pool_alloc] of 12 bytes succeeds with an aligned size of 16;
    of 20 bytes succeeds with an aligned size of 24; after [pool_free] of
    the first pointer, [pool_alloc] of 4 bytes succeeds with an aligned size
    of 8 and returns that first pointer again; the statistics are then a
    total size of 150, used memory equal to the two live footprints, and 2
    allocations. *)
Lemma scenario_150 p :
  0 < p -> p + 150 < 2 ^ w -> hb + 2 * hn <= 110 ->
  exists st0 st1 st2 st3 st4,
    let a := p + hb + hn in
    let b := p + hb + hn + 16 + hn in
    create_memory_pool T p 150 = Some st0 /\
    align_size T 12 = 16 /\ pool_alloc T st0 12 = Ret a st1 /\ a <> 0 /\
    align_size T 20 = 24 /\ pool_alloc T st1 20 = Ret b st2 /\ b <> 0 /\
    pool_free T st2 a = Ret tt st3 /\
    align_size T 4 = 8 /\ pool_alloc T st3 4 = Ret a st4 /\
    pool_wf T st4 [(p + hb, 8); (p + hb + hn + 16, 24)] /\
    get_pool_stats st4 = (150, (8 + hn) + (24 + hn), 2).
Proof.
  intros Hp Hsp Hsmall.
  pose proof (word_pos T HT) as Hw.
  pose proof (node_size_pos T HT) as Hhn.
  assert (Hb : 0 < hb) by (destruct HT; assumption).
  assert (E12 : align_size T 12 = 16) by (rewrite align_size_small; [reflexivity | lia]).
  assert (E20 : align_size T 20 = 24) by (rewrite align_size_small; [reflexivity | lia]).
  assert (E4 : align_size T 4 = 8) by (rewrite align_size_small; [reflexivity | lia]).
  assert (Hc : create_memory_pool T p 150
               = Some (Arena p (Block 0 (p + 150) 150 0 0) ∅)).
  { unfold create_memory_pool, MIN_BLOCK_SIZE, MIN_ALIGNMENT.
    rewrite wrap_small by lia.
    destruct (Z.ltb_spec 150 (hn + 8)); [lia|].
    destruct (Z.eqb_spec p 0); [lia | reflexivity]. }
  pose proof (create_wf T p 150 _ HT Hp Hsp Hc) as Hwf0.
  set (st0 := Arena p (Block 0 (p + 150) 150 0 0) ∅) in *.
  (* first allocation *)
  pose proof (pool_alloc_place T HT st0 [] 12 Hwf0) as H1.
  rewrite E12 in H1. specialize (H1 ltac:(lia)).
  cbn [place pool_addr header upper_limit st0] in H1.
  destruct (Z.leb_spec (16 + hn) (p + 150 - (p + hb))); [|lia].
  destruct H1 as (st1 & Hal1 & Hwf1 & Hp1 & Ht1).
  cbn [pool_addr header total_size st0] in Hp1, Ht1.
  pose proof (wf_upper _ _ _ Hwf1) as Hup1. rewrite Hp1, Ht1 in Hup1.
  (* second allocation *)
  pose proof (pool_alloc_place T HT st1 _ 20 Hwf1) as H2.
  rewrite E20, Hp1, Hup1 in H2. specialize (H2 ltac:(lia)).
  cbn [place fst snd] in H2. unfold end_of in H2. cbn [fst snd] in H2.
  destruct (Z.leb_spec (24 + hn) (p + hb - (p + hb))); [lia|].
  destruct (Z.leb_spec (24 + hn) (p + 150 - (p + hb + hn + 16))); [|lia].
  destruct H2 as (st2 & Hal2 & Hwf2 & Hp2 & Ht2).
  rewrite Ht1 in Ht2.
  (* the first one is freed *)
  destruct (pool_free_live T HT st2 [] (p + hb, 16) [(p + hb + hn + 16, 24)] Hwf2)
    as (st3 & Hfr & Hwf3 & _ & _ & Hp3 & Ht3 & Hup3 & _).
  cbn [fst snd app] in Hfr, Hwf3.
  rewrite Hp2 in Hp3. rewrite Ht2 in Ht3.
  pose proof (wf_upper _ _ _ Hwf3) as Hup3'. rewrite Hp3, Ht3 in Hup3'.
  (* third allocation *)
  pose proof (pool_alloc_place T HT st3 _ 4 Hwf3) as H4.
  rewrite E4, Hp3, Hup3' in H4. specialize (H4 ltac:(lia)).
  cbn [place fst snd] in H4.
  destruct (Z.leb_spec (8 + hn) (p + hb + hn + 16 - (p + hb))); [|lia].
  destruct H4 as (st4 & Hal4 & Hwf4 & Hp4 & Ht4).
  rewrite Ht3 in Ht4.
  exists st0, st1, st2, st3, st4. cbv zeta.
  split; [exact Hc|]. split; [exact E12|]. split; [exact Hal1|].
  split; [lia|]. split; [exact E20|]. split; [exact Hal2|]. split; [lia|].
  split; [exact Hfr|]. split; [exact E4|]. split; [exact Hal4|].
  split; [exact Hwf4|].
  unfold get_pool_stats.
  rewrite Ht4, (wf_used _ _ _ Hwf4), (wf_count _ _ _ Hwf4). simpl.
  replace (8 + hn + (24 + hn + 0)) with (8 + hn + (24 + hn)) by lia.
  reflexivity.
Qed.

(** C6 as stated fails: in the pool of 200 bytes with a hole, a request of
    100 bytes exceeds the budget and a request of 16 bytes is within the
    budget but fits no gap, and both calls return the same value. *)
Lemma failures_indistinguishable :
  reachable LP64 pool_holed /\
  total_size (header pool_holed) - used_memory (header pool_holed)
    < align_size LP64 100 + 40 /\
  align_size LP64 16 + 40
    <= total_size (header pool_holed) - used_memory (header pool_holed) /\
  gaps LP64 4136 [(4136, 8); (4232, 8)] 4296 = [(4136, 0); (4184, 48); (4280, 16)] /\
  pool_alloc LP64 pool_holed 100 = Ret 0 pool_holed /\
  pool_alloc LP64 pool_holed 16 = Ret 0 pool_holed /\
  pool_alloc LP64 pool_holed 100 = pool_alloc LP64 pool_holed 16.
Proof.
  split; [exact pool_holed_reachable|].
  split; [vm_compute; reflexivity|]. split; [vm_compute; discriminate|].
  split; [reflexivity|]. split; [vm_compute; reflexivity|].
  split; vm_compute; reflexivity.
Qed.

(** C6, amended.  [pool_alloc] reports every failure by the same [NULL]: it
    returns [NULL], with the pool unchanged, when the aligned size plus the
    header size exceeds the total size minus the used memory, and also when
    that budget suffices but, in a pool in good order that holds at least one
    record, no gap has room for them. *)
Theorem pool_alloc_failures st l s1 s2 :
  pool_wf T st l ->
  (wrap T (total_size (header st) - used_memory (header st))
     < wrap T (align_size T s1 + hn) ->
   pool_alloc T st s1 = Ret 0 st) /\
  (align_size T s2 <> 0 -> align_size T s2 + hn < 2 ^ w -> l <> [] ->
   wrap T (align_size T s2 + hn)
     <= wrap T (total_size (header st) - used_memory (header st)) ->
   (forall g, g ∈ gaps T (pool_addr st + hb) l (upper_limit (header st)) ->
              snd g < align_size T s2 + hn) ->
   pool_alloc T st s2 = Ret 0 st).
Proof.
  intros Hwf. split.
  - intros Hbudget. unfold pool_alloc.
    pose proof (wf_pool _ _ _ Hwf).
    destruct (Z.eqb_spec (pool_addr st) 0) as [|_]; [lia|].
    destruct (align_size T s1 =? 0); [reflexivity|].
    destruct (Z.ltb_spec
                (wrap T (total_size (header st) - used_memory (header st)))
                (wrap T (align_size T s1 + hn))); [reflexivity | lia].
  - intros Hnz Hov Hne _ Hgaps.
    pose proof (pool_alloc_place T HT st l s2 Hwf Hnz) as Hal.
    apply (place_none T) with (sz := align_size T s2) in Hgaps.
    rewrite Hgaps in Hal. apply Hal; assumption.
Qed.

(** C7 as stated fails.  On [LP64], in a pool of 150 bytes, a program frees
    two blocks and allocates two smaller ones in their place; the header of
    the second new block lies over the header of the second old one, whose
    byte for [is_used] is now the low byte of a [prev] pointer.  A second
    [pool_free] of the second old pointer, which the program has freed
    already, passes the assertion and returns, and leaves a pool whose total
    size reads 0. *)
Lemma stale_pointer_not_caught :
  Bytes.returned (Bytes.create_memory_pool LP64 (fun _ => 0) 4096 150)
  = Some 4096 /\
  Bytes.returned (reuse_program 4096 bytes_empty)
  = Some [4176; 4232; 4176; 4224] /\
  Bytes.returned (Bytes.get_pool_stats LP64 4096 bytes_reused)
  = Some (150, 96, 2) /\
  bytes_reused !! Bytes.node_is_used LP64 (4232 - 40) = Some 40 /\
  Bytes.pool_free LP64 4232 bytes_reused <> Bytes.Aborted /\
  Bytes.returned (Bytes.pool_free LP64 4232 bytes_reused) = Some tt /\
  Bytes.returned
    (Bytes.get_pool_stats LP64 4096
       (Bytes.memory_of (Bytes.pool_free LP64 4232 bytes_reused)))
  = Some (0, 55, 1).
Proof.
  split; [vm_compute; reflexivity|]. split; [vm_compute; reflexivity|].
  split; [vm_compute; reflexivity|]. split; [vm_compute; reflexivity|].
  split; [vm_compute; discriminate|].
  split; vm_compute; reflexivity.
Qed.

(** C7, amended.  [pool_free] leaves the memory unchanged when given the
    null pointer.  Given a non-null pointer it fails its assertion exactly
    when the byte of [is_used] in the header one header size before the
    pointer is 0.  Given the pointer of a live record of a pool in good
    order, that byte is 1 and the call returns, leaving in the bytes the
    pool that it leaves over the headers: used memory is less by the size of
    the record plus the header size, the number of allocations is less by
    one, the record is out of the list and the pool is in good order again;
    the byte is then 0, and a second [pool_free] of the pointer fails the
    assertion. *)
Theorem pool_free_contract :
  (forall m, Bytes.pool_free T 0 m = Bytes.Done tt m) /\
  (forall m ptr byte,
     ptr <> 0 ->
     m !! Bytes.node_is_used T (wrap T (ptr - hn)) = Some byte ->
     Bytes.pool_free T ptr m = Bytes.Aborted <-> byte = 0) /\
  (forall m st l1 r l2,
     pool_wf T st (l1 ++ r :: l2) ->
     Bytes.holds T m st (l1 ++ r :: l2) ->
     exists m' st',
       m !! Bytes.node_is_used T (fst r) = Some 1 /\
       Bytes.pool_free T (fst r + hn) m = Bytes.Done tt m' /\
       pool_free T st (fst r + hn) = Ret tt st' /\
       pool_addr st' = pool_addr st /\
       pool_wf T st' (l1 ++ l2) /\
       Bytes.holds T m' st' (l1 ++ l2) /\
       Bytes.get_pool_stats T (pool_addr st) m'
       = Bytes.Done (total_size (header st),
                     used_memory (header st) - (snd r + hn),
                     num_allocations (header st) - 1) m' /\
       m' !! Bytes.node_is_used T (fst r) = Some 0 /\
       Bytes.pool_free T (fst r + hn) m' = Bytes.Aborted).
Proof.
  split; [reflexivity|].
  split; [intros m ptr byte; apply (pool_free_abort_iff T)|].
  intros m st l1 r l2 Hwf Hh.
  pose proof (node_size_pos T HT) as Hhn.
  assert (Hb : 0 < hb) by (destruct HT; assumption).
  destruct (pool_free_bytes T HT HL m st l1 r l2 Hwf Hh)
    as (m' & st' & Hrun & Hfr & Hh' & n' & Hn' & Hfree).
  destruct (pool_free_live T HT st l1 r l2 Hwf)
    as (st0 & Hfr0 & Hwf' & Hu & Hc & Hp & Ht & _).
  rewrite Hfr in Hfr0. injection Hfr0 as <-.
  assert (Hr : fst r ∈ (l1 ++ r :: l2).*1).
  { rewrite fmap_app, fmap_cons. apply elem_of_app. right.
    apply list_elem_of_here. }
  pose proof (wf_chain _ _ _ Hwf) as Hch. rewrite (wf_upper _ _ _ Hwf) in Hch.
  destruct (chain_geometry T HT _ _ _ Hch) as (_ & Hinside & _).
  destruct (Hinside _ Hr) as [Hr1 Hr2].
  pose proof (wf_pool _ _ _ Hwf) as Hpos.
  pose proof (wf_space _ _ _ Hwf) as Hsp.
  (* the header of the record, before and after *)
  destruct (dllseg_lookup _ _ _ _ _ _ _ _ (wf_list _ _ _ Hwf)) as [_ Hlk].
  pose proof (Bytes.stored_nodes _ _ _ _ _ _ Hh) as Hnodes.
  rewrite Forall_forall in Hnodes.
  destruct (Hnodes _ Hr) as (n & Hn & (_ & Hflag & _)).
  rewrite Hlk in Hn. injection Hn as <-. cbn [is_used] in Hflag.
  pose proof (Bytes.stored_nodes _ _ _ _ _ _ Hh') as Hnodes'.
  rewrite Forall_forall in Hnodes'.
  destruct (Hnodes' _ Hr) as (n0 & Hn0 & Hat').
  rewrite Hn' in Hn0. injection Hn0 as <-.
  pose proof Hat' as (_ & Hflag' & _). rewrite Hfree in Hflag'.
  assert (Hbyte : forall m0 x v, Bytes.load_bytes 1 m0 x = Some v ->
                                 m0 !! x = Some v).
  { intros m0 x v. simpl. destruct (m0 !! x) as [b0|]; [|discriminate].
    intros E. injection E as <-. f_equal. lia. }
  exists m', st'.
  split; [exact (Hbyte _ _ _ Hflag)|]. split; [exact Hrun|].
  split; [exact Hfr|]. split; [exact Hp|].
  split; [exact Hwf'|]. split.
  { eapply stored_weaken; [exact Hh'|].
    intros x. rewrite !fmap_app, fmap_cons, !elem_of_app, elem_of_cons. tauto. }
  split.
  { rewrite <- Hp.
    rewrite (get_pool_stats_bytes T m' st' (l1 ++ r :: l2)
               ltac:(rewrite Hp; exact Hpos) Hh').
    unfold get_pool_stats. rewrite Hu, Hc, Ht. reflexivity. }
  split; [exact (Hbyte _ _ _ Hflag')|].
  apply (pool_free_bytes_abort T HT m' (fst r) n'); [lia | lia | exact Hat' | exact Hfree].
Qed.

(** A second [pool_free] of the pointer whose record left the hole of
    [pool_holed] fails the assertion. *)
Example double_free_aborts : pool_free LP64 pool_holed 4224 = Abort.
Proof. vm_compute. reflexivity. Qed.

(** C8 as stated fails: in a pool of 1000 bytes whose first 240 bytes of
    data have been freed, the record at 4472 has 48 free bytes on either
    side; once it is freed, a request that takes exactly the 144 bytes of
    the merged span at 4424 is placed at 4136, the start of the data area. *)
Lemma merged_span_not_chosen :
  exists st st1 st2,
    create_memory_pool LP64 4096 1000 = Some pool_1000 /\
    run LP64 pool_1000
        [Alloc 200; Alloc 8; Alloc 8; Alloc 8; Alloc 8; Alloc 8;
         Free 4176; Free 4464; Free 4560] = Some st /\
    upper_limit (header st) = 5096 /\
    records_from 6 (nodes st) (first (header st))
      = [Node 8 true 0 4472 4096; Node 8 true 4376 4568 4096;
         Node 8 true 4472 0 4096] /\
    gaps LP64 4136 [(4376, 8); (4472, 8); (4568, 8)] 5096
      = [(4136, 240); (4424, 48); (4520, 48); (4616, 480)] /\
    pool_free LP64 st (4472 + 40) = Ret tt st1 /\
    gaps LP64 4136 [(4376, 8); (4568, 8)] 5096
      = [(4136, 240); (4424, 144); (4616, 480)] /\
    align_size LP64 104 + 40 = 48 + (8 + 40) + 48 /\
    pool_alloc LP64 st1 104 = Ret (4136 + 40) st2 /\
    4136 + 40 <> 4424 + 40.
Proof.
  eexists _, _, _. split; [reflexivity|]. split; [vm_compute; reflexivity|].
  split; [reflexivity|]. split; [vm_compute; reflexivity|].
  split; [reflexivity|]. split; [vm_compute; reflexivity|].
  split; [reflexivity|]. split; [reflexivity|].
  split; [vm_compute; reflexivity | lia].
Qed.

(** C8, amended.  In a pool in good order, let [r] be a live record, the
    left gap the free bytes between the end of the record before it (or the
    start of the data area) and [r], and the right gap those between the end
    of [r] and the next record (or the upper limit).  After [pool_free] of
    [r] the three spans are one gap, and a request whose aligned size plus
    header equals left gap plus the footprint of [r] plus right gap
    succeeds.  The new record starts at the start of the lowest gap that has
    room for it, which is the merged span or a gap at a lower address; it
    starts at the merged span, and fills it, when no gap at a lower address
    has room. *)
Theorem freed_span_is_merged st l1 r l2 s :
  pool_wf T st (l1 ++ r :: l2) ->
  let lo := pool_addr st + hb in
  let hi := upper_limit (header st) in
  let span := last_end T lo l1 in
  let left_gap := fst r - span in
  let right_gap := head_addr l2 hi - end_of T r in
  align_size T s <> 0 ->
  align_size T s + hn = left_gap + (snd r + hn) + right_gap ->
  exists st1 q st2 l',
    pool_free T st (fst r + hn) = Ret tt st1 /\
    (span, left_gap + (snd r + hn) + right_gap) ∈ gaps T lo (l1 ++ l2) hi /\
    pool_alloc T st1 s = Ret (q + hn) st2 /\ q + hn <> 0 /\
    pool_wf T st2 l' /\ (q, align_size T s) ∈ l' /\
    (exists gq, (q, gq) ∈ gaps T lo (l1 ++ l2) hi /\
                align_size T s + hn <= gq) /\
    (forall g, g ∈ gaps T lo (l1 ++ l2) hi ->
               align_size T s + hn <= snd g -> q <= fst g) /\
    q <= span /\
    ((forall g, g ∈ gaps T lo (l1 ++ l2) hi -> fst g < span ->
                snd g < align_size T s + hn) ->
     q = span /\ l' = l1 ++ (span, align_size T s) :: l2).
Proof.
  intros Hwf lo hi span left_gap right_gap Hnz Hfit.
  pose proof (node_size_pos T HT) as Hhn.
  assert (Hb : 0 < hb) by (destruct HT; assumption).
  destruct (pool_free_live T HT st l1 r l2 Hwf)
    as (st1 & Hfr & Hwf1 & _ & _ & Hp1 & _ & Hup1 & _).
  assert (Hspan : (span, left_gap + (snd r + hn) + right_gap)
                    ∈ gaps T lo (l1 ++ l2) hi).
  { replace (left_gap + (snd r + hn) + right_gap)
      with (head_addr l2 hi - span)
      by (unfold left_gap, right_gap, end_of; lia).
    apply gaps_middle. }
  pose proof (pool_alloc_place T HT st1 (l1 ++ l2) s Hwf1 Hnz) as Hal.
  rewrite Hp1, Hup1 in Hal. fold lo hi in Hal.
  pose proof (wf_chain _ _ _ Hwf1) as Hc1. rewrite Hp1, Hup1 in Hc1.
  fold lo hi in Hc1.
  destruct (place_some T (l1 ++ l2) lo hi (align_size T s + hn)
                       (align_size T s) _ Hspan ltac:(simpl; lia))
    as (q & l' & E).
  rewrite E in Hal. destruct Hal as (st2 & Hal & Hwf2 & _).
  destruct (place_first_fit T HT _ _ _ _ _ _ _ Hc1 E)
    as [(gq & Hgq & Hn) Hmin].
  pose proof (place_record T _ _ _ _ _ _ _ E) as Hrec.
  pose proof (place_lb T HT _ _ _ _ _ _ _ Hc1 E) as Hlb.
  pose proof (wf_pool _ _ _ Hwf) as Hp.
  pose proof (Hmin _ Hspan ltac:(simpl; lia)) as Hle. simpl in Hle.
  exists st1, q, st2, l'.
  split; [exact Hfr|]. split; [exact Hspan|]. split; [exact Hal|].
  split; [unfold lo in Hlb; lia|].
  split; [exact Hwf2|]. split; [exact Hrec|].
  split; [exists gq; split; assumption|].
  split; [exact Hmin|]. split; [exact Hle|].
  intros Hlow.
  assert (Hq : q = span).
  { destruct (Z.eq_dec q span) as [|Hne]; [assumption|].
    pose proof (Hlow _ Hgq ltac:(simpl; lia)) as Hsmall. simpl in Hsmall.
    lia. }
  subst q. split; [reflexivity|].
  exact (place_at_last_end _ _ _ _ _ _ _ Hc1 E).
Qed.

(** C9. For every active pool, [pool_alloc] with a requested size of 0
    returns [NULL] and leaves the pool as it was: [align_size 0] is 0, and an
    aligned size of 0 is rejected before any placement is looked for. *)
Theorem zero_size_rejected st :
  pool_addr st <> 0 ->
  align_size T 0 = 0 /\ pool_alloc T st 0 = Ret 0 st.
Proof.
  intros Hactive. pose proof (align_size_zero T HT) as Hz.
  split; [exact Hz|]. unfold pool_alloc.
  destruct (Z.eqb_spec (pool_addr st) 0) as [|_]; [contradiction|].
  rewrite Hz. reflexivity.
Qed.

(** C10. [pool_alloc] is atomic on failure: whenever a call on a pool that a
    program can have built returns [NULL], whatever the reason, the pool
    header (used memory, number of allocations, list head) and every node
    header are exactly what they were before the call. *)
Theorem pool_alloc_failure_atomic st s st' :
  reachable T st -> pool_alloc T st s = Ret 0 st' -> st' = st.
Proof.
  intros Hreach Hal.
  pose proof (node_size_pos T HT) as Hhn.
  pose proof (positive_invariant st Hreach) as Hinv.
  assert (Hpost : alloc_post T positive_ptr nonneg_size st 0 st').
  { eapply (pool_alloc_inv T positive_ptr nonneg_size); try eassumption;
      unfold positive_ptr, nonneg_size.
    - intros b Hbp. destruct HT. lia.
    - intros b a sz Ha Hsz. lia.
    - intros s0. apply (align_size_range T HT s0). }
  destruct Hpost as (_ & _ & [[_ ->] | (a & Hq & Ha)]); [reflexivity|].
  unfold positive_ptr in Ha. lia.
Qed.

End Claims.

(** ** The theorems at concrete pools *)

Lemma first_fit_placement_witness :
  exists q gq st' l' n,
    pool_alloc LP64 pool_one 8 = Ret (q + 40) st' /\ q + 40 <> 0 /\
    (q, gq) ∈ gaps LP64 4136 [(4136, 16)] 4246 /\
    align_size LP64 8 + 40 <= gq /\
    (forall g', g' ∈ gaps LP64 4136 [(4136, 16)] 4246 ->
                align_size LP64 8 + 40 <= snd g' -> q <= fst g') /\
    pool_wf LP64 st' l' /\ (q, align_size LP64 8) ∈ l' /\
    nodes st' !! q = Some n /\ size n = align_size LP64 8 /\
    is_used n = true.
Proof.
  apply (first_fit_placement LP64 LP64_ok pool_one [(4136, 16)] 8 (4192, 54)
           pool_one_wf).
  - vm_compute. discriminate.
  - simpl. apply list_elem_of_further, list_elem_of_here.
  - vm_compute. discriminate.
Defined.

(** C3 at a concrete pool: on [LP64], in the fresh pool of 150 bytes, the
    request of 104 bytes. *)
Lemma first_record_can_overrun_witness :
  exists st1 n,
    pool_alloc LP64 pool_empty (8 * ((150 - 40) / 8)) = Ret (4096 + 40 + 40) st1 /\
    first (header st1) = 4096 + 40 /\
    nodes st1 !! (4096 + 40) = Some n /\ is_used n = true /\
    upper_limit (header st1) < 4096 + 40 + 40 + size n.
Proof.
  apply (first_record_can_overrun LP64 LP64_ok 4096 150 pool_empty);
    simpl; try lia.
  reflexivity.
Defined.

Lemma align_size_law_witness :
  (8 | align_size LP64 12) /\
  12 <= align_size LP64 12 < 12 + 8 /\
  align_size LP64 (2 ^ 64 - 3) = 0 /\
  exists st',
    pool_alloc LP64 pool_one 8 = Ret 4232 st' /\
    (8 | 4232 - pool_addr pool_one) /\
    (exists l', pool_wf LP64 st' l' /\
                Forall (fun a => (8 | a - pool_addr st')) l'.*1) /\
    exists m' l',
      Bytes.pool_alloc LP64 4096 8 bytes_one = Bytes.Done 4232 m' /\
      pool_wf LP64 st' l' /\ Bytes.holds LP64 m' st' l' /\
      Forall (fun a => (8 | a - pool_addr st')) l'.*1.
Proof.
  destruct (align_size_law LP64 LP64_ok LP64_layout) as (H0 & H1 & H2 & H3).
  split; [apply H0|]. split; [apply H1; simpl; lia|].
  split; [apply H2; simpl; lia|].
  eexists. split; [vm_compute; reflexivity|].
  assert (Hall : Forall (fun a => (8 | a - pool_addr pool_one))
                        [(4136, 16)].*1).
  { repeat constructor. exists 5. reflexivity. }
  destruct (H3 LP64_aligned pool_one [(4136, 16)] 8 4232 _ pool_one_wf Hall
              ltac:(vm_compute; reflexivity) ltac:(lia)) as [Hp Hl].
  split; [exact Hp|].
  destruct Hl as [Hl1 Hl2].
  - vm_compute. reflexivity.
  - discriminate.
  - split; [exact Hl1|]. exact (Hl2 bytes_one bytes_one_holds).
Defined.

(** ... on [ILP32], for one. *)
Example scenario_150_ILP32 :
  exists st0 st1 st2 st3 st4,
    create_memory_pool ILP32 4096 150 = Some st0 /\
    align_size ILP32 12 = 16 /\ pool_alloc ILP32 st0 12 = Ret 4136 st1 /\
    4136 <> 0 /\
    align_size ILP32 20 = 24 /\ pool_alloc ILP32 st1 20 = Ret 4172 st2 /\
    4172 <> 0 /\
    pool_free ILP32 st2 4136 = Ret tt st3 /\
    align_size ILP32 4 = 8 /\ pool_alloc ILP32 st3 4 = Ret 4136 st4 /\
    pool_wf ILP32 st4 [(4116, 8); (4152, 24)] /\
    get_pool_stats st4 = (150, 72, 2).
Proof.
  exact (scenario_150 ILP32 ILP32_ok 4096 ltac:(lia) ltac:(simpl; lia)
           ltac:(simpl; lia)).
Qed.

Lemma pool_alloc_failures_witness :
  pool_alloc LP64 pool_holed 100 = Ret 0 pool_holed /\
  pool_alloc LP64 pool_holed 16 = Ret 0 pool_holed.
Proof.
  destruct (pool_alloc_failures LP64 LP64_ok pool_holed _ 100 16 pool_holed_wf)
    as [H1 H2].
  split.
  - apply H1. vm_compute. reflexivity.
  - apply H2.
    + vm_compute. discriminate.
    + vm_compute. reflexivity.
    + discriminate.
    + vm_compute. discriminate.
    + intros g Hg. simpl in Hg. unfold end_of in Hg. simpl in Hg.
      change (align_size LP64 16) with 16.
      apply elem_of_cons in Hg as [-> | Hg]; [simpl; lia|].
      apply elem_of_cons in Hg as [-> | Hg]; [simpl; lia|].
      apply list_elem_of_singleton in Hg as ->. simpl. lia.
Defined.

Lemma pool_free_contract_witness :
  Bytes.pool_free LP64 0 bytes_one = Bytes.Done tt bytes_one /\
  (Bytes.pool_free LP64 4176 bytes_one = Bytes.Aborted <-> 1 = 0) /\
  exists m' st',
    bytes_one !! Bytes.node_is_used LP64 4136 = Some 1 /\
    Bytes.pool_free LP64 (4136 + 40) bytes_one = Bytes.Done tt m' /\
    pool_free LP64 pool_one (4136 + 40) = Ret tt st' /\
    pool_addr st' = 4096 /\
    pool_wf LP64 st' [] /\
    Bytes.holds LP64 m' st' [] /\
    Bytes.get_pool_stats LP64 4096 m' = Bytes.Done (150, 56 - (16 + 40), 1 - 1) m' /\
    m' !! Bytes.node_is_used LP64 4136 = Some 0 /\
    Bytes.pool_free LP64 (4136 + 40) m' = Bytes.Aborted.
Proof.
  destruct (pool_free_contract LP64 LP64_ok LP64_layout) as (H0 & H1 & H2).
  split; [apply H0|]. split.
  - apply H1; [lia | vm_compute; reflexivity].
  - exact (H2 bytes_one pool_one [] (4136, 16) [] pool_one_wf bytes_one_holds).
Defined.

Lemma freed_span_is_merged_witness :
  exists st1 q st2 l',
    pool_free LP64 pool_holed (4232 + 40) = Ret tt st1 /\
    (4184, 48 + (8 + 40) + 16) ∈ gaps LP64 4136 [(4136, 8)] 4296 /\
    pool_alloc LP64 st1 72 = Ret (q + 40) st2 /\ q + 40 <> 0 /\
    pool_wf LP64 st2 l' /\ (q, align_size LP64 72) ∈ l' /\
    (exists gq, (q, gq) ∈ gaps LP64 4136 [(4136, 8)] 4296 /\
                align_size LP64 72 + 40 <= gq) /\
    (forall g, g ∈ gaps LP64 4136 [(4136, 8)] 4296 ->
               align_size LP64 72 + 40 <= snd g -> q <= fst g) /\
    q <= 4184 /\
    ((forall g, g ∈ gaps LP64 4136 [(4136, 8)] 4296 -> fst g < 4184 ->
                snd g < align_size LP64 72 + 40) ->
     q = 4184 /\ l' = [(4136, 8)] ++ (4184, align_size LP64 72) :: []).
Proof.
  apply (freed_span_is_merged LP64 LP64_ok pool_holed [(4136, 8)] (4232, 8) []
           72 pool_holed_wf).
  - vm_compute. discriminate.
  - reflexivity.
Defined.

Lemma zero_size_rejected_witness :
  align_size LP64 0 = 0 /\ pool_alloc LP64 pool_one 0 = Ret 0 pool_one.
Proof.
  apply (zero_size_rejected LP64 LP64_ok pool_one). simpl. lia.
Defined.

Lemma pool_alloc_failure_atomic_witness :
  reachable LP64 pool_empty /\
  pool_alloc LP64 pool_empty 1000 = Ret 0 pool_empty /\
  pool_empty = pool_empty.
Proof.
  assert (E : pool_alloc LP64 pool_empty 1000 = Ret 0 pool_empty)
    by (vm_compute; reflexivity).
  split; [exact pool_empty_reachable|]. split; [exact E|].
  exact (pool_alloc_failure_atomic LP64 LP64_ok pool_empty 1000 pool_empty
           pool_empty_reachable E).
Defined.

(** * Further properties of the allocator *)

Section Report.

Context (T : target) (HT : target_ok T).

Abbreviation w := (size_bits T).
Abbreviation hn := (sizeof_memory_node T).
Abbreviation hb := (sizeof_memory_block T).

Implicit Types (l : list (Z * Z)) (r : Z * Z).

(** The loop of [visualize_pool] prints the layout of the live records. *)
Lemma layout_lines_spec st l : forall pv p lo fuel,
  dllseg (nodes st) (pool_addr st) pv p l 0 ->
  chain T lo l (upper_limit (header st)) ->
  0 <= lo -> upper_limit (header st) < 2 ^ w ->
  (length l < fuel)%nat ->
  layout_lines T fuel st p lo
  = Ret (layout_of T lo l (upper_limit (header st))) st.
Proof.
  pose proof (node_size_pos T HT) as Hhn.
  induction l as [|r l IH]; intros pv p lo fuel Hseg Hc Hlo Hhi Hfuel;
    (destruct fuel as [|fuel]; [simpl in Hfuel; lia|]).
  - simpl in Hseg. subst p. simpl in Hc. cbn [layout_lines layout_of].
    rewrite Z.eqb_refl, wrap_small by lia. reflexivity.
  - simpl in Hseg. destruct Hseg as (-> & Hnz & n' & Hlk & Hrest).
    simpl in Hc. destruct Hc as (Hle & Hsz & _ & Hc).
    pose proof (chain_le T HT _ _ _ Hc) as Hend. unfold end_of in Hend.
    cbn [layout_lines layout_of].
    destruct (Z.eqb_spec (fst r) 0) as [|_]; [contradiction|].
    rewrite Hlk. cbn [size next is_used].
    rewrite (IH (fst r) n' (fst r + hn + snd r) fuel Hrest Hc)
      by (simpl in Hfuel; lia).
    rewrite !wrap_small by lia.
    reflexivity.
Qed.

Lemma layout_of_blocks l : forall lo hi,
  block_sizes (layout_of T lo l hi) = (fun r => snd r + hn) <$> l /\
  block_tags (layout_of T lo l hi) = (fun _ => true) <$> l.
Proof.
  induction l as [|r l IH]; intros lo hi; cbn [layout_of].
  - destruct (lo <? hi); split; reflexivity.
  - destruct (IH (end_of T r) hi) as [IH1 IH2].
    unfold block_sizes, block_tags in *.
    destruct (lo <? fst r); cbn; rewrite ?IH1, ?IH2; split; reflexivity.
Qed.

Lemma layout_of_gaps l : forall lo hi,
  gap_sizes (layout_of T lo l hi)
  = filter (fun g => 0 < g) ((gaps T lo l hi).*2).
Proof.
  induction l as [|r l IH]; intros lo hi; cbn [layout_of gaps].
  - rewrite fmap_cons. cbn [snd fmap list_fmap].
    destruct (Z.ltb_spec lo hi).
    + rewrite filter_cons_True by lia. reflexivity.
    + rewrite filter_cons_False by lia. reflexivity.
  - specialize (IH (end_of T r) hi). rewrite fmap_cons. cbn [snd].
    unfold gap_sizes in *.
    destruct (Z.ltb_spec lo (fst r)).
    + rewrite filter_cons_True by lia. rewrite <- IH. reflexivity.
    + rewrite filter_cons_False by lia. rewrite <- IH. reflexivity.
Qed.

Lemma layout_of_sums l : forall lo hi,
  chain T lo l hi ->
  sum_of (block_sizes (layout_of T lo l hi)) = footprints T l /\
  sum_of (gap_sizes (layout_of T lo l hi))
    + sum_of (block_sizes (layout_of T lo l hi)) = hi - lo.
Proof.
  induction l as [|r l IH]; intros lo hi Hc; cbn [layout_of].
  - simpl in Hc. destruct (Z.ltb_spec lo hi); cbn; lia.
  - simpl in Hc. destruct Hc as (Hle & _ & _ & Hc).
    destruct (IH _ _ Hc) as [IH1 IH2].
    unfold block_sizes, gap_sizes, sum_of, footprints, end_of in *.
    destruct (Z.ltb_spec lo (fst r)); cbn; cbn in IH1, IH2; lia.
Qed.

Lemma layout_of_last l : forall lo hi, last (layout_of T lo l hi) = Some Blank.
Proof.
  induction l as [|r l IH]; intros lo hi; cbn [layout_of].
  - destruct (lo <? hi); reflexivity.
  - specialize (IH (end_of T r) hi).
    destruct (layout_of T (end_of T r) l hi) as [|x xs] eqn:E;
      [discriminate|].
    destruct (lo <? fst r); cbn; cbn in IH; exact IH.
Qed.

Lemma visualize_pool_layout st l :
  pool_wf T st l ->
  visualize_pool T st
  = Ret (Title :: TotalSize (total_size (header st))
               :: UsedMemory (used_memory (header st))
               :: ActiveAllocations (num_allocations (header st))
               :: LayoutTitle
               :: layout_of T (pool_addr st + hb) l (upper_limit (header st)))
        st.
Proof.
  intros [Hp Hup Hsp Hl Hc Hu Hcnt Hlive].
  assert (Hb : 0 < hb) by (destruct HT; assumption).
  pose proof (chain_NoDup T HT _ _ _ Hc) as Hnd.
  pose proof (segment_length _ _ _ _ _ _ Hl Hnd) as Hlen.
  unfold visualize_pool.
  destruct (Z.eqb_spec (pool_addr st) 0) as [|_]; [lia|].
  rewrite (layout_lines_spec st l 0 _ _ _ Hl Hc) by lia.
  reflexivity.
Qed.

End Report.

Section Extras.

Context (T : target) (HT : target_ok T) (HL : Bytes.natural_layout T).

Abbreviation w := (size_bits T).
Abbreviation hn := (sizeof_memory_node T).
Abbreviation hb := (sizeof_memory_block T).

Implicit Types (l : list (Z * Z)) (r : Z * Z).

Lemma chain_head l lo hi : chain T lo l hi -> lo <= head_addr l hi.
Proof. destruct l; simpl; intros; [assumption | tauto]. Qed.

Lemma chain_ends l : forall lo hi r,
  chain T lo l hi -> r ∈ l ->
  lo <= fst r /\ end_of T r <= last_end T lo l /\ last_end T lo l <= hi.
Proof.
  induction l as [|r0 l IH]; simpl; intros lo hi r Hc Hr; [inversion Hr|].
  destruct Hc as (Hlo & Hsz & _ & Hc).
  pose proof (end_of_gt T HT r0 Hsz) as Hgt.
  pose proof Hc as Hc'. rewrite <- (app_nil_r l) in Hc'.
  apply (chain_app T l []) in Hc' as [Hc1 Hc2].
  simpl in Hc2. pose proof (chain_le T HT _ _ _ Hc1) as Hle.
  apply elem_of_cons in Hr as [-> | Hr]; [lia|].
  destruct (IH _ _ _ Hc Hr) as (H1 & H2 & H3). lia.
Qed.

(** X1.  In a pool in good order [visualize_pool] returns, leaves the pool
    as it is, and prints, after the title and the three statistics: one
    line for each live record, in address order, tagged USED and giving the
    size of the record plus the header size; one line for each gap of
    positive length, in address order; and an empty line at the end. *)
Theorem visualize_pool_report st l :
  pool_wf T st l ->
  exists ls,
    visualize_pool T st
    = Ret (Title :: TotalSize (total_size (header st))
                 :: UsedMemory (used_memory (header st))
                 :: ActiveAllocations (num_allocations (header st))
                 :: LayoutTitle :: ls) st /\
    block_sizes ls = (fun r => snd r + hn) <$> l /\
    block_tags ls = (fun _ => true) <$> l /\
    gap_sizes ls
    = filter (fun g => 0 < g)
             ((gaps T (pool_addr st + hb) l (upper_limit (header st))).*2) /\
    last ls = Some Blank.
Proof.
  intros Hwf. eexists. split; [apply (visualize_pool_layout T HT), Hwf|].
  destruct (layout_of_blocks T l (pool_addr st + hb) (upper_limit (header st)))
    as [H1 H2].
  split; [exact H1|]. split; [exact H2|].
  split; [apply layout_of_gaps | apply layout_of_last].
Qed.

(** X2.  The report of [visualize_pool] on a pool in good order reconciles
    with the statistics: the sizes on the node lines add up to the used
    memory, there are as many node lines as active allocations, and the
    sizes on all gap and node lines add up to the total size less the size
    of the pool header. *)
Theorem visualize_pool_reconciles st l ls st' :
  pool_wf T st l -> visualize_pool T st = Ret ls st' ->
  st' = st /\
  sum_of (block_sizes ls) = used_memory (header st) /\
  Z.of_nat (length (block_sizes ls)) = num_allocations (header st) /\
  sum_of (gap_sizes ls) + sum_of (block_sizes ls)
  = total_size (header st) - hb.
Proof.
  intros Hwf Hv. rewrite (visualize_pool_layout T HT st l Hwf) in Hv.
  injection Hv as <- <-. split; [reflexivity|].
  destruct (layout_of_sums T l _ _ (wf_chain _ _ _ Hwf)) as [H1 H2].
  destruct (layout_of_blocks T l (pool_addr st + hb) (upper_limit (header st)))
    as [H3 _].
  change (block_sizes (Title :: ?a :: ?b :: ?c :: LayoutTitle :: ?x))
    with (block_sizes x).
  change (gap_sizes (Title :: ?a :: ?b :: ?c :: LayoutTitle :: ?x))
    with (gap_sizes x).
  split; [rewrite H1; symmetry; apply (wf_used _ _ _ Hwf)|].
  split; [rewrite H3, length_fmap; symmetry; apply (wf_count _ _ _ Hwf)|].
  rewrite H2, (wf_upper _ _ _ Hwf). lia.
Qed.

(** X3.  [destroy_pool] on a pool in good order prints its warning exactly
    when some record is live, with the number of live records. *)
Theorem destroy_pool_warning st l :
  pool_wf T st l ->
  destroy_pool st
  = Some (if decide (l = []) then []
          else [LeakWarning (Z.of_nat (length l))]).
Proof.
  intros Hwf. unfold destroy_pool.
  pose proof (wf_pool _ _ _ Hwf) as Hp.
  destruct (Z.eqb_spec (pool_addr st) 0) as [|_]; [lia|].
  rewrite (wf_count _ _ _ Hwf).
  destruct l as [|r l]; [reflexivity|].
  destruct (Z.ltb_spec 0 (Z.of_nat (length (r :: l))));
    [reflexivity | simpl in *; lia].
Qed.

(** X4.  Freeing the pointers of all live records of a pool in good order,
    in any order, succeeds at every call and leaves an empty pool in good
    order: used memory and the number of allocations are 0, the total size
    is unchanged, and [destroy_pool] then prints no warning. *)
Theorem free_all_empties_pool ps : forall st l,
  pool_wf T st l -> ps ≡ₚ pointers T l ->
  exists st',
    run T st (Free <$> ps) = Some st' /\
    pool_wf T st' [] /\
    get_pool_stats st' = (total_size (header st), 0, 0) /\
    destroy_pool st' = Some [].
Proof.
  induction ps as [|p ps IH]; intros st l Hwf Hperm.
  - symmetry in Hperm. apply Permutation_nil_r in Hperm.
    apply fmap_nil_inv in Hperm. subst l.
    exists st. split; [reflexivity|]. split; [exact Hwf|].
    unfold get_pool_stats, destroy_pool.
    pose proof (wf_pool _ _ _ Hwf) as Hp.
    rewrite (wf_used _ _ _ Hwf), (wf_count _ _ _ Hwf).
    destruct (Z.eqb_spec (pool_addr st) 0) as [|_]; [lia|].
    split; reflexivity.
  - assert (Hin : p ∈ pointers T l)
      by (rewrite <- Hperm; apply list_elem_of_here).
    unfold pointers in Hin.
    apply list_elem_of_fmap in Hin as (r & -> & Hr).
    apply list_elem_of_split in Hr as (l1 & l2 & ->).
    destruct (pool_free_live T HT st l1 r l2 Hwf)
      as (st1 & Hfr & Hwf1 & _ & _ & _ & Ht1 & _).
    unfold pointers in Hperm. rewrite fmap_app, fmap_cons in Hperm.
    rewrite <- Permutation_middle in Hperm.
    apply Permutation_cons_inv in Hperm.
    rewrite <- fmap_app in Hperm.
    destruct (IH st1 (l1 ++ l2) Hwf1 Hperm) as (st' & Hrun & Hwf' & Hst & Hd).
    exists st'. rewrite fmap_cons. cbn [run]. rewrite Hfr.
    split; [exact Hrun|]. split; [exact Hwf'|].
    rewrite Hst, Ht1. split; [reflexivity | exact Hd].
Qed.

(** X5.  In a pool in good order, [pool_free] of the pointer that
    [pool_alloc] has just returned undoes the allocation: the live records,
    the list head and the three statistics are what they were before the
    two calls. *)
Theorem alloc_free_round_trip st l s q st1 :
  pool_wf T st l ->
  align_size T s + hn < 2 ^ w ->
  (l = [] ->
   align_size T s + hn <= upper_limit (header st) - (pool_addr st + hb)) ->
  pool_alloc T st s = Ret q st1 -> q <> 0 ->
  exists st2,
    pool_free T st1 q = Ret tt st2 /\
    pool_wf T st2 l /\
    get_pool_stats st2 = get_pool_stats st /\
    first (header st2) = first (header st).
Proof.
  intros Hwf Hov Hroom Hal Hq.
  destruct (pool_alloc_success T HT st l s q st1 Hwf Hov Hroom Hal Hq)
    as (l1 & l2 & -> & Hwf1 & Hp1 & Ht1).
  destruct (pool_free_live T HT st1 l1 _ l2 Hwf1)
    as (st2 & Hfr & Hwf2 & _ & _ & _ & Ht2 & _).
  cbn [fst] in Hfr. replace (q - hn + hn) with q in Hfr by lia.
  exists st2. split; [exact Hfr|]. split; [exact Hwf2|].
  unfold get_pool_stats.
  rewrite Ht2, Ht1, (wf_used _ _ _ Hwf2), (wf_used _ _ _ Hwf),
    (wf_count _ _ _ Hwf2), (wf_count _ _ _ Hwf).
  split; [reflexivity|].
  rewrite (dllseg_head _ _ _ _ _ _ (wf_list _ _ _ Hwf2)).
  rewrite (dllseg_head _ _ _ _ _ _ (wf_list _ _ _ Hwf)). reflexivity.
Qed.

(** X6.  In a pool in good order a second [pool_free] of a pointer, right
    after the first one has returned, fails the assertion. *)
Theorem double_free_is_caught st l ptr st' :
  pool_wf T st l -> ptr <> 0 ->
  pool_free T st ptr = Ret tt st' ->
  pool_free T st' ptr = Abort.
Proof.
  intros Hwf Hnz Hfr. pose proof Hfr as Hfr0. unfold pool_free in Hfr.
  destruct (Z.eqb_spec ptr 0) as [|_]; [contradiction|].
  destruct (nodes st !! (ptr - hn)) as [n|] eqn:Hlk; [|discriminate].
  destruct (is_used n) eqn:Hused; [|discriminate]. clear Hfr.
  pose proof (wf_live _ _ _ Hwf _ _ Hlk Hused) as Hin.
  apply list_elem_of_fmap in Hin as (r & Hr & Hin).
  apply list_elem_of_split in Hin as (l1 & l2 & ->).
  destruct (pool_free_live T HT st l1 r l2 Hwf)
    as (st0 & Hfr & _ & _ & _ & _ & _ & _ & n0 & Hlk0 & Hfree).
  replace (fst r + hn) with ptr in Hfr by lia.
  rewrite Hfr in Hfr0. injection Hfr0 as <-.
  unfold pool_free.
  destruct (Z.eqb_spec ptr 0) as [|_]; [contradiction|].
  rewrite Hr, Hlk0, Hfree. reflexivity.
Qed.

(** X7.  A freed block can be used again: in a pool in good order, after
    [pool_free] of a live record, [pool_alloc] of any non-zero request
    whose aligned size is at most the size of that record succeeds, at the
    freed pointer or at a lower one. *)
Theorem freed_block_is_reusable st l1 r l2 s :
  pool_wf T st (l1 ++ r :: l2) ->
  0 < align_size T s <= snd r ->
  exists st1 q st2 l',
    pool_free T st (fst r + hn) = Ret tt st1 /\
    pool_alloc T st1 s = Ret q st2 /\
    q <> 0 /\ q <= fst r + hn /\
    pool_wf T st2 l'.
Proof.
  intros Hwf Hs.
  pose proof (node_size_pos T HT) as Hhn.
  assert (Hb : 0 < hb) by (destruct HT; assumption).
  destruct (pool_free_live T HT st l1 r l2 Hwf)
    as (st1 & Hfr & Hwf1 & _ & _ & Hp1 & _ & Hup1 & _).
  pose proof (wf_chain _ _ _ Hwf) as Hc.
  apply chain_app in Hc as [Hc1 Hc2]. simpl in Hc2.
  destruct Hc2 as (Hlo & Hsz & _ & Hc2).
  pose proof (chain_head _ _ _ Hc2) as Hhead. unfold end_of in Hhead.
  pose proof (chain_le T HT _ _ _ Hc1) as Hle.
  pose proof (wf_chain _ _ _ Hwf1) as Hc'. rewrite Hp1, Hup1 in Hc'.
  pose proof (gaps_middle T l1 l2 (pool_addr st + hb) (upper_limit (header st)))
    as Hgap.
  destruct (place_some T (l1 ++ l2) _ _ (align_size T s + hn)
                       (align_size T s) _ Hgap ltac:(simpl; lia))
    as (q0 & l' & E).
  pose proof (pool_alloc_place T HT st1 (l1 ++ l2) s Hwf1 ltac:(lia)) as Hal.
  rewrite Hp1, Hup1, E in Hal. destruct Hal as (st2 & Hal & Hwf2 & _).
  destruct (place_first_fit T HT _ _ _ _ _ _ _ Hc' E) as [_ Hmin].
  pose proof (Hmin _ Hgap ltac:(simpl; lia)) as Hq. simpl in Hq.
  pose proof (place_lb T HT _ _ _ _ _ _ _ Hc' E) as Hlb.
  pose proof (wf_pool _ _ _ Hwf) as Hp.
  exists st1, (q0 + hn), st2, l'.
  split; [exact Hfr|]. split; [exact Hal|].
  split; [lia|]. split; [lia | exact Hwf2].
Qed.

(** X8.  In a pool in good order, the block a successful [pool_alloc]
    returns lies inside the data area, after its own header, and shares no
    byte with the header or the bytes of any record that was live; the
    records that were live stay in the list.  (On an empty pool this needs
    the data area to have room, and the aligned size plus header not to
    wrap.) *)
Theorem new_block_is_disjoint st l s q st' :
  pool_wf T st l ->
  align_size T s + hn < 2 ^ w ->
  (l = [] ->
   align_size T s + hn <= upper_limit (header st) - (pool_addr st + hb)) ->
  pool_alloc T st s = Ret q st' -> q <> 0 ->
  pool_addr st + hb + hn <= q /\
  q + align_size T s <= upper_limit (header st) /\
  (forall r, r ∈ l -> end_of T r <= q - hn \/ q + align_size T s <= fst r) /\
  exists l', pool_wf T st' l' /\ (q - hn, align_size T s) ∈ l' /\
             forall r, r ∈ l -> r ∈ l'.
Proof.
  intros Hwf Hov Hroom Hal Hq.
  destruct (pool_alloc_success T HT st l s q st' Hwf Hov Hroom Hal Hq)
    as (l1 & l2 & -> & Hwf1 & Hp1 & Ht1).
  pose proof (wf_chain _ _ _ Hwf1) as Hc.
  rewrite (wf_upper _ _ _ Hwf1), Hp1, Ht1, <- (wf_upper _ _ _ Hwf) in Hc.
  apply chain_app in Hc as [Hc1 Hc2]. cbn [chain fst snd] in Hc2.
  destruct Hc2 as (Hlo & Hsz & _ & Hc2). unfold end_of at 1 in Hc2.
  cbn [fst snd] in Hc2.
  pose proof (chain_le T HT _ _ _ Hc1) as Hle1.
  pose proof (chain_le T HT _ _ _ Hc2) as Hle2.
  split; [lia|]. split; [lia|]. split.
  - intros r Hr. apply elem_of_app in Hr as [Hr | Hr].
    + left. destruct (chain_ends _ _ _ _ Hc1 Hr) as (_ & H2 & _). lia.
    + right. apply (list_elem_of_fmap_2 fst) in Hr.
      pose proof (chain_lb T HT _ _ _ Hc2 _ Hr). lia.
  - eexists. split; [exact Hwf1|]. split.
    + apply elem_of_app. right. apply list_elem_of_here.
    + intros r Hr. apply elem_of_app in Hr as [Hr | Hr];
        apply elem_of_app; [left | right; apply list_elem_of_further];
        exact Hr.
Qed.

(** X9.  [align_size] is idempotent, and for every size up to
    [SIZE_MAX - 7] its result is a multiple of 8, is not below the size, and
    is at most every multiple of 8 that is not below the size: the least
    one. *)
Theorem align_size_least :
  (forall s, align_size T (align_size T s) = align_size T s) /\
  (forall s, 0 <= s <= 2 ^ w - 8 ->
     (8 | align_size T s) /\ s <= align_size T s /\
     forall m, (8 | m) -> s <= m -> align_size T s <= m).
Proof.
  pose proof (word_pos T HT) as Hw.
  assert (H8 : 2 ^ w = 8 * 2 ^ (w - 3)).
  { destruct HT as [Hb _ _ _ _].
    replace w with (3 + (w - 3)) at 1 by lia.
    rewrite Z.pow_add_r by lia. reflexivity. }
  split.
  - intros s. rewrite (align_size_eq T HT s).
    pose proof (wrap_range T HT (s + 7)) as Hr.
    set (j := wrap T (s + 7) / 8).
    assert (Hj : 0 <= j < 2 ^ (w - 3)).
    { unfold j. split; [apply Z.div_pos; lia|].
      apply Z.div_lt_upper_bound; lia. }
    rewrite (align_size_eq T HT), wrap_small by lia.
    replace (8 * j + 7) with (j * 8 + 7) by lia.
    rewrite Z.div_add_l by lia. change (7 / 8) with 0. lia.
  - intros s Hs.
    split; [apply (align_size_divide T HT)|].
    split; [apply (align_size_bounds T HT); lia|].
    intros m [k ->] Hle.
    rewrite (align_size_eq T HT), wrap_small by lia.
    assert ((s + 7) / 8 <= k); [|lia].
    replace k with ((k * 8 + 7) / 8)
      by (rewrite Z.div_add_l by lia; change (7 / 8) with 0; lia).
    apply Z.div_le_mono; lia.
Qed.

(** X10.  A pool that [create_memory_pool] has just returned is empty and
    in good order: its statistics are the requested size, 0 and 0, its
    report shows one gap of the requested size less the pool header (no gap
    line when nothing is left), and [destroy_pool] prints no warning. *)
Theorem fresh_pool_report p sz st :
  0 < p -> p + sz < 2 ^ w ->
  create_memory_pool T p sz = Some st ->
  pool_wf T st [] /\
  get_pool_stats st = (sz, 0, 0) /\
  visualize_pool T st
  = Ret ([Title; TotalSize sz; UsedMemory 0; ActiveAllocations 0; LayoutTitle]
           ++ (if hb <? sz then [GapLine (sz - hb)] else []) ++ [Blank]) st /\
  destroy_pool st = Some [].
Proof.
  intros Hp Hsp Hc.
  pose proof (create_wf T p sz st HT Hp Hsp Hc) as Hwf.
  split; [exact Hwf|].
  rewrite (visualize_pool_layout T HT st [] Hwf).
  unfold create_memory_pool in Hc.
  destruct (sz <? MIN_BLOCK_SIZE T); [discriminate|].
  destruct (Z.eqb_spec p 0) as [|Hnz]; [discriminate|]. injection Hc as <-.
  unfold get_pool_stats, destroy_pool.
  cbn [header pool_addr total_size used_memory num_allocations upper_limit
       layout_of].
  destruct (Z.eqb_spec p 0) as [|_]; [contradiction|].
  split; [reflexivity|]. split; [|reflexivity].
  destruct (Z.ltb_spec (p + hb) (p + sz)), (Z.ltb_spec hb sz); try lia;
    [|reflexivity].
  replace (p + sz - (p + hb)) with (sz - hb) by lia. reflexivity.
Qed.

Lemma length_min_footprints l lo hi :
  chain T lo l hi -> Z.of_nat (length l) * (hn + 8) <= footprints T l.
Proof.
  revert lo. induction l as [|r l IH]; simpl; intros lo H; [lia|].
  destruct H as (H1 & H2 & [k Hk] & H3). apply IH in H3. lia.
Qed.

(** X11.  The statistics of a pool in good order are bounded: used memory
    plus the pool header is at most the total size, and every allocation
    accounts for at least a header and 8 bytes of the used memory. *)
Theorem stats_bounds st l total used count :
  pool_wf T st l ->
  get_pool_stats st = (total, used, count) ->
  used + hb <= total /\ count * (hn + 8) <= used /\ 0 <= count.
Proof.
  intros Hwf Hst. unfold get_pool_stats in Hst. injection Hst as <- <- <-.
  pose proof (chain_footprints T _ _ _ (wf_chain _ _ _ Hwf)) as Hf.
  pose proof (length_min_footprints _ _ _ (wf_chain _ _ _ Hwf)) as Hm.
  rewrite (wf_upper _ _ _ Hwf) in Hf.
  rewrite (wf_used _ _ _ Hwf), (wf_count _ _ _ Hwf). lia.
Qed.




(** X13.  [create_memory_pool] accepts sizes that leave no room for a
    record: in a fresh pool smaller than the pool header, a node header and
    8 bytes together, every allocation that succeeds ends after the upper
    limit. *)
Theorem small_pool_overruns p sz st s q st' :
  0 < p -> sz < hb + hn + 8 ->
  create_memory_pool T p sz = Some st ->
  pool_alloc T st s = Ret q st' -> q <> 0 ->
  q = p + hb + hn /\ upper_limit (header st') < q + align_size T s.
Proof.
  intros Hp Hsmall Hc Hal Hq.
  unfold create_memory_pool in Hc.
  destruct (sz <? MIN_BLOCK_SIZE T); [discriminate|].
  destruct (Z.eqb_spec p 0) as [|Hnz]; [discriminate|]. injection Hc as <-.
  pose proof (align_size_range T HT s) as Hr.
  pose proof (align_size_divide T HT s) as [k Hk].
  unfold pool_alloc in Hal.
  cbn [pool_addr header first total_size used_memory nodes] in Hal.
  destruct (Z.eqb_spec p 0) as [|_]; [contradiction|].
  destruct (Z.eqb_spec (align_size T s) 0) as [|Hnz0];
    [injection Hal as <- <-; contradiction|].
  destruct (wrap T _ <? wrap T _);
    [injection Hal as <- <-; contradiction|].
  rewrite Z.eqb_refl in Hal. injection Hal as <- <-.
  split; [reflexivity|]. cbn [header charge upper_limit]. lia.
Qed.

(** X14.  While the pool is in good order its capacity does not change,
    in the bytes of the region as in the headers.  For a pool in good order
    that the region holds: a [pool_alloc] whose aligned size plus header does
    not wrap (and fits the data area, when the pool is empty) returns over
    the bytes what it returns over the headers, and so does a [pool_free] of
    a live record; the region then holds the resulting pool, which is in
    good order; and [total_size] and [upper_limit] read what they read
    before. *)
Theorem capacity_is_constant m st l :
  pool_wf T st l -> Bytes.holds T m st l ->
  let P := pool_addr st in
  let total := total_size (header st) in
  (forall s q st',
     align_size T s + hn < 2 ^ w ->
     (l = [] -> align_size T s + hn <= upper_limit (header st) - (P + hb)) ->
     pool_alloc T st s = Ret q st' ->
     exists m' l',
       Bytes.pool_alloc T P s m = Bytes.Done q m' /\
       pool_wf T st' l' /\ Bytes.holds T m' st' l' /\
       Bytes.read_word T (Bytes.pool_total_size T P) m' = Bytes.Done total m' /\
       Bytes.read_word T (Bytes.pool_upper_limit T P) m'
       = Bytes.Done (P + total) m') /\
  (forall l1 r l2,
     l = l1 ++ r :: l2 ->
     exists m' st',
       Bytes.pool_free T (fst r + hn) m = Bytes.Done tt m' /\
       pool_free T st (fst r + hn) = Ret tt st' /\
       pool_wf T st' (l1 ++ l2) /\ Bytes.holds T m' st' (l1 ++ l2) /\
       Bytes.read_word T (Bytes.pool_total_size T P) m' = Bytes.Done total m' /\
       Bytes.read_word T (Bytes.pool_upper_limit T P) m'
       = Bytes.Done (P + total) m').
Proof.
  intros Hwf Hh P total.
  assert (Hreads : forall m' st' l',
    pool_wf T st' l' -> Bytes.holds T m' st' l' ->
    pool_addr st' = P -> total_size (header st') = total ->
    Bytes.read_word T (Bytes.pool_total_size T P) m' = Bytes.Done total m' /\
    Bytes.read_word T (Bytes.pool_upper_limit T P) m'
    = Bytes.Done (P + total) m').
  { intros m' st' l' Hwf' Hh' Hp Ht.
    pose proof (Bytes.stored_block _ _ _ _ _ _ Hh') as (_ & B2 & B3 & _).
    rewrite (wf_upper _ _ _ Hwf') in B2. rewrite Hp, Ht in *.
    split; apply read_word_load; assumption. }
  split.
  - intros s q st' Hov Hroom Hal.
    destruct (pool_alloc_bytes T HT HL m st l s q st' Hwf Hh Hov Hroom Hal)
      as (m' & l' & Hrun & Hwf' & Hh' & Hp & Ht & _).
    exists m', l'. split; [exact Hrun|]. split; [exact Hwf'|].
    split; [exact Hh'|]. exact (Hreads _ _ _ Hwf' Hh' Hp Ht).
  - intros l1 r l2 ->.
    destruct (pool_free_bytes T HT HL m st l1 r l2 Hwf Hh)
      as (m' & st' & Hrun & Hfr & Hh' & _).
    destruct (pool_free_live T HT st l1 r l2 Hwf)
      as (st0 & Hfr0 & Hwf' & _ & _ & Hp & Ht & _).
    rewrite Hfr in Hfr0. injection Hfr0 as <-.
    assert (Hh'' : Bytes.holds T m' st' (l1 ++ l2)).
    { eapply stored_weaken; [exact Hh'|].
      intros x. rewrite !fmap_app, fmap_cons, !elem_of_app, elem_of_cons.
      tauto. }
    exists m', st'. split; [exact Hrun|]. split; [exact Hfr|].
    split; [exact Hwf'|]. split; [exact Hh''|].
    exact (Hreads _ _ _ Hwf' Hh'' Hp Ht).
Qed.

(** X17.  [create_memory_pool] over the bytes: when it returns the pointer
    that [malloc] gave, whatever [malloc] left in the region, the region
    holds an empty pool in good order, [get_pool_stats] reads the requested
    size, 0 and 0, and every byte of the data area is [0xCC]. *)
Theorem fresh_pool_in_bytes junk p sz st :
  0 < p -> p + sz < 2 ^ w ->
  create_memory_pool T p sz = Some st ->
  exists m,
    Bytes.create_memory_pool T junk p sz = Bytes.Done p m /\
    pool_wf T st [] /\ Bytes.holds T m st [] /\
    Bytes.get_pool_stats T p m = Bytes.Done (sz, 0, 0) m /\
    forall a, p + hb <= a < p + sz -> m !! a = Some 204.
Proof.
  intros Hp Hsp Hc.
  destruct (create_bytes T HT HL junk p sz st Hp Hsp Hc) as (m & Hrun & Hh & Hcc).
  pose proof (create_wf T p sz st HT Hp Hsp Hc) as Hwf.
  assert (Est : st = Arena p (Block 0 (p + sz) sz 0 0) ∅).
  { unfold create_memory_pool in Hc.
    destruct (sz <? MIN_BLOCK_SIZE T); [discriminate|].
    destruct (p =? 0); [discriminate|]. injection Hc as <-. reflexivity. }
  exists m. split; [exact Hrun|]. split; [exact Hwf|]. split; [exact Hh|].
  split; [|exact Hcc].
  pose proof (get_pool_stats_bytes T m st [] ltac:(subst st; exact Hp) Hh) as Hst.
  subst st. exact Hst.
Qed.

Lemma stacked_app lo s1 s2 :
  stacked T lo (s1 ++ s2)
  = stacked T lo s1 ++ stacked T (last_end T lo (stacked T lo s1)) s2.
Proof.
  revert lo. induction s1 as [|s s1 IH]; intros lo; simpl; [reflexivity|].
  rewrite IH. reflexivity.
Qed.

Lemma last_end_app l1 l2 : forall x,
  last_end T x (l1 ++ l2) = last_end T (last_end T x l1) l2.
Proof. induction l1 as [|r l1 IH]; intros x; simpl; [reflexivity|apply IH]. Qed.

Lemma last_end_stacked sizes : forall lo,
  lo <= last_end T lo (stacked T lo sizes).
Proof.
  pose proof (node_size_pos T HT) as Hhn.
  induction sizes as [|s sizes IH]; intros lo; cbn [stacked last_end]; [lia|].
  unfold end_of. cbn [fst snd].
  pose proof (align_size_range T HT s).
  pose proof (IH (lo + hn + align_size T s)). lia.
Qed.

Lemma place_stacked sizes : forall lo hi need sz,
  0 < need -> need <= hi - last_end T lo (stacked T lo sizes) ->
  place T lo (stacked T lo sizes) hi need sz
  = Some (last_end T lo (stacked T lo sizes),
          stacked T lo sizes ++ [(last_end T lo (stacked T lo sizes), sz)]).
Proof.
  induction sizes as [|s sizes IH]; intros lo hi need sz Hpos Hroom;
    cbn [stacked place last_end app] in *.
  - destruct (Z.leb_spec need (hi - lo)); [reflexivity | lia].
  - cbn [fst]. destruct (Z.leb_spec need (lo - lo)); [lia|].
    unfold end_of in *. cbn [fst snd] in *.
    rewrite IH by assumption. reflexivity.
Qed.

Lemma run_stacked rest : forall st done,
  pool_wf T st (stacked T (pool_addr st + hb) done) ->
  Forall (fun s => 0 < s <= 2 ^ w - 8) rest ->
  last_end T (pool_addr st + hb) (stacked T (pool_addr st + hb) (done ++ rest))
    <= upper_limit (header st) ->
  exists st',
    run T st (Alloc <$> rest) = Some st' /\
    pool_addr st' = pool_addr st /\
    pool_wf T st' (stacked T (pool_addr st + hb) (done ++ rest)).
Proof.
  pose proof (node_size_pos T HT) as Hhn.
  induction rest as [|s rest IH]; intros st done Hwf Hsz Hroom.
  - rewrite app_nil_r. exists st. simpl. tauto.
  - apply Forall_cons in Hsz as [Hs Hsz].
    pose proof (align_size_bounds T HT s ltac:(lia) ltac:(lia)) as Hb.
    set (lo := pool_addr st + hb) in *.
    set (e := last_end T lo (stacked T lo done)).
    assert (He : e + hn + align_size T s
                 <= last_end T lo (stacked T lo (done ++ s :: rest))).
    { rewrite stacked_app, last_end_app. fold e.
      cbn [stacked last_end]. unfold end_of. cbn [fst snd].
      apply last_end_stacked. }
    pose proof (pool_alloc_place T HT st _ s Hwf ltac:(lia)) as Hal.
    fold lo in Hal.
    assert (Hpos : 0 < align_size T s + hn) by lia.
    assert (Hfit : align_size T s + hn <= upper_limit (header st) - e) by lia.
    rewrite (place_stacked done lo _ _ (align_size T s) Hpos Hfit) in Hal.
    fold e in Hal.
    destruct Hal as (st1 & Hal & Hwf1 & Hp1 & Ht1).
    assert (Hup1 : upper_limit (header st1) = upper_limit (header st)).
    { rewrite (wf_upper _ _ _ Hwf1), (wf_upper _ _ _ Hwf), Hp1, Ht1.
      reflexivity. }
    assert (Hd : stacked T lo done ++ [(e, align_size T s)]
                 = stacked T lo (done ++ [s])).
    { rewrite stacked_app. reflexivity. }
    rewrite Hd in Hwf1.
    destruct (IH st1 (done ++ [s])) as (st' & Hrun & Hp' & Hwf').
    + rewrite Hp1. exact Hwf1.
    + exact Hsz.
    + rewrite Hp1, Hup1, <- app_assoc. exact Hroom.
    + exists st'. rewrite fmap_cons. cbn [run]. rewrite Hal.
      split; [exact Hrun|]. split; [congruence|].
      rewrite Hp1, <- app_assoc in Hwf'. exact Hwf'.
Qed.

(** X15.  Allocations from a fresh pool are laid out back to back in the
    order of the requests: when the aligned sizes and one header for each
    fit in the data area, all the calls succeed, and the records lie one
    right after the other from the start of the data area. *)
Theorem fresh_allocations_are_stacked p sz st0 sizes :
  0 < p -> p + sz < 2 ^ w ->
  create_memory_pool T p sz = Some st0 ->
  Forall (fun s => 0 < s <= 2 ^ w - 8) sizes ->
  last_end T (p + hb) (stacked T (p + hb) sizes) <= p + sz ->
  exists st,
    run T st0 (Alloc <$> sizes) = Some st /\
    pool_wf T st (stacked T (p + hb) sizes).
Proof.
  intros Hp Hsp Hc Hsz Hroom.
  pose proof (create_wf T p sz st0 HT Hp Hsp Hc) as Hwf.
  assert (H0 : pool_addr st0 = p /\ upper_limit (header st0) = p + sz).
  { unfold create_memory_pool in Hc.
    destruct (sz <? MIN_BLOCK_SIZE T); [discriminate|].
    destruct (p =? 0); [discriminate|]. injection Hc as <-. simpl. tauto. }
  destruct H0 as [Hp0 Hup0].
  destruct (run_stacked sizes st0 []) as (st & Hrun & _ & Hwf').
  - exact Hwf.
  - exact Hsz.
  - rewrite Hp0, Hup0. exact Hroom.
  - exists st. rewrite Hp0 in Hwf'. tauto.
Qed.

(** X16.  In a pool in good order that holds at least one record,
    [pool_alloc] of a request with a non-zero aligned size (that does not
    wrap with the header) returns a non-null pointer exactly when some gap
    has room for the aligned size and a header. *)
Theorem alloc_succeeds_iff_gap st l s :
  pool_wf T st l -> l <> [] ->
  align_size T s <> 0 -> align_size T s + hn < 2 ^ w ->
  (exists q st', pool_alloc T st s = Ret q st' /\ q <> 0) <->
  (exists g, g ∈ gaps T (pool_addr st + hb) l (upper_limit (header st)) /\
             align_size T s + hn <= snd g).
Proof.
  intros Hwf Hne Hnz Hov.
  pose proof (pool_alloc_place T HT st l s Hwf Hnz) as Hal.
  pose proof (wf_pool _ _ _ Hwf) as Hp.
  pose proof (node_size_pos T HT) as Hhn.
  assert (Hb : 0 < hb) by (destruct HT; assumption).
  destruct (place T (pool_addr st + hb) l (upper_limit (header st))
                  (align_size T s + hn) (align_size T s))
    as [[q0 l0]|] eqn:E.
  - destruct (place_first_fit T HT _ _ _ _ _ _ _ (wf_chain _ _ _ Hwf) E)
      as [(g & Hg & Hn) _].
    pose proof (place_lb T HT _ _ _ _ _ _ _ (wf_chain _ _ _ Hwf) E) as Hlb.
    destruct Hal as (st' & Hal & _).
    split; intros _.
    + exists (q0, g). tauto.
    + exists (q0 + hn), st'. split; [exact Hal | lia].
  - specialize (Hal Hne Hov). split.
    + intros (q & st' & Hal' & Hq). rewrite Hal in Hal'.
      injection Hal' as <- <-. contradiction.
    + intros (g & Hg & Hn).
      pose proof (proj1 (place_none T _ _ _ _ _) E g Hg). lia.
Qed.

End Extras.

(** ** The further properties at concrete pools *)

Lemma visualize_pool_report_witness :
  exists ls,
    visualize_pool LP64 pool_holed
    = Ret (Title :: TotalSize 200 :: UsedMemory 96 :: ActiveAllocations 2
                 :: LayoutTitle :: ls) pool_holed /\
    block_sizes ls = [48; 48] /\
    block_tags ls = [true; true] /\
    gap_sizes ls = [48; 16] /\
    last ls = Some Blank.
Proof.
  exact (visualize_pool_report LP64 LP64_ok pool_holed _ pool_holed_wf).
Defined.

Lemma visualize_pool_reconciles_witness :
  pool_holed = pool_holed /\
  sum_of [48; 48] = used_memory (header pool_holed) /\
  Z.of_nat 2 = num_allocations (header pool_holed) /\
  sum_of [48; 16] + sum_of [48; 48] = total_size (header pool_holed) - 40.
Proof.
  apply (visualize_pool_reconciles LP64 LP64_ok pool_holed _
           [Title; TotalSize 200; UsedMemory 96; ActiveAllocations 2;
            LayoutTitle; NodeLine true 48; GapLine 48; NodeLine true 48;
            GapLine 16; Blank]
           pool_holed pool_holed_wf).
  vm_compute. reflexivity.
Defined.

Lemma destroy_pool_warning_witness :
  destroy_pool pool_holed = Some [LeakWarning 2].
Proof.
  exact (destroy_pool_warning LP64 pool_holed _ pool_holed_wf).
Defined.

Lemma free_all_empties_pool_witness :
  exists st',
    run LP64 pool_holed [Free 4272; Free 4176] = Some st' /\
    pool_wf LP64 st' [] /\
    get_pool_stats st' = (200, 0, 0) /\
    destroy_pool st' = Some [].
Proof.
  apply (free_all_empties_pool LP64 LP64_ok [4272; 4176] pool_holed
           [(4136, 8); (4232, 8)] pool_holed_wf).
  apply perm_swap.
Defined.

Lemma alloc_free_round_trip_witness :
  exists st1 st2,
    pool_alloc LP64 pool_one 8 = Ret 4232 st1 /\
    pool_free LP64 st1 4232 = Ret tt st2 /\
    pool_wf LP64 st2 [(4136, 16)] /\
    get_pool_stats st2 = (150, 56, 1) /\
    first (header st2) = 4136.
Proof.
  assert (E : exists st1, pool_alloc LP64 pool_one 8 = Ret 4232 st1)
    by (eexists; vm_compute; reflexivity).
  destruct E as [st1 E]. exists st1.
  destruct (alloc_free_round_trip LP64 LP64_ok pool_one [(4136, 16)] 8 4232 st1
              pool_one_wf)
    as (st2 & H); [vm_compute; reflexivity | discriminate | exact E | lia |].
  exists st2. split; [exact E | exact H].
Defined.

Lemma double_free_is_caught_witness :
  exists st',
    pool_free LP64 pool_one 4176 = Ret tt st' /\
    pool_free LP64 st' 4176 = Abort.
Proof.
  assert (E : exists st', pool_free LP64 pool_one 4176 = Ret tt st')
    by (eexists; vm_compute; reflexivity).
  destruct E as [st' E]. exists st'. split; [exact E|].
  apply (double_free_is_caught LP64 LP64_ok pool_one [(4136, 16)] 4176 st'
           pool_one_wf); [lia | exact E].
Defined.

Lemma freed_block_is_reusable_witness :
  exists st1 q st2 l',
    pool_free LP64 pool_holed (4232 + 40) = Ret tt st1 /\
    pool_alloc LP64 st1 8 = Ret q st2 /\
    q <> 0 /\ q <= 4232 + 40 /\
    pool_wf LP64 st2 l'.
Proof.
  apply (freed_block_is_reusable LP64 LP64_ok pool_holed [(4136, 8)] (4232, 8)
           [] 8 pool_holed_wf).
  vm_compute. split; [reflexivity | discriminate].
Defined.

Lemma new_block_is_disjoint_witness :
  4096 + 40 + 40 <= 4232 /\
  4232 + align_size LP64 8 <= 4246 /\
  (forall r, r ∈ [(4136, 16)] ->
             end_of LP64 r <= 4232 - 40 \/ 4232 + align_size LP64 8 <= fst r) /\
  exists st' l', pool_alloc LP64 pool_one 8 = Ret 4232 st' /\
                 pool_wf LP64 st' l' /\ (4232 - 40, align_size LP64 8) ∈ l' /\
                 forall r, r ∈ [(4136, 16)] -> r ∈ l'.
Proof.
  assert (E : exists st1, pool_alloc LP64 pool_one 8 = Ret 4232 st1)
    by (eexists; vm_compute; reflexivity).
  destruct E as [st1 E].
  destruct (new_block_is_disjoint LP64 LP64_ok pool_one [(4136, 16)] 8 4232 st1
              pool_one_wf)
    as (H1 & H2 & H3 & l' & H4);
    [vm_compute; reflexivity | discriminate | exact E | lia |].
  split; [exact H1|]. split; [exact H2|]. split; [exact H3|].
  exists st1, l'. split; [exact E | exact H4].
Defined.

Lemma align_size_least_witness :
  align_size LP64 (align_size LP64 13) = align_size LP64 13 /\
  (8 | align_size LP64 13) /\ 13 <= align_size LP64 13 /\
  align_size LP64 13 <= 24.
Proof.
  destruct (align_size_least LP64 LP64_ok) as [H1 H2].
  split; [apply H1|].
  destruct (H2 13 ltac:(simpl; lia)) as (Hd & Hle & Hmin).
  split; [exact Hd|]. split; [exact Hle|].
  apply Hmin; [exists 3; reflexivity | lia].
Defined.

Lemma fresh_pool_report_witness :
  pool_wf LP64 pool_empty [] /\
  get_pool_stats pool_empty = (150, 0, 0) /\
  visualize_pool LP64 pool_empty
  = Ret [Title; TotalSize 150; UsedMemory 0; ActiveAllocations 0; LayoutTitle;
         GapLine 110; Blank] pool_empty /\
  destroy_pool pool_empty = Some [].
Proof.
  apply (fresh_pool_report LP64 LP64_ok 4096 150 pool_empty);
    [lia | simpl; lia | reflexivity].
Defined.

Lemma stats_bounds_witness :
  96 + 40 <= 200 /\ 2 * (40 + 8) <= 96 /\ 0 <= 2.
Proof.
  apply (stats_bounds LP64 pool_holed _ 200 96 2 pool_holed_wf).
  reflexivity.
Defined.


Lemma small_pool_overruns_witness :
  exists st',
    pool_alloc LP64 (Arena 4096 (Block 0 4144 48 0 0) ∅) 8 = Ret 4176 st' /\
    4176 = 4096 + 40 + 40 /\
    upper_limit (header st') < 4176 + align_size LP64 8.
Proof.
  assert (E : exists st', pool_alloc LP64 (Arena 4096 (Block 0 4144 48 0 0) ∅) 8
                          = Ret 4176 st')
    by (eexists; vm_compute; reflexivity).
  destruct E as [st' E]. exists st'. split; [exact E|].
  apply (small_pool_overruns LP64 LP64_ok 4096 48
           (Arena 4096 (Block 0 4144 48 0 0) ∅) 8 4176 st');
    [lia | simpl; lia | reflexivity | exact E | lia].
Defined.

Lemma capacity_is_constant_witness :
  (exists st' m' l',
     pool_alloc LP64 pool_one 8 = Ret 4232 st' /\
     Bytes.pool_alloc LP64 4096 8 bytes_one = Bytes.Done 4232 m' /\
     pool_wf LP64 st' l' /\ Bytes.holds LP64 m' st' l' /\
     Bytes.read_word LP64 (Bytes.pool_total_size LP64 4096) m'
     = Bytes.Done 150 m' /\
     Bytes.read_word LP64 (Bytes.pool_upper_limit LP64 4096) m'
     = Bytes.Done (4096 + 150) m') /\
  (exists m' st',
     Bytes.pool_free LP64 (4136 + 40) bytes_one = Bytes.Done tt m' /\
     pool_free LP64 pool_one (4136 + 40) = Ret tt st' /\
     pool_wf LP64 st' [] /\ Bytes.holds LP64 m' st' [] /\
     Bytes.read_word LP64 (Bytes.pool_total_size LP64 4096) m'
     = Bytes.Done 150 m' /\
     Bytes.read_word LP64 (Bytes.pool_upper_limit LP64 4096) m'
     = Bytes.Done (4096 + 150) m').
Proof.
  destruct (capacity_is_constant LP64 LP64_ok LP64_layout bytes_one pool_one
              [(4136, 16)] pool_one_wf bytes_one_holds) as [Ha Hf].
  split.
  - assert (E : exists st', pool_alloc LP64 pool_one 8 = Ret 4232 st')
      by (eexists; vm_compute; reflexivity).
    destruct E as [st' E].
    destruct (Ha 8 4232 st' ltac:(vm_compute; reflexivity)
                ltac:(discriminate) E) as (m' & l' & H).
    exists st', m', l'. split; [exact E | exact H].
  - exact (Hf [] (4136, 16) [] eq_refl).
Defined.

Lemma fresh_pool_in_bytes_witness :
  exists m,
    Bytes.create_memory_pool LP64 (fun a => a mod 7) 4096 150
    = Bytes.Done 4096 m /\
    pool_wf LP64 pool_empty [] /\ Bytes.holds LP64 m pool_empty [] /\
    Bytes.get_pool_stats LP64 4096 m = Bytes.Done (150, 0, 0) m /\
    forall a, 4096 + 40 <= a < 4096 + 150 -> m !! a = Some 204.
Proof.
  apply (fresh_pool_in_bytes LP64 LP64_ok LP64_layout (fun a => a mod 7) 4096
           150 pool_empty); [lia | simpl; lia | reflexivity].
Defined.

Lemma fresh_allocations_are_stacked_witness :
  exists st,
    run LP64 pool_1000 [Alloc 200; Alloc 5; Alloc 8] = Some st /\
    pool_wf LP64 st [(4136, 200); (4376, 8); (4424, 8)].
Proof.
  apply (fresh_allocations_are_stacked LP64 LP64_ok 4096 1000 pool_1000
           [200; 5; 8]).
  - lia.
  - simpl. lia.
  - reflexivity.
  - repeat constructor; simpl; lia.
  - vm_compute. discriminate.
Defined.

Lemma alloc_succeeds_iff_gap_witness :
  (exists q st', pool_alloc LP64 pool_holed 8 = Ret q st' /\ q <> 0) <->
  (exists g, g ∈ gaps LP64 4136 [(4136, 8); (4232, 8)] 4296 /\
             align_size LP64 8 + 40 <= snd g).
Proof.
  apply (alloc_succeeds_iff_gap LP64 LP64_ok pool_holed _ 8 pool_holed_wf).
  - discriminate.
  - vm_compute. discriminate.
  - vm_compute. reflexivity.
Defined.
